(** * Riskfolio-Lib, [riskfolio/src/AuxFunctions.py]: codependence, distance,
    cluster-count and denoising helpers

  A shallow embedding of the functions of [AuxFunctions.py] that the
  specification talks about, and the properties established for them.

  Conventions of the embedding.
  - A NumPy [float64] is a real number or one of the three IEEE special
    values ([Np.float64]): arithmetic on finite values is exact (rounding
    error, overflow and the sign of zero are not modelled), arithmetic on
    the special values follows IEEE 754, and NumPy arithmetic never raises.
  - A Python [float] that the code computes with Python operators is a real
    number; Python's [/] raises [ZeroDivisionError] on a zero divisor.
  - A Python exception is a value of [Py.exn]; a function that can raise
    returns a [Py.result].
  - A 2-d array or a [DataFrame] is the list of its rows; labels are not
    modelled.
  - Functions of NumPy, SciPy, pandas, scikit-learn and astropy that are
    plain data movement are written out; the numerical kernels are
    variables of the section that uses them. *)

From Stdlib Require Import Reals Lra Lia ZArith List Bool Arith Psatz.
From Stdlib Require Strings.String.
From Stdlib Require Import ROrderedType Sorting.Sorted Permutation.
Import ListNotations.
Import String.StringSyntax.
Delimit Scope string_scope with string.

Set Implicit Arguments.

(** ** Python results *)

Module Py.

Inductive exn : Type :=
| ValueError
| TypeError
| IndexError
| ZeroDivisionError
| UnboundLocalError.

Inductive result (A : Type) : Type :=
| Ok (a : A)
| Raise (e : exn).

Arguments Ok {A} a.
Arguments Raise {A} e.

Definition bind {A B : Type} (c : result A) (k : A -> result B) : result B :=
  match c with
  | Ok a => k a
  | Raise e => Raise e
  end.

Definition is_ok {A : Type} (c : result A) : bool :=
  match c with Ok _ => true | Raise _ => false end.

(** [x / y] on Python floats. *)
Definition truediv (x y : R) : result R :=
  if Req_dec_T y 0 then Raise ZeroDivisionError else Ok (x / y)%R.

(** A loop body run over a list, stopping at the first exception. *)
Fixpoint foldM {A S : Type} (body : S -> A -> result S) (l : list A) (s : S)
  : result S :=
  match l with
  | [] => Ok s
  | a :: l' => bind (body s a) (foldM body l')
  end.

Fixpoint mapM {A B : Type} (f : A -> result B) (l : list A) : result (list B) :=
  match l with
  | [] => Ok []
  | a :: l' => bind (f a) (fun b => bind (mapM f l') (fun bs => Ok (b :: bs)))
  end.

End Py.

Notation "x <- c ;; k" := (Py.bind c (fun x => k))
(at level 61, c at next level, right associativity).
Notation "' pat <- c ;; k" := (Py.bind c (fun x => match x with pat => k end))
(at level 61, pat pattern, c at next level, right associativity).

Import Py.

(** ** NumPy scalars *)

Module Np.

Open Scope R_scope.

Inductive float64 : Type :=
| Fin (x : R)
| PInf
| NInf
| NaN.

Definition of_Z (z : Z) : float64 := Fin (IZR z).
Definition of_nat (n : nat) : float64 := Fin (INR n).

Definition is_finite (a : float64) : Prop :=
  match a with Fin _ => True | _ => False end.

Definition is_nan (a : float64) : Prop :=
  match a with NaN => True | _ => False end.

(** The sign of a value, as a [comparison] with zero; [Eq] for zero and NaN. *)
Definition sign (a : float64) : comparison :=
  match a with
  | Fin x => Rcompare x 0
  | PInf => Gt
  | NInf => Lt
  | NaN => Eq
  end.

Definition sign_mul (s t : comparison) : comparison :=
  match s, t with
  | Eq, _ | _, Eq => Eq
  | Lt, Lt | Gt, Gt => Gt
  | _, _ => Lt
  end.

(** An infinity of the given sign; the invalid operation when there is none. *)
Definition inf_of (s : comparison) : float64 :=
  match s with Lt => NInf | Eq => NaN | Gt => PInf end.

Definition opp (a : float64) : float64 :=
  match a with
  | Fin x => Fin (- x)
  | PInf => NInf
  | NInf => PInf
  | NaN => NaN
  end.

Definition add (a b : float64) : float64 :=
  match a, b with
  | NaN, _ | _, NaN => NaN
  | Fin x, Fin y => Fin (x + y)
  | PInf, NInf | NInf, PInf => NaN
  | PInf, _ | _, PInf => PInf
  | NInf, _ | _, NInf => NInf
  end.

Definition sub (a b : float64) : float64 := add a (opp b).

Definition mul (a b : float64) : float64 :=
  match a, b with
  | NaN, _ | _, NaN => NaN
  | Fin x, Fin y => Fin (x * y)
  | _, _ => inf_of (sign_mul (sign a) (sign b))
  end.

(** [a / b]: a zero divisor gives an infinity or NaN (with a warning), never
    an exception. *)
Definition div (a b : float64) : float64 :=
  match a, b with
  | NaN, _ | _, NaN => NaN
  | Fin x, Fin y =>
      if Req_dec_T y 0 then inf_of (Rcompare x 0) else Fin (x / y)
  | Fin _, _ => Fin 0
  | _, Fin y => inf_of (sign_mul (sign a) (if Rlt_dec y 0 then Lt else Gt))
  | _, _ => NaN
  end.

(** [np.sqrt a]. *)
Definition sqrt (a : float64) : float64 :=
  match a with
  | Fin x => if Rlt_dec x 0 then NaN else Fin (R_sqrt.sqrt x)
  | PInf => PInf
  | NInf | NaN => NaN
  end.

(** [a ** 0.5]: as [np.sqrt] but for [-inf], where C's [pow] gives [+inf]. *)
Definition pow_half (a : float64) : float64 :=
  match a with
  | NInf => PInf
  | _ => sqrt a
  end.

(** [a ** 2]. *)
Definition square (a : float64) : float64 := mul a a.

Definition abs (a : float64) : float64 :=
  match a with
  | Fin x => Fin (Rabs x)
  | PInf | NInf => PInf
  | NaN => NaN
  end.

(** [np.log a]. *)
Definition log (a : float64) : float64 :=
  match a with
  | Fin x =>
      match Rcompare x 0 with
      | Gt => Fin (ln x)
      | Eq => NInf
      | Lt => NaN
      end
  | PInf => PInf
  | NInf | NaN => NaN
  end.

Definition exp (a : float64) : float64 :=
  match a with
  | Fin x => Fin (Rtrigo_def.exp x)
  | PInf => PInf
  | NInf => Fin 0
  | NaN => NaN
  end.

(** IEEE comparisons: every comparison with NaN is false. *)
Definition ltb (a b : float64) : bool :=
  match a, b with
  | NaN, _ | _, NaN => false
  | Fin x, Fin y => if Rlt_dec x y then true else false
  | NInf, NInf | PInf, PInf => false
  | NInf, _ | _, PInf => true
  | _, _ => false
  end.

Definition eqb (a b : float64) : bool :=
  match a, b with
  | Fin x, Fin y => if Req_dec_T x y then true else false
  | PInf, PInf | NInf, NInf => true
  | _, _ => false
  end.

Definition leb (a b : float64) : bool := ltb a b || eqb a b.

Definition le (a b : float64) : Prop := leb a b = true.
Definition lt (a b : float64) : Prop := ltb a b = true.

(** [np.maximum] and [np.minimum] propagate NaN. *)
Definition maximum (a b : float64) : float64 :=
  match a, b with
  | NaN, _ | _, NaN => NaN
  | _, _ => if ltb a b then b else a
  end.

Definition minimum (a b : float64) : float64 :=
  match a, b with
  | NaN, _ | _, NaN => NaN
  | _, _ => if ltb b a then b else a
  end.

(** [np.clip a a_min a_max]. *)
Definition clip (a a_min a_max : float64) : float64 :=
  minimum (maximum a a_min) a_max.

(** Round to the nearest integer, ties to the even one ([np.rint]). *)
Definition rint (x : R) : Z :=
  let f := Zfloor x in
  match Rcompare (x - IZR f) (/ 2) with
  | Lt => f
  | Gt => (f + 1)%Z
  | Eq => if Z.even f then f else (f + 1)%Z
  end.

(** [np.round a]. *)
Definition round (a : float64) : float64 :=
  match a with
  | Fin x => Fin (IZR (rint x))
  | _ => a
  end.

(** [np.round a decimals] for [decimals >= 0]: scale, round, scale back. *)
Definition round_to (decimals : nat) (a : float64) : float64 :=
  div (round (mul a (Fin (10 ^ decimals)))) (Fin (10 ^ decimals)).

(** [np.ceil a]. *)
Definition ceil (a : float64) : float64 :=
  match a with
  | Fin x => Fin (IZR (Zceil x))
  | _ => a
  end.

(** [np.nan_to_num a]: NaN becomes 0; the infinities become the largest
    finite doubles, [(2 - 2^-52) * 2^1023] in magnitude. *)
Definition float_max : R := (2 - / 2 ^ 52) * 2 ^ 1023.

Definition nan_to_num (a : float64) : float64 :=
  match a with
  | Fin x => Fin x
  | PInf => Fin float_max
  | NInf => Fin (- float_max)
  | NaN => Fin 0
  end.

(** [np.sum] of a 1-d array. *)
Definition sum (l : list float64) : float64 := fold_left add l (Fin 0).

(** The order NumPy sorts and searches with: IEEE [<] with NaN after
    everything else. *)
Definition sort_ltb (a b : float64) : bool :=
  match a, b with
  | NaN, _ => false
  | _, NaN => true
  | _, _ => ltb a b
  end.

(** The cast of a [float64] to [int32]: truncation toward zero when the
    result fits; what a value that does not fit (or is not finite) becomes
    depends on the platform and is the parameter [invalid]. *)
Definition trunc (x : R) : Z :=
  if Rlt_dec x 0 then Zceil x else Zfloor x.

Definition int32_min : Z := (- 2 ^ 31)%Z.
Definition int32_max : Z := (2 ^ 31 - 1)%Z.

Definition fits_int32 (a : float64) : Prop :=
  match a with
  | Fin x => IZR int32_min - 1 < x < IZR int32_max + 1
  | _ => False
  end.

Definition int32 (invalid : float64 -> Z) (a : float64) : Z :=
  match a with
  | Fin x =>
      if Rlt_dec (IZR int32_min - 1) x then
        if Rlt_dec x (IZR int32_max + 1) then trunc x else invalid a
      else invalid a
  | _ => invalid a
  end.

End Np.


(** ** [numBins]: the optimal number of bins *)

Open Scope R_scope.

(** [x ** y] on Python floats, for a base that is not negative and a real
    exponent that is not zero. *)
Definition py_pow (x y : R) : R :=
  if Req_dec_T x 0 then 0 else Rpower x y.

(** What the platform's cast to [int32] makes of a value that does not fit
    (or is not finite): the C conversion NumPy performs leaves it to the
    hardware. *)
Class Platform : Type := {
  int32_invalid : Np.float64 -> Z
}.

(** On x86-64 the conversion instruction returns the "integer indefinite"
    value, the smallest [int32]. *)
#[global] Instance x86_64 : Platform := {
  int32_invalid := fun _ => Np.int32_min
}.

Section NumBins.

Context {P : Platform}.

(** The cube root [z] of the univariate rule. *)
Definition numBins_z (n_samples : Z) : R :=
  let n := IZR n_samples in
  py_pow (8 + 324 * n + 12 * py_pow (36 * n + 729 * n ^ 2) (/ 2)) (1 / 3).

(** The value the univariate rule rounds: [z / 6 + 2 / (3 * z) + 1 / 3]. *)
Definition numBins_b (n_samples : Z) : R :=
  let z := numBins_z n_samples in
  z / 6 + 2 / (3 * z) + 1 / 3.

(** [numBins n_samples corr], with [n_samples] a Python [int] and [corr]
    either [None] or a NumPy scalar (as at its two call sites). *)
Definition numBins (n_samples : Z) (corr : option Np.float64) : result Z :=
  let n := IZR n_samples in
  match corr with
  | None =>
      let z := numBins_z n_samples in
      t <- truediv 2 (3 * z) ;;
      let b := Np.round (Np.Fin (z / 6 + t + 1 / 3)) in
      Ok (Np.int32 int32_invalid b)
  | Some corr =>
      let b :=
        Np.round
          (Np.mul (Np.Fin (py_pow 2 (- / 2)))
             (Np.pow_half
                (Np.add (Np.Fin 1)
                   (Np.pow_half
                      (Np.add (Np.Fin 1)
                         (Np.div (Np.Fin (24 * n))
                            (Np.sub (Np.Fin 1) (Np.square corr)))))))) in
      Ok (Np.int32 int32_invalid b)
  end.

(** The choice of [bins] under [bins_info == "HGR"], lines 483-488 and
    579-584: [m] is [X1.shape[0]] and [corr] the entry [[0, 1]] of
    [np.corrcoef]. *)
Definition hgr_bins (m : Z) (corr : Np.float64) : result Z :=
  if Np.eqb corr (Np.Fin 1) then numBins m None else numBins m (Some corr).

End NumBins.

(** ** Arrays *)

Module Mat.

(** A 2-d array as the list of its rows. *)
Definition matrix (A : Type) : Type := list (list A).

Definition shape0 {A : Type} (M : matrix A) : nat := length M.

(** The number of columns; an array without rows is taken to have none. *)
Definition shape1 {A : Type} (M : matrix A) : nat := length (hd [] M).

(** [np.full((r, c), x)]: [np.zeros] and [np.ones] are instances. *)
Definition full {A : Type} (r c : nat) (x : A) : matrix A :=
  repeat (repeat x c) r.

(** [M[i, j]], with [d] standing for an entry that does not exist. *)
Definition get {A : Type} (d : A) (M : matrix A) (i j : nat) : A :=
  nth j (nth i M []) d.

(** [M[:, j]]. *)
Definition col {A : Type} (d : A) (M : matrix A) (j : nat) : list A :=
  map (fun row => nth j row d) M.

(** [l[i] = x] for an index in range (the only use made of it). *)
Fixpoint set_nth {A : Type} (l : list A) (i : nat) (x : A) : list A :=
  match l, i with
  | [], _ => []
  | _ :: t, O => x :: t
  | h :: t, S i' => h :: set_nth t i' x
  end.

(** [M[i, j] = x] for indices in range. *)
Definition set {A : Type} (M : matrix A) (i j : nat) (x : A) : matrix A :=
  set_nth M i (set_nth (nth i M []) j x).

(** An elementwise function, as NumPy's ufuncs apply. *)
Definition map {A B : Type} (f : A -> B) (M : matrix A) : matrix B :=
  List.map (List.map f) M.

(** The pairs of [np.triu_indices(n)], zipped: [i <= j] in row-major order. *)
Definition triu_indices (n : nat) : list (nat * nat) :=
  flat_map (fun i => List.map (fun j => (i, j)) (seq i (n - i))) (seq 0 n).

(** [np.diag M] of a 2-d array. *)
Definition diag {A : Type} (d : A) (M : matrix A) : list A :=
  List.map (fun i => get d M i i) (seq 0 (min (shape0 M) (shape1 M))).

(** [np.diag v] and [np.diagflat v] of a 1-d array, [z] off the diagonal. *)
Definition diagflat {A : Type} (z : A) (v : list A) : matrix A :=
  List.map (fun i => set_nth (repeat z (length v)) i (nth i v z))
    (seq 0 (length v)).

(** [M.T] for an array with [c] columns. *)
Definition transpose {A : Type} (d : A) (c : nat) (M : matrix A) : matrix A :=
  List.map (col d M) (seq 0 c).

Definition symmetric {A : Type} (d : A) (M : matrix A) : Prop :=
  forall i j : nat, get d M i j = get d M j i.

(** Every entry satisfies [P]. *)
Definition all {A : Type} (P : A -> Prop) (M : matrix A) : Prop :=
  Forall (Forall P) M.

End Mat.

(** ** More of NumPy on 1-d arrays *)

(** [np.sort]: insertion into the order with NaN last. *)
Fixpoint np_insert (a : Np.float64) (l : list Np.float64) : list Np.float64 :=
  match l with
  | [] => [a]
  | b :: t => if Np.sort_ltb b a then b :: np_insert a t else a :: l
  end.

Definition np_sort (l : list Np.float64) : list Np.float64 :=
  fold_right np_insert [] l.

(** [np.max] and [np.min] of a 1-d array raise on an empty one. *)
Definition np_max (l : list Np.float64) : result Np.float64 :=
  match l with
  | [] => Raise ValueError
  | a :: t => Ok (fold_left Np.maximum t a)
  end.

Definition np_min (l : list Np.float64) : result Np.float64 :=
  match l with
  | [] => Raise ValueError
  | a :: t => Ok (fold_left Np.minimum t a)
  end.

(** ** [mutual_info_matrix] and [var_info_matrix] *)

(** The histogram and information kernels of astropy, NumPy, SciPy and
    scikit-learn.  A histogram is the list of its counts. *)
Class InfoKernels : Type := {
  knuth_bin_width : list Np.float64 -> result Np.float64;
  freedman_bin_width : list Np.float64 -> result Np.float64;
  scott_bin_width : list Np.float64 -> result Np.float64;
  (** [np.corrcoef(x, y)[0, 1]] *)
  corrcoef : list Np.float64 -> list Np.float64 -> Np.float64;
  (** [np.histogram2d(x, y, bins)[0]] *)
  histogram2d :
    list Np.float64 -> list Np.float64 -> Z -> result (Mat.matrix nat);
  (** [np.histogram(x, bins)[0]] *)
  histogram : list Np.float64 -> Z -> result (list nat);
  (** [st.entropy] of a histogram *)
  entropy : list nat -> Np.float64;
  (** [mutual_info_score(None, None, contingency=c)] *)
  mutual_info_score : Mat.matrix nat -> Np.float64
}.

(** The argument [bins_info]: a string, an integer, or anything else. *)
Inductive bins_spec : Type :=
| BinsStr (s : String.string)
| BinsInt (b : Z)
| BinsOther.

Section InfoMatrix.

Context {P : Platform} {K : InfoKernels}.

Local Open Scope string_scope.

(** The bin count of the rules ['KN'], ['FD'] and ['SC'] for the pair
    [(i, j)], with [width] the rule's bin width. *)
Definition width_bins (width : list Np.float64 -> result Np.float64)
    (X1 : Mat.matrix Np.float64) (i j : nat) : result Z :=
  let xi := Mat.col Np.NaN X1 i in
  let xj := Mat.col Np.NaN X1 j in
  hi <- np_max xi ;;
  lo <- np_min xi ;;
  w <- width xi ;;
  let k1 := Np.div (Np.sub hi lo) w in
  if Nat.eqb i j then Ok (Np.int32 int32_invalid (Np.round k1))
  else
    hj <- np_max xj ;;
    lj <- np_min xj ;;
    wj <- width xj ;;
    let k2 := Np.div (Np.sub hj lj) wj in
    Ok (Np.int32 int32_invalid (Np.round (Np.maximum k1 k2))).

(** The [if]/[elif] chain that assigns [bins], lines 463-490 and 559-586.
    When no branch is taken [bins] has no value and its first use raises. *)
Definition choose_bins (X1 : Mat.matrix Np.float64) (bins_info : bins_spec)
    (i j : nat) : result Z :=
  let m := Mat.shape0 X1 in
  match bins_info with
  | BinsStr s =>
      if String.eqb s "KN" then width_bins knuth_bin_width X1 i j
      else if String.eqb s "FD" then width_bins freedman_bin_width X1 i j
      else if String.eqb s "SC" then width_bins scott_bin_width X1 i j
      else if String.eqb s "HGR" then
        hgr_bins (Z.of_nat m)
          (corrcoef (Mat.col Np.NaN X1 i) (Mat.col Np.NaN X1 j))
      else Raise UnboundLocalError
  | BinsInt b => Ok b
  | BinsOther => Raise UnboundLocalError
  end.

(** The three quantities every pair needs: [hX], [hY] and [iXY]. *)
Definition pair_information (X1 : Mat.matrix Np.float64)
    (bins_info : bins_spec) (i j : nat)
  : result (Np.float64 * Np.float64 * Np.float64) :=
  let xi := Mat.col Np.NaN X1 i in
  let xj := Mat.col Np.NaN X1 j in
  bins <- choose_bins X1 bins_info i j ;;
  cXY <- histogram2d xi xj bins ;;
  cX <- histogram xi bins ;;
  cY <- histogram xj bins ;;
  Ok (entropy cX, entropy cY, mutual_info_score cXY).

(** The entry [(i, j)] of the mutual information matrix before clipping. *)
Definition mutual_info_entry (X1 : Mat.matrix Np.float64)
    (bins_info : bins_spec) (normalize : bool) (i j : nat)
  : result Np.float64 :=
  ' (hX, hY, iXY) <- pair_information X1 bins_info i j ;;
  Ok (if normalize then Np.div iXY (Np.minimum hX hY) else iXY).

(** The entry [(i, j)] of the variation of information matrix before
    clipping. *)
Definition var_info_entry (X1 : Mat.matrix Np.float64)
    (bins_info : bins_spec) (normalize : bool) (i j : nat)
  : result Np.float64 :=
  ' (hX, hY, iXY) <- pair_information X1 bins_info i j ;;
  let vXY := Np.sub (Np.add hX hY) (Np.mul (Np.Fin 2) iXY) in
  Ok (if normalize then Np.div vXY (Np.sub (Np.add hX hY) iXY) else vXY).

(** The loop over the upper triangle: [mat[i, j] = v; mat[j, i] = mat[i, j]]. *)
Definition fill_symmetric (n : nat) (init : Np.float64)
    (entry : nat -> nat -> result Np.float64)
  : result (Mat.matrix Np.float64) :=
  foldM
    (fun mat ij =>
       let '(i, j) := ij in
       v <- entry i j ;;
       let mat1 := Mat.set mat i j v in
       Ok (Mat.set mat1 j i (Mat.get Np.NaN mat1 i j)))
    (Mat.triu_indices n) (Mat.full n n init).

(** The matrix before the final [np.clip(np.round(mat, 8), 0, inf)]. *)
Definition mutual_info_raw (X : Mat.matrix Np.float64)
    (bins_info : bins_spec) (normalize : bool)
  : result (Mat.matrix Np.float64) :=
  fill_symmetric (Mat.shape1 X) (Np.Fin 0)
    (mutual_info_entry X bins_info normalize).

Definition var_info_raw (X : Mat.matrix Np.float64)
    (bins_info : bins_spec) (normalize : bool)
  : result (Mat.matrix Np.float64) :=
  fill_symmetric (Mat.shape1 X) (Np.Fin 0)
    (var_info_entry X bins_info normalize).

Definition clip_nonneg (a : Np.float64) : Np.float64 :=
  Np.clip (Np.round_to 8 a) (Np.Fin 0) Np.PInf.

Definition mutual_info_matrix (X : Mat.matrix Np.float64)
    (bins_info : bins_spec) (normalize : bool)
  : result (Mat.matrix Np.float64) :=
  mat <- mutual_info_raw X bins_info normalize ;;
  Ok (Mat.map clip_nonneg mat).

Definition var_info_matrix (X : Mat.matrix Np.float64)
    (bins_info : bins_spec) (normalize : bool)
  : result (Mat.matrix Np.float64) :=
  mat <- var_info_raw X bins_info normalize ;;
  Ok (Mat.map clip_nonneg mat).

End InfoMatrix.

(** ** [ltdi_matrix] *)

Section TailDependence.

Context {P : Platform}.

(** The lower tail dependence index of the pair [(i, j)] for [k > 0]. *)
Definition ltd_entry (X1 : Mat.matrix Np.float64) (k : Z) (i j : nat)
  : result Np.float64 :=
  let xi := Mat.col Np.NaN X1 i in
  let xj := Mat.col Np.NaN X1 j in
  match nth_error (np_sort xi) (Z.to_nat (k - 1)),
        nth_error (np_sort xj) (Z.to_nat (k - 1)) with
  | Some u, Some v =>
      let both :=
        filter (fun ab => Np.leb (fst ab) u && Np.leb (snd ab) v)
          (combine xi xj) in
      Ok (Np.div (Np.of_nat (length both)) (Np.of_Z k))
  | _, _ => Raise IndexError
  end.

Definition clip_tail (a : Np.float64) : Np.float64 :=
  Np.clip (Np.round_to 8 a) (Np.Fin (/ 10 ^ 8)) (Np.Fin 1).

Definition ltdi_matrix (X : Mat.matrix Np.float64) (alpha : Np.float64)
  : result (Mat.matrix Np.float64) :=
  let m := Mat.shape0 X in
  let n := Mat.shape1 X in
  let k := Np.int32 int32_invalid (Np.ceil (Np.mul (Np.of_nat m) alpha)) in
  mat <-
    (if (0 <? k)%Z then
       mat1 <- fill_symmetric n (Np.Fin 1) (ltd_entry X k) ;;
       foldM
         (fun mat i =>
            ltd <- ltd_entry X k i i ;;
            Ok (Mat.set mat i i ltd))
         (seq 0 n) mat1
     else Ok (Mat.full n n (Np.Fin 1))) ;;
  Ok (Mat.map clip_tail mat).

End TailDependence.

(** The number of entries that pass a test. *)
Definition count_if {A : Type} (f : A -> bool) (l : list A) : nat :=
  length (filter f l).

(** ** Reference kernels

    The histogram and information kernels as their libraries document them,
    in exact arithmetic; they serve to run the functions above on concrete
    inputs. *)

Module Ref.

(** The values of an all-finite array. *)
Fixpoint finite_values (x : list Np.float64) : option (list R) :=
  match x with
  | [] => Some []
  | Np.Fin v :: t => option_map (cons v) (finite_values t)
  | _ :: _ => None
  end.

Definition Rlist_min (v : R) (t : list R) : R := fold_left Rmin t v.
Definition Rlist_max (v : R) (t : list R) : R := fold_left Rmax t v.

(** The outer bin edges NumPy picks: the range of the data, widened by a
    half on each side when it is a single point, and [(0, 1)] without data. *)
Definition outer_edges (x : list R) : R * R :=
  match x with
  | [] => (0, 1)
  | v :: t =>
      let lo := Rlist_min v t in
      let hi := Rlist_max v t in
      if Req_dec_T lo hi then (lo - / 2, hi + / 2) else (lo, hi)
  end.

(** The bin of a value: equal widths, the last bin closed on the right. *)
Definition bin_index (edges : R * R) (bins : Z) (v : R) : Z :=
  let '(lo, hi) := edges in
  Z.min (bins - 1) (Zfloor ((v - lo) / (hi - lo) * IZR bins)).

Definition bin_range (bins : Z) : list Z :=
  map Z.of_nat (seq 0 (Z.to_nat bins)).

(** [np.histogram(x, bins)[0]] for an integer [bins]. *)
Definition histogram (x : list Np.float64) (bins : Z) : result (list nat) :=
  if (bins <? 1)%Z then Raise ValueError
  else
    match finite_values x with
    | None => Raise ValueError
    | Some xs =>
        let e := outer_edges xs in
        Ok (map (fun b => count_if (fun v => Z.eqb (bin_index e bins v) b) xs)
              (bin_range bins))
    end.

(** [np.histogram2d(x, y, bins)[0]] for an integer [bins]. *)
Definition histogram2d (x y : list Np.float64) (bins : Z)
  : result (Mat.matrix nat) :=
  if (bins <? 1)%Z then Raise ValueError
  else
    match finite_values x, finite_values y with
    | Some xs, Some ys =>
        let ex := outer_edges xs in
        let ey := outer_edges ys in
        Ok (map
              (fun bx =>
                 map
                   (fun by_ =>
                      count_if
                        (fun p =>
                           Z.eqb (bin_index ex bins (fst p)) bx
                           && Z.eqb (bin_index ey bins (snd p)) by_)
                        (combine xs ys))
                   (bin_range bins))
              (bin_range bins))
    | _, _ => Raise ValueError
    end.

Definition total (c : list nat) : nat := fold_right Nat.add 0%nat c.

(** [-p ln p], zero at zero. *)
Definition entr (p : R) : R :=
  if Req_dec_T p 0 then 0 else - (p * ln p).

(** [st.entropy(pk)]: the Shannon entropy, in nats, of the counts
    normalised to sum to one. *)
Definition entropy (c : list nat) : Np.float64 :=
  if Nat.eqb (total c) 0 then Np.NaN
  else
    Np.Fin (fold_right Rplus 0 (map (fun k => entr (INR k / INR (total c))) c)).

(** [mutual_info_score(None, None, contingency=c)]: zero when the table has
    a single row or a single column, the mutual information of the table in
    nats, clipped to be at least zero, otherwise. *)
Definition mutual_info_score (c : Mat.matrix nat) : Np.float64 :=
  let rows := map total c in
  let ncols := Mat.shape1 c in
  let cols := map (fun j => total (Mat.col 0%nat c j)) (seq 0 ncols) in
  let N := INR (total rows) in
  if (length rows =? 1)%nat || (ncols =? 1)%nat then Np.Fin 0
  else
    let cell (i j : nat) : R :=
      let nij := INR (Mat.get 0%nat c i j) in
      if Req_dec_T nij 0 then 0
      else nij / N
           * (ln nij - ln N
              - ln (INR (nth i rows 0%nat) * INR (nth j cols 0%nat))
              + 2 * ln N) in
    Np.Fin
      (Rmax 0
         (fold_right Rplus 0
            (map (fun i => fold_right Rplus 0 (map (cell i) (seq 0 ncols)))
               (seq 0 (length rows))))).

(** [np.corrcoef(x, y)[0, 1]]: the covariance divided by both standard
    deviations in turn, clipped to [[-1, 1]]. *)
Definition corrcoef (x y : list Np.float64) : Np.float64 :=
  match finite_values x, finite_values y with
  | Some xs, Some ys =>
      let n := INR (length xs) in
      let mx := fold_right Rplus 0 xs / n in
      let my := fold_right Rplus 0 ys / n in
      let dot (u v : list R) (mu mv : R) : R :=
        fold_right Rplus 0 (map (fun p => (fst p - mu) * (snd p - mv)) (combine u v)) in
      let cxy := Np.Fin (dot xs ys mx my) in
      let sx := Np.sqrt (Np.Fin (dot xs xs mx mx)) in
      let sy := Np.sqrt (Np.Fin (dot ys ys my my)) in
      Np.clip (Np.div (Np.div cxy sx) sy) (Np.Fin (-1)) (Np.Fin 1)
  | _, _ => Np.NaN
  end.

(** The kernels above; astropy's bin-width rules are not among them and
    raise. *)
#[global] Instance kernels : InfoKernels := {
  knuth_bin_width := fun _ => Raise ValueError;
  freedman_bin_width := fun _ => Raise ValueError;
  scott_bin_width := fun _ => Raise ValueError;
  corrcoef := corrcoef;
  histogram2d := histogram2d;
  histogram := histogram;
  entropy := entropy;
  mutual_info_score := mutual_info_score
}.

End Ref.

(** ** [cov2corr] and [corr2cov] *)

(** [f i j M[i, j]] for every entry. *)
Definition mapij {A B : Type} (f : nat -> nat -> A -> B) (M : Mat.matrix A)
  : Mat.matrix B :=
  map (fun ir =>
         map (fun jc => f (fst ir) (fst jc) (snd jc))
           (combine (seq 0 (length (snd ir))) (snd ir)))
    (combine (seq 0 (length M)) M).

Definition is_square {A : Type} (M : Mat.matrix A) : bool :=
  forallb (fun row => (length row =? length M)%nat) M.

(** [cov2corr(cov)]: [cov1 / np.outer(std, std)] clipped to [[-1, 1]].  The
    division broadcasts: it is entry by entry for a square array, by the one
    entry of [np.outer] when [np.diag] has a single entry, gives the empty
    array for one row without columns (shape [(1, 0)] against the [(0, 0)]
    of [np.outer]), and fails for other shapes. *)
Definition cov2corr (cov : Mat.matrix Np.float64)
  : result (Mat.matrix Np.float64) :=
  let std := map Np.sqrt (Mat.diag Np.NaN cov) in
  let outer (i j : nat) := Np.mul (nth i std Np.NaN) (nth j std Np.NaN) in
  let unit (d c : Np.float64) := Np.clip (Np.div c d) (Np.Fin (-1)) (Np.Fin 1) in
  if is_square cov then Ok (mapij (fun i j c => unit (outer i j) c) cov)
  else if (length std =? 1)%nat then Ok (Mat.map (unit (outer 0 0)%nat) cov)
  else if (length cov =? 1)%nat && (length std =? 0)%nat then Ok []
  else Raise ValueError.

(** [corr2cov(corr, std)]: [corr * np.outer(std, std)] for a square [corr]
    and as many deviations. *)
Definition corr2cov (corr : Mat.matrix Np.float64) (std : list Np.float64)
  : Mat.matrix Np.float64 :=
  mapij (fun i j c => Np.mul c (Np.mul (nth i std Np.NaN) (nth j std Np.NaN)))
    corr.

(** ** [codep_dist] *)

(** The codependence estimators of pandas, of [GerberStatistic] and of the
    compiled extension. *)
Class CodepKernels : Type := {
  (** [returns.corr(method=method)] *)
  df_corr :
    String.string -> Mat.matrix Np.float64 -> result (Mat.matrix Np.float64);
  (** [gs.gerber_cov_stat1(returns, threshold=t)] *)
  gerber_cov_stat1 :
    Mat.matrix Np.float64 -> R -> result (Mat.matrix Np.float64);
  gerber_cov_stat2 :
    Mat.matrix Np.float64 -> R -> result (Mat.matrix Np.float64);
  (** [cf.d_corr_matrix(X1)] *)
  d_corr_matrix : Mat.matrix Np.float64 -> result (Mat.matrix Np.float64)
}.

(** [np.sqrt(np.clip((1 - codep) / 2, 0, 1))], one entry. *)
Definition dist_half (c : Np.float64) : Np.float64 :=
  Np.sqrt
    (Np.clip (Np.div (Np.sub (Np.Fin 1) c) (Np.Fin 2)) (Np.Fin 0) (Np.Fin 1)).

(** [np.sqrt(np.clip(1 - codep, 0, 1))], one entry. *)
Definition dist_one (c : Np.float64) : Np.float64 :=
  Np.sqrt (Np.clip (Np.sub (Np.Fin 1) c) (Np.Fin 0) (Np.Fin 1)).

(** [-np.log(codep)], one entry. *)
Definition dist_log (c : Np.float64) : Np.float64 := Np.opp (Np.log c).

(** [s[4:]]. *)
Definition drop4 (s : String.string) : String.string :=
  String.substring 4 (String.length s - 4) s.

Definition str_in (s : String.string) (l : list String.string) : bool :=
  existsb (String.eqb s) l.

Section CodepDist.

Context {P : Platform} {K : InfoKernels} {C : CodepKernels}.

Local Open Scope string_scope.

(** [dcorr_matrix(X)]. *)
Definition dcorr_matrix (X : Mat.matrix Np.float64)
  : result (Mat.matrix Np.float64) :=
  d_corr_matrix X.

(** The [if]/[elif] chain of [codep_dist]: the values of [codep] and [dist]
    when a branch assigns them, [None] when no branch is taken. *)
Definition codep_dist_branches (returns : Mat.matrix Np.float64)
    (custom_cov : option (Mat.matrix Np.float64))
    (codependence : String.string) (bins_info : bins_spec)
    (alpha_tail : Np.float64) (gs_threshold : R)
  : result (option (Mat.matrix Np.float64 * Mat.matrix Np.float64)) :=
  if str_in codependence ["pearson"; "spearman"; "kendall"] then
    codep <- df_corr codependence returns ;;
    Ok (Some (codep, Mat.map dist_half codep))
  else if String.eqb codependence "gerber1" then
    cov <- gerber_cov_stat1 returns gs_threshold ;;
    codep <- cov2corr cov ;;
    Ok (Some (codep, Mat.map dist_half codep))
  else if String.eqb codependence "gerber2" then
    cov <- gerber_cov_stat2 returns gs_threshold ;;
    codep <- cov2corr cov ;;
    Ok (Some (codep, Mat.map dist_half codep))
  else if str_in codependence ["abs_pearson"; "abs_spearman"; "abs_kendall"] then
    corr <- df_corr (drop4 codependence) returns ;;
    let codep := Mat.map Np.abs corr in
    Ok (Some (codep, Mat.map dist_one codep))
  else if str_in codependence ["distance"] then
    codep <- dcorr_matrix returns ;;
    Ok (Some (codep, Mat.map dist_one codep))
  else if str_in codependence ["mutual_info"] then
    codep <- mutual_info_matrix returns bins_info true ;;
    dist <- var_info_matrix returns bins_info true ;;
    Ok (Some (codep, dist))
  else if str_in codependence ["tail"] then
    codep <- ltdi_matrix returns alpha_tail ;;
    Ok (Some (codep, Mat.map dist_log codep))
  else if str_in codependence ["custom_cov"] then
    match custom_cov with
    | None => Raise TypeError
    | Some cov =>
        codep <- cov2corr cov ;;
        Ok (Some (codep, Mat.map dist_half codep))
    end
  else Ok None.

(** [codep_dist]: [return codep, dist] reads two local variables that exist
    only when a branch assigned them. *)
Definition codep_dist (returns : Mat.matrix Np.float64)
    (custom_cov : option (Mat.matrix Np.float64))
    (codependence : String.string) (bins_info : bins_spec)
    (alpha_tail : Np.float64) (gs_threshold : R)
  : result (Mat.matrix Np.float64 * Mat.matrix Np.float64) :=
  locals <- codep_dist_branches returns custom_cov codependence bins_info
              alpha_tail gs_threshold ;;
  match locals with
  | Some codep_and_dist => Ok codep_and_dist
  | None => Raise UnboundLocalError
  end.

End CodepDist.

(** The kinds of the dispatch table. *)
Definition codependence_kinds : list String.string :=
  ["pearson"; "spearman"; "kendall"; "gerber1"; "gerber2"; "abs_pearson";
   "abs_spearman"; "abs_kendall"; "distance"; "mutual_info"; "tail";
   "custom_cov"]%string.

(** The kinds whose distance has a zero diagonal. *)
Definition correlation_kinds : list String.string :=
  ["pearson"; "spearman"; "kendall"; "abs_pearson"; "abs_spearman";
   "abs_kendall"; "custom_cov"]%string.

(** ** Square, symmetric arrays *)

(** [n] rows of [n] entries. *)
Definition square_of {A : Type} (n : nat) (M : Mat.matrix A) : Prop :=
  length M = n /\ Forall (fun row => length row = n) M.

(** A square, symmetric array without NaN. *)
Definition dependence_matrix (M : Mat.matrix Np.float64) : Prop :=
  square_of (length M) M
  /\ Mat.symmetric Np.NaN M
  /\ Mat.all (fun e => e <> Np.NaN) M.

(** A dependence matrix with ones on the diagonal. *)
Definition correlation_matrix (M : Mat.matrix Np.float64) : Prop :=
  dependence_matrix M
  /\ forall i : nat, (i < length M)%nat -> Mat.get Np.NaN M i i = Np.Fin 1.

(** A square, symmetric array of finite values with a positive diagonal. *)
Definition covariance_matrix (M : Mat.matrix Np.float64) : Prop :=
  square_of (length M) M
  /\ Mat.symmetric Np.NaN M
  /\ Mat.all Np.is_finite M
  /\ forall i : nat, (i < length M)%nat ->
       exists v : R, Mat.get Np.NaN M i i = Np.Fin v /\ 0 < v.

(** Reference codependence estimators: Pearson's correlation of every pair
    of columns for [method = "pearson"]; the rank correlations, the Gerber
    statistics and the distance correlation are not among them and raise. *)
Definition pearson_matrix (X : Mat.matrix Np.float64) : Mat.matrix Np.float64 :=
  let n := Mat.shape1 X in
  map (fun i =>
         map (fun j => Ref.corrcoef (Mat.col Np.NaN X i) (Mat.col Np.NaN X j))
           (seq 0 n))
    (seq 0 n).

#[global] Instance reference_codep_kernels : CodepKernels := {
  df_corr := fun method X =>
    if String.eqb method "pearson" then Ok (pearson_matrix X)
    else Raise ValueError;
  gerber_cov_stat1 := fun _ _ => Raise ValueError;
  gerber_cov_stat2 := fun _ _ => Raise ValueError;
  d_corr_matrix := fun _ => Raise ValueError
}.

(** ** Linear algebra on arrays *)

(** The sum of a list of reals. *)
Definition Rsum (l : list R) : R := fold_left Rplus l 0.

(** [np.dot(A, B)] for [B] with [c] columns. *)
Definition dot (c : nat) (A B : Mat.matrix Np.float64) : Mat.matrix Np.float64 :=
  map (fun row =>
         map (fun j =>
                Np.sum (map (fun p => Np.mul (fst p) (snd p))
                          (combine row (Mat.col Np.NaN B j))))
           (seq 0 c))
    A.

(** [A op B] entry by entry, for arrays of one shape. *)
Definition zip_with (op : Np.float64 -> Np.float64 -> Np.float64)
    (A B : Mat.matrix Np.float64) : Mat.matrix Np.float64 :=
  map (fun rs => map (fun p => op (fst p) (snd p)) (combine (fst rs) (snd rs)))
    (combine A B).

(** [np.trace]. *)
Definition trace (M : Mat.matrix Np.float64) : Np.float64 :=
  Np.sum (Mat.diag Np.NaN M).

(** [a] is not after [b] in the order NumPy sorts with. *)
Definition sort_le (a b : Np.float64) : Prop := Np.sort_ltb b a = false.

(** [v.argsort()]: the positions of the entries in ascending order, equal
    entries in the order they have in [v]. *)
Fixpoint insert_index (v : list Np.float64) (i : nat) (l : list nat) : list nat :=
  match l with
  | [] => [i]
  | j :: t =>
      if Np.sort_ltb (nth i v Np.NaN) (nth j v Np.NaN) then i :: l
      else j :: insert_index v i t
  end.

Definition argsort (v : list Np.float64) : list nat :=
  fold_left (fun l i => insert_index v i l) (seq 0 (length v)) [].

(** [a.searchsorted(key)] with the default [side='left']: a binary search
    for the first position whose entry is not before [key]. *)
Fixpoint bisect_left (fuel : nat) (a : list Np.float64) (key : Np.float64)
    (lo hi : nat) : nat :=
  match fuel with
  | O => lo
  | S fuel' =>
      if (lo <? hi)%nat then
        let mid := (lo + (hi - lo) / 2)%nat in
        if Np.sort_ltb (nth mid a Np.NaN) key
        then bisect_left fuel' a key (S mid) hi
        else bisect_left fuel' a key lo mid
      else lo
  end.

Definition searchsorted (a : list Np.float64) (key : Np.float64) : nat :=
  bisect_left (length a) a key 0 (length a).

(** ** The denoising functions *)

(** The result of [scipy.optimize.minimize]: [out["success"]] and
    [out["x"][0]]. *)
Record OptimizeResult : Type := {
  success : bool;
  x0 : Np.float64
}.

(** The numerical kernels of NumPy, SciPy and scikit-learn the denoising
    functions call. *)
Class SpectralKernels : Type := {
  (** [np.linalg.eigh(matrix)]: eigenvalues and the matrix whose columns
      are the eigenvectors *)
  eigh : Mat.matrix Np.float64 -> result (list Np.float64 * Mat.matrix Np.float64);
  (** [minimize(fun, x0, bounds=((lo, hi),))] *)
  minimize :
    (Np.float64 -> result Np.float64) -> R -> R * R -> result OptimizeResult;
  (** [KernelDensity(kernel=kernel, bandwidth=bWidth).fit(obs).score_samples(x)] *)
  kde_score_samples :
    String.string -> R -> list Np.float64 -> list Np.float64 -> list Np.float64
}.

Section Denoising.

Context {S : SpectralKernels}.

Local Open Scope string_scope.

(** [np.linspace(lo, hi, pts)]. *)
Definition linspace (lo hi : Np.float64) (pts : nat) : list Np.float64 :=
  map (fun i =>
         if (0 <? i)%nat && (i =? pts - 1)%nat then hi
         else Np.add lo
                (Np.mul (Np.of_nat i)
                   (Np.div (Np.sub hi lo) (Np.of_nat (pts - 1)))))
    (seq 0 pts).

(** [(1.0 / q) ** 0.5] on Python floats, for [q] that is not negative. *)
Definition inv_sqrt_q (q : R) : result R :=
  r <- truediv 1 q ;;
  Ok (py_pow r (/ 2)).

(** [mpPDF(var, q, pts)]: the index and the values of the series. *)
Definition mpPDF (var : Np.float64) (q : R) (pts : nat)
  : result (list Np.float64 * list Np.float64) :=
  s <- inv_sqrt_q q ;;
  let eMin := Np.mul var (Np.Fin ((1 - s) ^ 2)) in
  let eMax := Np.mul var (Np.Fin ((1 + s) ^ 2)) in
  let eVal := linspace eMin eMax pts in
  let pdf :=
    map (fun e =>
           Np.mul
             (Np.div (Np.Fin q)
                (Np.mul (Np.mul (Np.Fin (2 * PI)) var) e))
             (Np.pow_half (Np.mul (Np.sub eMax e) (Np.sub e eMin))))
      eVal in
  Ok (eVal, pdf).

(** [fitKDE(obs, bWidth, kernel, x)] for a given [x]: the values of the
    series, whose index is [x]. *)
Definition fitKDE (obs : list Np.float64) (bWidth : R) (kernel : String.string)
    (x : list Np.float64) : list Np.float64 :=
  map Np.exp (kde_score_samples kernel bWidth obs x).

(** [errPDFs(var, eVal, q, bWidth, pts)]. *)
Definition errPDFs (var : Np.float64) (eVal : list Np.float64) (q bWidth : R)
    (pts : nat) : result Np.float64 :=
  ' (index, pdf0) <- mpPDF var q pts ;;
  let pdf1 := fitKDE eVal bWidth "gaussian" index in
  Ok (Np.sum
        (map (fun p => Np.square (Np.sub (fst p) (snd p))) (combine pdf1 pdf0))).

(** [findMaxEval(eVal, q, bWidth)]. *)
Definition findMaxEval (eVal : list Np.float64) (q bWidth : R)
  : result (Np.float64 * Np.float64) :=
  out <- minimize (fun var => errPDFs var eVal q bWidth 1000) (1 / 2)
           (1 / 10 ^ 5, 1 - 1 / 10 ^ 5) ;;
  let var := if success out then x0 out else Np.Fin 1 in
  s <- inv_sqrt_q q ;;
  Ok (Np.mul var (Np.Fin ((1 + s) ^ 2)), var).

(** [getPCA(matrix)]: the eigenvalues in descending order as a diagonal
    matrix, and the eigenvectors reordered with them. *)
Definition getPCA (matrix : Mat.matrix Np.float64)
  : result (Mat.matrix Np.float64 * Mat.matrix Np.float64) :=
  ' (eVal, eVec) <- eigh matrix ;;
  let indices := rev (argsort eVal) in
  let eVal' := map (fun i => nth i eVal Np.NaN) indices in
  let eVec' := map (fun row => map (fun i => nth i row Np.NaN) indices) eVec in
  Ok (Mat.diagflat (Np.Fin 0) eVal', eVec').

(** The eigenvalues [denoisedCorr] rebuilds the matrix from, lines
    1167-1172: [eVal_] after the assignment to [eVal_[nFacts:]]. *)
Definition denoised_eigenvalues (eVal : Mat.matrix Np.float64) (nFacts : nat)
    (kind : String.string) : list Np.float64 :=
  let eVal_ := Mat.diag Np.NaN eVal in
  let n := length eVal_ in
  if String.eqb kind "fixed" then
    firstn nFacts eVal_
    ++ repeat
         (Np.div (Np.sum (skipn nFacts eVal_))
            (Np.Fin (IZR (Z.of_nat n - Z.of_nat nFacts))))
         (n - nFacts)
  else if String.eqb kind "spectral" then
    firstn nFacts eVal_ ++ repeat (Np.Fin 0) (n - nFacts)
  else eVal_.

(** [np.dot(eVec, eVal).dot(eVec.T)] for a diagonal [eVal] of [k] entries. *)
Definition reconstruct (k : nat) (eVal eVec : Mat.matrix Np.float64)
  : Mat.matrix Np.float64 :=
  dot (length eVec) (dot k eVec eVal) (Mat.transpose Np.NaN k eVec).

(** [denoisedCorr(eVal, eVec, nFacts, kind)]. *)
Definition denoisedCorr (eVal eVec : Mat.matrix Np.float64) (nFacts : nat)
    (kind : String.string) : result (Mat.matrix Np.float64) :=
  let eVal_ := denoised_eigenvalues eVal nFacts kind in
  cov2corr (reconstruct (length eVal_) (Mat.diagflat (Np.Fin 0) eVal_) eVec).

(** [M[:k, :k]], [M[k:, k:]], [M[:, :k]] and [M[:, k:]]. *)
Definition top_left (k : nat) (M : Mat.matrix Np.float64) :=
  map (firstn k) (firstn k M).
Definition bottom_right (k : nat) (M : Mat.matrix Np.float64) :=
  map (skipn k) (skipn k M).
Definition left_columns (k : nat) (M : Mat.matrix Np.float64) :=
  map (firstn k) M.
Definition right_columns (k : nat) (M : Mat.matrix Np.float64) :=
  map (skipn k) M.

(** [shrinkCorr(eVal, eVec, nFacts, alpha)]. *)
Definition shrinkCorr (eVal eVec : Mat.matrix Np.float64) (nFacts : nat)
    (alpha : R) : Mat.matrix Np.float64 :=
  let n := length eVal in
  let corr0 :=
    reconstruct nFacts (top_left nFacts eVal) (left_columns nFacts eVec) in
  let corr1 :=
    reconstruct (n - nFacts) (bottom_right nFacts eVal)
      (right_columns nFacts eVec) in
  let diag1 := Mat.diagflat (Np.Fin 0) (Mat.diag Np.NaN corr1) in
  zip_with Np.add
    (zip_with Np.add corr0 (Mat.map (Np.mul (Np.Fin alpha)) corr1))
    (Mat.map (Np.mul (Np.Fin (1 - alpha))) diag1).

(** The number of factors [denoiseCov] computes, lines 1261-1265. *)
Definition denoiseCov_nFacts (cov : Mat.matrix Np.float64) (q bWidth : R)
  : result (Mat.matrix Np.float64 * Mat.matrix Np.float64 * nat) :=
  corr <- cov2corr cov ;;
  ' (eVal, eVec) <- getPCA corr ;;
  ' (eMax, var) <- findMaxEval (Mat.diag Np.NaN eVal) q bWidth ;;
  let nFacts :=
    (Mat.shape0 eVal - searchsorted (rev (Mat.diag Np.NaN eVal)) eMax)%nat in
  Ok (eVal, eVec, nFacts).

(** [denoiseCov(cov, q, kind, bWidth, detone, mkt_comp, alpha)]. *)
Definition denoiseCov (cov : Mat.matrix Np.float64) (q : R)
    (kind : String.string) (bWidth : R) (detone : bool) (mkt_comp : nat)
    (alpha : R) : result (Mat.matrix Np.float64) :=
  corr <- cov2corr cov ;;
  let std := map Np.pow_half (Mat.diag Np.NaN cov) in
  ' (eVal, eVec, nFacts) <- denoiseCov_nFacts cov q bWidth ;;
  corr1 <-
    (if str_in kind ["fixed"; "spectral"] then denoisedCorr eVal eVec nFacts kind
     else if String.eqb kind "shrink" then Ok (shrinkCorr eVal eVec nFacts alpha)
     else Ok corr) ;;
  let corr2 :=
    if detone then
      zip_with Np.sub corr1
        (reconstruct mkt_comp (top_left mkt_comp eVal)
           (left_columns mkt_comp eVec))
    else corr1 in
  Ok (corr2cov corr2 std).

End Denoising.

(** Kernels for a run on a diagonal matrix with an ascending diagonal: the
    eigenvalues of such a matrix are its diagonal and its eigenvectors the
    columns of the identity.  The optimiser is a stand-in that reports
    success at [var = 1/4], a point inside its bounds; what SciPy's
    optimiser returns on an input is not modelled, and no statement about
    the code rests on this value. *)
#[global] Instance diagonal_kernels : SpectralKernels := {
  eigh := fun M =>
    Ok (Mat.diag Np.NaN M,
        Mat.diagflat (Np.Fin 0) (repeat (Np.Fin 1) (length M)));
  minimize := fun _ _ _ => Ok {| success := true; x0 := Np.Fin (1 / 4) |};
  kde_score_samples := fun _ _ _ x => map (fun _ => Np.Fin 0) x
}.

(** ** Cluster-count selection: [two_diff_gap_stat] and
    [std_silhouette_score] *)

(** The clustering kernels of SciPy and scikit-learn.  A linkage matrix is
    the list of its rows. *)
Class ClusterKernels : Type := {
  (** [hr.is_monotonic(Z)], which validates [Z] first *)
  is_monotonic : Mat.matrix Np.float64 -> result bool;
  (** [hr.cut_tree(Z)]: one row per observation, one column per level *)
  cut_tree : Mat.matrix Np.float64 -> result (Mat.matrix Z);
  (** [hr.fcluster(Z, t, criterion="maxclust")] *)
  fcluster : Mat.matrix Np.float64 -> Z -> list Z;
  (** [silhouette_samples(dist, labels)] *)
  silhouette_samples :
    Mat.matrix Np.float64 -> list Z -> result (list Np.float64)
}.

(** [np.unique(l)]: the distinct values in ascending order. *)
Fixpoint insert_unique (v : Z) (l : list Z) : list Z :=
  match l with
  | [] => [v]
  | u :: t =>
      if (v <? u)%Z then v :: l
      else if (v =? u)%Z then l
      else u :: insert_unique v t
  end.

Definition np_unique (l : list Z) : list Z := fold_right insert_unique [] l.

(** The position of [v] in [l]. *)
Fixpoint index_of (v : Z) (l : list Z) : nat :=
  match l with
  | [] => 0
  | u :: t => if (v =? u)%Z then 0 else S (index_of v t)
  end.

(** [np.unique(l, return_inverse=True)[1]]: every value replaced by its
    rank among the distinct values. *)
Definition unique_inverse (l : list Z) : list Z :=
  map (fun v => Z.of_nat (index_of v (np_unique l))) l.

(** [len(np.unique(l))], also [Series.nunique]. *)
Definition nunique (l : list Z) : Z := Z.of_nat (length (np_unique l)).

(** The frame [cluster_lvls]: its columns with their labels, in order. *)
Definition frame : Type := list (nat * list Z).

(** [frame.T.drop_duplicates().T]: a column equal to an earlier one is
    dropped. *)
Fixpoint drop_duplicates (seen : list (list Z)) (f : frame) : frame :=
  match f with
  | [] => []
  | (label, column) :: t =>
      if existsb (fun c => if list_eq_dec Z.eq_dec c column then true else false)
           seen
      then drop_duplicates seen t
      else (label, column) :: drop_duplicates (column :: seen) t
  end.

(** [np.mean] and [np.std] of a 1-d array. *)
Definition np_mean (l : list Np.float64) : Np.float64 :=
  Np.div (Np.sum l) (Np.of_nat (length l)).

Definition np_std (l : list Np.float64) : Np.float64 :=
  let mu := np_mean l in
  Np.sqrt (np_mean (map (fun x => Np.square (Np.abs (Np.sub x mu))) l)).

(** [squareform(M, checks=False)] of a square array: the entries above the
    diagonal, row by row. *)
Definition squareform (M : Mat.matrix Np.float64) : list Np.float64 :=
  let d := length M in
  flat_map (fun i => map (fun j => Mat.get Np.NaN M i j) (seq (S i) (d - S i)))
    (seq 0 d).

(** [dist.loc[members, members]] for positions [members]. *)
Definition sub_matrix (dist : Mat.matrix Np.float64) (members : list nat)
  : Mat.matrix Np.float64 :=
  map (fun i => map (fun j => Mat.get Np.NaN dist i j) members) members.

(** The positions at which [level] has the label [i]. *)
Definition members_of (level : list Z) (i : Z) : list nat :=
  filter (fun p => Z.eqb (nth p level (-1)%Z) i) (seq 0 (length level)).

(** [s.shift(-d)] at position [i]: the entry [d] places further, NaN past
    the end. *)
Definition shifted (s : list Np.float64) (d i : nat) : Np.float64 :=
  nth (i + d) s Np.NaN.

(** [int(s.idxmax())]: the first position of the largest entry that is not
    NaN; it fails when there is none. *)
Fixpoint idxmax_from (s : list Np.float64) (i : nat)
    (best : option (nat * Np.float64)) : option (nat * Np.float64) :=
  match s with
  | [] => best
  | x :: t =>
      let best' :=
        match x, best with
        | Np.NaN, _ => best
        | _, None => Some (i, x)
        | _, Some (_, b) => if Np.ltb b x then Some (i, x) else best
        end in
      idxmax_from t (S i) best'
  end.

Definition idxmax (s : list Np.float64) : result nat :=
  match idxmax_from s 0 None with
  | Some (i, _) => Ok i
  | None => Raise ValueError
  end.

Section ClusterCount.

Context {C : ClusterKernels}.

(** Lines 704-720 and 792-808: the monotonicity flag and the frame of
    cluster levels, the first level being the single cluster.  The frame is
    built with [index=dist.columns], which pandas accepts only when there
    are as many labels as rows. *)
Definition cluster_levels (dist clustering : Mat.matrix Np.float64)
  : result (bool * frame) :=
  flag <- is_monotonic clustering ;;
  tree <- cut_tree clustering ;;
  if negb (length tree =? Mat.shape1 dist)%nat then Raise ValueError
  else
    let c := Mat.shape1 tree in
    let columns := map (Mat.col 0%Z tree) (seq 0 c) in
    let reversed := combine (seq 0 c) (rev columns) in
    let relabelled :=
      if flag then reversed
      else map (fun lc => (fst lc, unique_inverse (snd lc))) reversed in
    Ok (flag, drop_duplicates [] relabelled).

(** The column of the first level with [k] clusters:
    [cluster_lvls[level_k[cluster_k.index(k)]]]. *)
Definition level_with (levels : frame) (k : Z) : list Z :=
  match find (fun lc => Z.eqb (nunique (snd lc)) k) levels with
  | Some lc => snd lc
  | None => []
  end.

(** The within-cluster dissimilarity [W_k] of a level, lines 731-743. *)
Definition within_dissimilarity (dist : Mat.matrix Np.float64)
    (level : list Z) : result Np.float64 :=
  top <- match np_unique level with
         | [] => Raise ValueError
         | u :: t => Ok (fold_left Z.max t u)
         end ;;
  let D_list :=
    flat_map
      (fun i =>
         let cluster_pdist :=
           squareform (sub_matrix dist (members_of level (Z.of_nat i))) in
         match cluster_pdist with
         | [] => []
         | _ => [Np.nan_to_num (np_std cluster_pdist)]
         end)
      (seq 0 (Z.to_nat (top + 1))) in
  Ok (Np.sum D_list).

(** The loop over [cluster_k] with its [break]: [bound] is
    [min(max_k, np.sqrt(n)) + 2] for the gap statistic and
    [min(max_k, np.sqrt(n))] for the silhouette score. *)
Fixpoint statistics (score : list Z -> result Np.float64) (levels : frame)
    (bound : R) (cluster_k : list Z) : result (list Np.float64) :=
  match cluster_k with
  | [] => Ok []
  | k :: rest =>
      if (k =? 1)%Z then
        tail <- statistics score levels bound rest ;;
        Ok (Np.NInf :: tail)
      else if Rlt_dec bound (IZR k) then Ok []
      else
        s <- score (level_with levels k) ;;
        tail <- statistics score levels bound rest ;;
        Ok (s :: tail)
  end.

(** [min(max_k, np.sqrt(n))]. *)
Definition k_bound (max_k : Z) (n : nat) : R :=
  if Rlt_dec (sqrt (INR n)) (IZR max_k) then sqrt (INR n) else IZR max_k.

(** [W_list.shift(-2) + W_list - 2 * W_list.shift(-1)]. *)
Definition second_differences (W : list Np.float64) : list Np.float64 :=
  map (fun i =>
         Np.sub (Np.add (shifted W 2 i) (shifted W 0 i))
           (Np.mul (Np.Fin 2) (shifted W 1 i)))
    (seq 0 (length W)).

(** The re-derivation of the flat clusters for a linkage that is not
    monotonic, lines 755-760 and 830-835, as the state [(k, j,
    clustering_inds)] at the loop test; [None] when the loop is still
    running after [fuel] iterations. *)
Fixpoint rederive_loop (fuel : nat) (clustering : Mat.matrix Np.float64)
    (k j : Z) (clustering_inds : list Z) : option (Z * list Z) :=
  if (k =? j)%Z then Some (k, clustering_inds)
  else
    match fuel with
    | O => None
    | S fuel' =>
        let j' := (j + 1)%Z in
        let inds' := fcluster clustering j' in
        rederive_loop fuel' clustering (nunique inds') j' inds'
    end.

Definition rederive (fuel : nat) (clustering : Mat.matrix Np.float64) (k : Z)
  : option (Z * list Z) :=
  let clustering_inds := fcluster clustering k in
  let j := nunique clustering_inds in
  match rederive_loop fuel clustering k j clustering_inds with
  | Some (k', inds) => Some (k', unique_inverse inds)
  | None => None
  end.

(** The end of both functions, lines 748-764 and 824-839: the choice of the
    level and the flat clusters returned. *)
Definition choose_level (fuel : nat) (clustering : Mat.matrix Np.float64)
    (flag : bool) (levels : frame) (stat : list Np.float64)
  : option (result (Z * list Z)) :=
  match idxmax stat with
  | Raise e => Some (Raise e)
  | Ok k_index =>
      match nth_error levels k_index with
      | None => Some (Raise IndexError)
      | Some (node_k, column) =>
          let k := nunique column in
          if flag then Some (Ok (k, column))
          else option_map Ok (rederive fuel clustering k)
      end
  end.

(** [two_diff_gap_stat(dist, clustering, max_k)], run for at most [fuel]
    iterations of its [while] loop. *)
Definition two_diff_gap_stat (fuel : nat)
    (dist clustering : Mat.matrix Np.float64) (max_k : Z)
  : option (result (Z * list Z)) :=
  match cluster_levels dist clustering with
  | Raise e => Some (Raise e)
  | Ok (flag, levels) =>
      let cluster_k := map (fun lc => nunique (snd lc)) levels in
      let n := Mat.shape0 dist in
      match statistics (within_dissimilarity dist) levels
              (k_bound max_k n + 2) cluster_k with
      | Raise e => Some (Raise e)
      | Ok W_list =>
          choose_level fuel clustering flag levels (second_differences W_list)
      end
  end.

(** [b.mean() / b.std()] of the silhouette samples of a level. *)
Definition silhouette_score (dist : Mat.matrix Np.float64) (level : list Z)
  : result Np.float64 :=
  b <- silhouette_samples dist level ;;
  Ok (Np.div (np_mean b) (np_std b)).

(** [std_silhouette_score(dist, clustering, max_k)], run for at most [fuel]
    iterations of its [while] loop. *)
Definition std_silhouette_score (fuel : nat)
    (dist clustering : Mat.matrix Np.float64) (max_k : Z)
  : option (result (Z * list Z)) :=
  match cluster_levels dist clustering with
  | Raise e => Some (Raise e)
  | Ok (flag, levels) =>
      let cluster_k := map (fun lc => nunique (snd lc)) levels in
      let n := Mat.shape0 dist in
      match statistics (silhouette_score dist) levels (k_bound max_k n)
              cluster_k with
      | Raise e => Some (Raise e)
      | Ok scores_list => choose_level fuel clustering flag levels scores_list
      end
  end.

(** What SciPy's validation of a linkage is assumed to do on [clustering]:
    an empty linkage is rejected with [ValueError], no other exception is
    raised on an array of floats, and a linkage that is accepted cuts into
    one more observation than it has rows. *)
Definition linkage_contract (clustering : Mat.matrix Np.float64) : Prop :=
  (clustering = [] -> is_monotonic clustering = Raise ValueError)
  /\ (forall e : exn, is_monotonic clustering = Raise e -> e = ValueError)
  /\ (forall b : bool, is_monotonic clustering = Ok b ->
        exists tree : Mat.matrix Z,
          cut_tree clustering = Ok tree
          /\ length tree = Datatypes.S (length clustering)).

End ClusterCount.

(** Whether consecutive merge distances never decrease. *)
Fixpoint nondecreasing (d : list Np.float64) : bool :=
  match d with
  | a :: (b :: _) as t => Np.leb a b && nondecreasing t
  | _ => true
  end.

(** Kernels for the runs on a chain of four observations at distance zero
    from each other.  [is_monotonic] rejects an empty linkage and otherwise
    compares consecutive merge distances (the third column); [cut_tree] is
    the cut of a chain with increasing merge distances, in which observation
    [i] joins the cluster of the observations before it at level [i]; the
    maximum-cluster-count cut is that of a chain whose first merge is its
    largest, a single cluster at every target count; and every silhouette
    sample is 0, the rows of the distance matrix being equal. *)
#[global] Instance chain_kernels : ClusterKernels := {
  is_monotonic := fun Z =>
    match Z with
    | [] => Raise ValueError
    | _ => Ok (nondecreasing (Mat.col Np.NaN Z 2))
    end;
  cut_tree := fun Z =>
    let n := Datatypes.S (length Z) in
    Ok (map (fun i => map (fun j => Z.max 0 (Z.of_nat i - Z.of_nat j)) (seq 0 n))
          (seq 0 n));
  fcluster := fun Z _ => repeat 1%Z (Datatypes.S (length Z));
  silhouette_samples := fun _ labels => Ok (map (fun _ => Np.Fin 0) labels)
}.

(** A linkage of four observations whose merge distances decrease, and the
    distance matrix of four assets at distance zero from each other. *)
Definition inverted_chain : Mat.matrix Np.float64 :=
  [[Np.Fin 0; Np.Fin 1; Np.Fin 1; Np.Fin 2];
   [Np.Fin 2; Np.Fin 4; Np.Fin (9 / 10); Np.Fin 3];
   [Np.Fin 3; Np.Fin 5; Np.Fin (8 / 10); Np.Fin 4]].

Definition zero_distances : Mat.matrix Np.float64 :=
  Mat.full 4 4 (Np.Fin 0).

(** The frame of cluster levels of the chain of four observations: level
    [i] has [i + 1] clusters. *)
Definition chain_frame : frame :=
  [(0%nat, [0; 0; 0; 0]%Z); (1%nat, [0; 0; 0; 1]%Z);
   (2%nat, [0; 0; 1; 2]%Z); (3%nat, [0; 1; 2; 3]%Z)].

(** Kernels that differ from [chain_kernels] in the maximum-cluster-count
    cut only: a cut that cannot separate two clusters, and realises the
    target count (capped by the number of observations) from three on. *)
Definition skipping_kernels : ClusterKernels := {|
  is_monotonic := is_monotonic (ClusterKernels := chain_kernels);
  cut_tree := cut_tree (ClusterKernels := chain_kernels);
  fcluster := fun Z t =>
    let n := Datatypes.S (length Z) in
    if (t <? 3)%Z then repeat 1%Z n
    else map (fun i => Z.min (Z.of_nat i + 1) t) (seq 0 n);
  silhouette_samples := silhouette_samples (ClusterKernels := chain_kernels)
|}.

(** A linkage of six observations that is not monotonic: the observations
    0 and 1 merge at distance 1, and the observations 2, 3, 4 and 5 then
    join that cluster one after the other at the distances 0.5, 0.6, 0.7
    and 0.8.  The merge at distance 1 lies below every other merge. *)
Definition inverted_caterpillar : Mat.matrix Np.float64 :=
  [[Np.Fin 0; Np.Fin 1; Np.Fin 1; Np.Fin 2];
   [Np.Fin 2; Np.Fin 6; Np.Fin (1 / 2); Np.Fin 3];
   [Np.Fin 3; Np.Fin 7; Np.Fin (3 / 5); Np.Fin 4];
   [Np.Fin 4; Np.Fin 8; Np.Fin (7 / 10); Np.Fin 5];
   [Np.Fin 5; Np.Fin 9; Np.Fin (4 / 5); Np.Fin 6]].

(** The distances of six assets: the first five at distance 0 from each
    other, the sixth at distance 1 from each of them. *)
Definition far_sixth : Mat.matrix Np.float64 :=
  [[Np.Fin 0; Np.Fin 0; Np.Fin 0; Np.Fin 0; Np.Fin 0; Np.Fin 1];
   [Np.Fin 0; Np.Fin 0; Np.Fin 0; Np.Fin 0; Np.Fin 0; Np.Fin 1];
   [Np.Fin 0; Np.Fin 0; Np.Fin 0; Np.Fin 0; Np.Fin 0; Np.Fin 1];
   [Np.Fin 0; Np.Fin 0; Np.Fin 0; Np.Fin 0; Np.Fin 0; Np.Fin 1];
   [Np.Fin 0; Np.Fin 0; Np.Fin 0; Np.Fin 0; Np.Fin 0; Np.Fin 1];
   [Np.Fin 1; Np.Fin 1; Np.Fin 1; Np.Fin 1; Np.Fin 1; Np.Fin 0]].

(** What SciPy and scikit-learn compute on [inverted_caterpillar] and
    [far_sixth].

    [hr.is_monotonic] compares consecutive merge distances.

    [hr.cut_tree] goes through the merges by increasing distance, here the
    rows 1, 2, 3, 4 and then 0.  A merge gives every observation below it
    the smallest label among them and lowers by one the labels above the
    largest of them.  The merge of row 1 so joins the observations 0, 1 and
    2 at once, and the levels are [0 1 2 3 4 5], [0 0 0 2 3 4],
    [0 0 0 0 2 3], [0 0 0 0 0 2] and twice the zeros; row [i] of the result
    holds the labels of observation [i].

    [hr.fcluster] with ["maxclust"] takes its threshold among the largest
    merge distances found below each merge.  The merge at distance 1 is
    below every merge, so the threshold is 1 whatever the target count and
    nothing is cut: every observation is in cluster 1.

    [silhouette_samples] takes the rows of [dist] as points.  Where the
    rows of a cluster coincide and differ from the rows of the other
    cluster the sample is 1, and it is 0 for the only member of a
    cluster. *)
Definition caterpillar_kernels : ClusterKernels := {|
  is_monotonic := fun Z =>
    match Z with
    | [] => Raise ValueError
    | _ => Ok (nondecreasing (Mat.col Np.NaN Z 2))
    end;
  cut_tree := fun _ =>
    Ok [[0; 0; 0; 0; 0; 0]; [1; 0; 0; 0; 0; 0]; [2; 0; 0; 0; 0; 0];
        [3; 2; 0; 0; 0; 0]; [4; 3; 2; 0; 0; 0]; [5; 4; 3; 2; 0; 0]]%Z;
  fcluster := fun Z _ => repeat 1%Z (Datatypes.S (length Z));
  silhouette_samples := fun _ labels =>
    Ok (map (fun l =>
               if (count_occ Z.eq_dec labels l =? 1)%nat then Np.Fin 0
               else Np.Fin 1)
          labels)
|}.

(** The frame of cluster levels of [inverted_caterpillar]: the levels with
    1, 2, 3, 4 and 6 clusters, under the labels the columns keep. *)
Definition caterpillar_frame : frame :=
  [(0%nat, [0; 0; 0; 0; 0; 0]%Z); (2%nat, [0; 0; 0; 0; 0; 1]%Z);
   (3%nat, [0; 0; 0; 0; 1; 2]%Z); (4%nat, [0; 0; 0; 1; 2; 3]%Z);
   (5%nat, [0; 1; 2; 3; 4; 5]%Z)].

(** ** [block_vec_pq] *)

(** The argument [A] of [block_vec_pq]: a [DataFrame], an [ndarray], or a
    value of another type. *)
Inductive array_arg : Type :=
| Frame (M : Mat.matrix Np.float64)
| Ndarray (M : Mat.matrix Np.float64)
| NotAnArray.

(** [B.reshape(-1, 1, order="F").T] for a block [B] with [q] columns: the
    one row that lists [B] column after column. *)
Definition vec_F (q : nat) (B : Mat.matrix Np.float64) : list Np.float64 :=
  flat_map (fun c => Mat.col Np.NaN B c) (seq 0 q).

(** [A_[i * p : (i + 1) * p, j * q : (j + 1) * q]]. *)
Definition block (A_ : Mat.matrix Np.float64) (p q i j : nat)
  : Mat.matrix Np.float64 :=
  map (fun row => firstn q (skipn (j * q) row)) (firstn p (skipn (i * p) A_)).

(** The test [mp % p == 0 and nq % q == 0]: [%] raises on a zero divisor,
    and [and] does not evaluate its second operand when the first is
    false. *)
Definition divides_both (mp nq p q : Z) : result bool :=
  if (p =? 0)%Z then Raise ZeroDivisionError
  else if negb (mp mod p =? 0)%Z then Ok false
  else if (q =? 0)%Z then Raise ZeroDivisionError
  else Ok (nq mod q =? 0)%Z.

(** [block_vec_pq(A, p, q)].  [np.empty((0, p * q))] rejects a negative
    dimension; [range] of a negative number is empty. *)
Definition block_vec_pq (A : array_arg) (p q : Z)
  : result (Mat.matrix Np.float64) :=
  match A with
  | NotAnArray => Raise ValueError
  | Frame A_ | Ndarray A_ =>
      let mp := Z.of_nat (Mat.shape0 A_) in
      let nq := Z.of_nat (Mat.shape1 A_) in
      ok <- divides_both mp nq p q ;;
      if ok then
        let m := Z.to_nat (mp / p) in
        let n := Z.to_nat (nq / q) in
        if (p * q <? 0)%Z then Raise ValueError
        else
          Ok (flat_map
                (fun j =>
                   map (fun i =>
                          vec_F (Z.to_nat q)
                            (block A_ (Z.to_nat p) (Z.to_nat q) i j))
                     (seq 0 m))
                (seq 0 n))
      else Raise ValueError
  end.

(** ** [round_values] *)

(** [np.floor a]. *)
Definition np_floor (a : Np.float64) : Np.float64 :=
  match a with
  | Np.Fin x => Np.Fin (IZR (Zfloor x))
  | _ => a
  end.

(** [10**decimals] as a float. *)
Definition ten_to (decimals : Z) : Np.float64 := Np.Fin (powerRZ 10 decimals).

(** One entry of the two [np.where] of [round_values]: away from zero and
    toward zero.  The product with [10**decimals] and the quotient are the
    exact ones: NumPy rounds each to float64, so its result can differ from
    this one by the last place, and by a whole step of [10**-decimals] when
    the rounded product falls on the other side of an integer. *)
Definition round_away (decimals : Z) (x : Np.float64) : Np.float64 :=
  if Np.leb (Np.Fin 0) x
  then Np.div (Np.ceil (Np.mul x (ten_to decimals))) (ten_to decimals)
  else Np.div (np_floor (Np.mul x (ten_to decimals))) (ten_to decimals).

Definition round_toward (decimals : Z) (x : Np.float64) : Np.float64 :=
  if Np.leb (Np.Fin 0) x
  then Np.div (np_floor (Np.mul x (ten_to decimals))) (ten_to decimals)
  else Np.div (Np.ceil (Np.mul x (ten_to decimals))) (ten_to decimals).

(** [round_values(data, decimals, wider)] on a 2-d array.  [wider] is a
    Python [bool] or number, given by its value ([True] is 1 and [False] is
    0): when it equals neither, no branch assigns [value] and [return value]
    raises. *)
Definition round_values (data : Mat.matrix Np.float64) (decimals : Z)
    (wider : Z) : result (Mat.matrix Np.float64) :=
  if (wider =? 1)%Z then Ok (Mat.map (round_away decimals) data)
  else if (wider =? 0)%Z then Ok (Mat.map (round_toward decimals) data)
  else Raise UnboundLocalError.

(** ** [color_list] *)

Section ColorList.

(** The colours of matplotlib's qualitative colormaps ["tab10"], ["tab20"],
    ["tab20b"] and ["tab20c"], and [mpl.colors.rgb2hex]. *)
Variables (rgb hex : Type).
Variable rgb2hex : rgb -> hex.
Variables tab10 tab20 tab20b tab20c : list rgb.

(** [rgb2hex(cmap.colors[i])] for [i] in [range(count)], appended in order. *)
Definition cmap_colors (cmap : list rgb) (count : nat) : result (list hex) :=
  mapM (fun i =>
          match nth_error cmap i with
          | Some c => Ok (rgb2hex c)
          | None => Raise IndexError
          end)
    (seq 0 count).

(** [colors * n] on lists. *)
Fixpoint list_times {A : Type} (l : list A) (n : nat) : list A :=
  match n with
  | O => []
  | S n' => l ++ list_times l n'
  end.

(** [color_list(k)] for an integer [k]. *)
Definition color_list (k : Z) : result (list hex) :=
  if (k <=? 10)%Z then cmap_colors tab10 10
  else if (k <=? 20)%Z then cmap_colors tab20 20
  else if (k <=? 40)%Z then
    a <- cmap_colors tab20 20 ;;
    b <- cmap_colors tab20b 20 ;;
    Ok (a ++ b)
  else
    a <- cmap_colors tab20 20 ;;
    b <- cmap_colors tab20b 20 ;;
    c <- cmap_colors tab20c 20 ;;
    let colors := a ++ b ++ c in
    if Rlt_dec 1 (IZR k / 60)
    then Ok (list_times colors (Z.to_nat (Zceil (IZR k / 60))))
    else Ok colors.

End ColorList.

(** ** The kinds of [codep_dist] whose distance is a square root *)

Definition root_kinds : list String.string :=
  ["pearson"; "spearman"; "kendall"; "gerber1"; "gerber2"; "abs_pearson";
   "abs_spearman"; "abs_kendall"; "distance"; "custom_cov"]%string.

(** The formula of the kind: [sqrt(clip(1 - c, 0, 1))] for the absolute and
    the distance correlations, [sqrt(clip((1 - c) / 2, 0, 1))] for the
    others. *)
Definition root_distance (kind : String.string) : Np.float64 -> Np.float64 :=
  if str_in kind ["abs_pearson"; "abs_spearman"; "abs_kendall"; "distance"]%string
  then dist_one else dist_half.

(** ** A monotonic linkage *)

(** The chain linkage of four observations with merge distances 1, 2
    and 3. *)
Definition rising_chain : Mat.matrix Np.float64 :=
  [[Np.Fin 0; Np.Fin 1; Np.Fin 1; Np.Fin 2];
   [Np.Fin 2; Np.Fin 4; Np.Fin 2; Np.Fin 3];
   [Np.Fin 3; Np.Fin 5; Np.Fin 3; Np.Fin 4]].

(** * Properties *)

(** ** Rounding and casting *)

Section Rounding.

Open Scope R_scope.

Lemma rint_bounds (x : R) : x - / 2 <= IZR (Np.rint x) <= x + / 2.
Proof.
  unfold Np.rint.
  pose proof (Zfloor_bound x) as [Hlo Hhi].
  destruct (Rcompare_spec (x - IZR (Zfloor x)) (/ 2)) as [He | Hl | Hg].
  - destruct (Z.even (Zfloor x)); [| rewrite plus_IZR]; lra.
  - lra.
  - rewrite plus_IZR; lra.
Qed.

Lemma rint_near (x : R) (k : Z) :
  IZR k - / 2 < x < IZR k + / 2 -> Np.rint x = k.
Proof.
  intros [Hlo Hhi].
  pose proof (rint_bounds x) as [Ha Hb].
  assert (H1 : IZR (Np.rint x) < IZR k + 1) by lra.
  assert (H2 : IZR k - 1 < IZR (Np.rint x)) by lra.
  rewrite <- plus_IZR in H1. rewrite <- minus_IZR in H2.
  apply lt_IZR in H1. apply lt_IZR in H2. lia.
Qed.

Lemma rint_IZR (k : Z) : Np.rint (IZR k) = k.
Proof. apply rint_near; lra. Qed.

Lemma rint_mono (x y : R) : x <= y -> (Np.rint x <= Np.rint y)%Z.
Proof.
  intros Hxy.
  pose proof (Zfloor_le _ _ Hxy) as Hf.
  pose proof (Zfloor_bound x) as [Hxl Hxh].
  pose proof (Zfloor_bound y) as [Hyl Hyh].
  destruct (Z.eq_dec (Zfloor x) (Zfloor y)) as [Heq | Hne].
  - unfold Np.rint. rewrite <- Heq.
    destruct (Rcompare_spec (x - IZR (Zfloor x)) (/ 2));
      destruct (Rcompare_spec (y - IZR (Zfloor x)) (/ 2));
      destruct (Z.even (Zfloor x)); try lia; lra.
  - assert (Hlt : (Zfloor x + 1 <= Zfloor y)%Z) by lia.
    assert (Hx : (Np.rint x <= Zfloor x + 1)%Z).
    { unfold Np.rint.
      destruct (Rcompare (x - IZR (Zfloor x)) (/ 2));
        destruct (Z.even (Zfloor x)); lia. }
    assert (Hy : (Zfloor y <= Np.rint y)%Z).
    { unfold Np.rint.
      destruct (Rcompare (y - IZR (Zfloor y)) (/ 2));
        destruct (Z.even (Zfloor y)); lia. }
    lia.
Qed.

Lemma trunc_IZR (k : Z) : Np.trunc (IZR k) = k.
Proof.
  unfold Np.trunc. destruct (Rlt_dec (IZR k) 0).
  - unfold Zceil. rewrite ZfloorNZ. lia.
  - apply ZfloorZ.
Qed.

Lemma int32_of_IZR (inv : Np.float64 -> Z) (k : Z) :
  (Np.int32_min <= k <= Np.int32_max)%Z ->
  Np.int32 inv (Np.Fin (IZR k)) = k.
Proof.
  intros [Hlo Hhi]. unfold Np.int32.
  apply IZR_le in Hlo, Hhi.
  destruct (Rlt_dec (IZR Np.int32_min - 1) (IZR k)); [| lra].
  destruct (Rlt_dec (IZR k) (IZR Np.int32_max + 1)); [| lra].
  apply trunc_IZR.
Qed.

End Rounding.

(** ** [numBins] *)

Section NumBinsFacts.

Context {P : Platform}.

Open Scope R_scope.

Lemma py_pow_half (x : R) : 0 <= x -> py_pow x (/ 2) = sqrt x.
Proof.
  intros Hx. unfold py_pow. destruct (Req_dec_T x 0) as [-> | Hne].
  - now rewrite sqrt_0.
  - apply Rpower_sqrt. lra.
Qed.

Lemma Rpower_third_cube (a : R) : 0 < a -> Rpower a (1 / 3) ^ 3 = a.
Proof.
  intros Ha.
  rewrite <- (Rpower_pow 3) by apply exp_pos.
  rewrite Rpower_mult.
  replace (1 / 3 * INR 3) with 1 by (simpl; field).
  now apply Rpower_1.
Qed.

(** The radicand of the cube root, for a sample count that is not negative. *)
Lemma numBins_radicand (k : Z) :
  (0 <= k)%Z ->
  let n := IZR k in
  let s := sqrt (36 * n + 729 * n ^ 2) in
  0 <= s /\ s * s = 36 * n + 729 * n ^ 2 /\ 8 <= 8 + 324 * n + 12 * s.
Proof.
  intros Hk n s. apply IZR_le in Hk. fold n in Hk.
  assert (Hr : 0 <= 36 * n + 729 * n ^ 2) by nra.
  assert (Hs : 0 <= s) by apply sqrt_pos.
  repeat split; [assumption | now apply sqrt_sqrt | nra].
Qed.

Lemma numBins_z_spec (k : Z) :
  (0 <= k)%Z ->
  let n := IZR k in
  let z := numBins_z k in
  0 < z /\ z ^ 3 = 8 + 324 * n + 12 * sqrt (36 * n + 729 * n ^ 2).
Proof.
  intros Hk n z.
  destruct (numBins_radicand Hk) as (Hs & Hss & Ha). fold n in Hs, Hss, Ha.
  assert (Hr : 0 <= 36 * n + 729 * n ^ 2) by (rewrite <- Hss; nra).
  assert (Hz : z = Rpower (8 + 324 * n + 12 * sqrt (36 * n + 729 * n ^ 2)) (1 / 3)).
  { unfold z, numBins_z. fold n. rewrite (py_pow_half Hr).
    unfold py_pow. destruct (Req_dec_T _ 0) as [H0 | _]; [lra | reflexivity]. }
  rewrite Hz.
  split; [apply exp_pos | apply Rpower_third_cube; lra].
Qed.

(** The value before rounding is the root, at least 1, of [b^3 - b^2 = 3 n]. *)
Lemma numBins_b_cubic (k : Z) :
  (0 <= k)%Z ->
  let b := numBins_b k in
  1 <= b /\ b ^ 3 - b ^ 2 = 3 * IZR k.
Proof.
  intros Hk b.
  destruct (numBins_z_spec Hk) as (Hz & Hz3).
  destruct (numBins_radicand Hk) as (Hs & Hss & Ha).
  set (n := IZR k) in *. set (z := numBins_z k) in *.
  set (s := sqrt (36 * n + 729 * n ^ 2)) in *.
  assert (Hb : b = z / 6 + 2 / (3 * z) + 1 / 3) by reflexivity.
  set (w := / z).
  assert (Hzw : z * w = 1) by (unfold w; field; lra).
  assert (Hw : 0 < w) by (unfold w; now apply Rinv_0_lt_compat).
  assert (Hb' : b = z / 6 + 2 / 3 * w + 1 / 3) by (rewrite Hb; unfold w; field; lra).
  assert (Hw3 : 64 * w ^ 3 = 8 + 324 * n - 12 * s).
  { assert (Hp : (8 + 324 * n + 12 * s) * (8 + 324 * n - 12 * s) = 64).
    { replace ((8 + 324 * n + 12 * s) * (8 + 324 * n - 12 * s))
        with ((8 + 324 * n) ^ 2 - 144 * (s * s)) by ring.
      rewrite Hss. ring. }
    assert (Hone : z ^ 3 * w ^ 3 = 1).
    { replace (z ^ 3 * w ^ 3) with ((z * w) ^ 3) by ring. rewrite Hzw. ring. }
    rewrite Hz3 in Hone.
    replace (64 * w ^ 3) with
      ((8 + 324 * n + 12 * s) * (8 + 324 * n - 12 * s) * w ^ 3)
      by (rewrite Hp; ring).
    replace ((8 + 324 * n + 12 * s) * (8 + 324 * n - 12 * s) * w ^ 3) with
      ((8 + 324 * n + 12 * s) * w ^ 3 * (8 + 324 * n - 12 * s)) by ring.
    rewrite Hone. ring. }
  split.
  - rewrite Hb'.
    assert (Hsq : 0 <= (z - 2) ^ 2 * w).
    { apply Rmult_le_pos; [apply pow2_ge_0 | lra]. }
    replace ((z - 2) ^ 2 * w) with (z * (z * w) - 4 * (z * w) + 4 * w) in Hsq by ring.
    rewrite Hzw in Hsq. lra.
  - rewrite Hb'.
    replace ((z / 6 + 2 / 3 * w + 1 / 3) ^ 3 - (z / 6 + 2 / 3 * w + 1 / 3) ^ 2)
      with (z ^ 3 / 216 + 8 / 27 * w ^ 3 - 2 / 27
            + (z * w - 1) * (z / 6 + 2 / 3 * w) / 3)
      by field.
    rewrite Hz3, Hzw. lra.
Qed.

Lemma cubic_lt (a b : R) :
  1 <= a -> 1 <= b -> a ^ 3 - a ^ 2 < b ^ 3 - b ^ 2 -> a < b.
Proof.
  intros Ha Hb H.
  destruct (Rlt_le_dec a b) as [Hlt | Hge]; [assumption | exfalso].
  assert (Hd : 0 <= (a - b) * (a * a + a * b + b * b - a - b)).
  { apply Rmult_le_pos; nra. }
  nra.
Qed.

Lemma cubic_le (a b : R) :
  1 <= a -> 1 <= b -> a ^ 3 - a ^ 2 <= b ^ 3 - b ^ 2 -> a <= b.
Proof.
  intros Ha Hb H.
  destruct (Rle_lt_dec a b) as [Hle | Hgt]; [assumption | exfalso].
  assert (Hd : 0 < (a - b) * (a * a + a * b + b * b - a - b)).
  { apply Rmult_lt_0_compat; nra. }
  nra.
Qed.

Lemma numBins_b_mono (k k' : Z) :
  (0 <= k <= k')%Z -> numBins_b k <= numBins_b k'.
Proof.
  intros [H0 Hkk].
  destruct (numBins_b_cubic H0) as [H1 Hc].
  assert (H0' : (0 <= k')%Z) by lia.
  destruct (numBins_b_cubic H0') as [H1' Hc'].
  apply cubic_le; try assumption.
  rewrite Hc, Hc'. apply IZR_le in Hkk. lra.
Qed.

Lemma numBins_b_upper (k : Z) :
  (0 <= k < 2 ^ 63)%Z -> numBins_b k < 4194304.
Proof.
  intros [H0 Hk].
  destruct (numBins_b_cubic H0) as [H1 Hc].
  apply cubic_lt; [assumption | lra |].
  rewrite Hc. apply IZR_lt in Hk.
  change (2 ^ 63)%Z with 9223372036854775808%Z in Hk. lra.
Qed.

(** Within the range of an array dimension the univariate rule raises
    nothing and its cast is exact. *)
Lemma numBins_univariate (k : Z) :
  (0 <= k < 2 ^ 63)%Z -> numBins k None = Ok (Np.rint (numBins_b k)).
Proof.
  intros Hk. pose proof Hk as [H0 _].
  destruct (numBins_z_spec H0) as [Hz _].
  destruct (numBins_b_cubic H0) as [H1 _].
  pose proof (numBins_b_upper Hk) as Hup.
  unfold numBins, truediv.
  destruct (Req_dec_T (3 * numBins_z k) 0) as [Hz0 | _]; [lra |].
  cbn [bind Np.round]. fold (numBins_b k). f_equal.
  apply int32_of_IZR.
  pose proof (rint_mono H1) as Hlo. rewrite rint_IZR in Hlo.
  pose proof (rint_mono (Rlt_le _ _ Hup)) as Hhi. rewrite rint_IZR in Hhi.
  unfold Np.int32_min, Np.int32_max. lia.
Qed.

Lemma numBins_b_2 : 3 / 2 < numBins_b 2 < 5 / 2.
Proof.
  destruct (@numBins_b_cubic 2 ltac:(lia)) as [H1 Hc].
  split; apply cubic_lt; try lra; rewrite Hc; lra.
Qed.

Lemma numBins_b_3 : 3 / 2 < numBins_b 3 < 5 / 2.
Proof.
  destruct (@numBins_b_cubic 3 ltac:(lia)) as [H1 Hc].
  split; apply cubic_lt; try lra; rewrite Hc; lra.
Qed.

(** C5 (amended): the univariate bin count [numBins(n, None)] is a
    non-decreasing function of [n] for [n >= 2], up to the largest array
    dimension: the count is returned (nothing is raised) and
    [numBins(n, None) <= numBins(n', None)] whenever [2 <= n <= n' < 2^63]. *)
Theorem numBins_nondecreasing (n n' : Z) :
  (2 <= n <= n')%Z -> (n' < 2 ^ 63)%Z ->
  exists b b' : Z,
    numBins n None = Ok b /\ numBins n' None = Ok b' /\ (b <= b')%Z.
Proof.
  intros H H'.
  exists (Np.rint (numBins_b n)), (Np.rint (numBins_b n')).
  repeat split.
  - apply numBins_univariate. lia.
  - apply numBins_univariate. lia.
  - apply rint_mono, numBins_b_mono. lia.
Qed.

Lemma Rcompare_pos (x : R) : 0 < x -> Rcompare x 0 = Gt.
Proof. intros H. destruct (Rcompare_spec x 0); [lra | lra | reflexivity]. Qed.

Lemma py_pow_pos (x y : R) : 0 < x -> 0 < py_pow x y.
Proof.
  intros H. unfold py_pow.
  destruct (Req_dec_T x 0); [lra | apply exp_pos].
Qed.

(** The bivariate rule at a correlation of exactly [-1]. *)
Lemma numBins_bivariate_minus_one (m : Z) :
  (0 < m)%Z ->
  numBins m (Some (Np.Fin (-1))) = Ok (int32_invalid Np.PInf).
Proof.
  intros Hm. apply IZR_lt in Hm.
  unfold numBins, Np.square, Np.sub. cbn [Np.mul Np.opp Np.add Np.div].
  destruct (Req_dec_T (1 + - (-1 * -1)) 0) as [_ | Hne]; [| lra].
  rewrite Rcompare_pos by lra.
  cbn [Np.inf_of Np.add Np.pow_half Np.sqrt Np.mul Np.sign].
  rewrite Rcompare_pos by (apply py_pow_pos; lra).
  reflexivity.
Qed.

Lemma numBins_bivariate_ok (m : Z) (c : Np.float64) :
  exists b : Z, numBins m (Some c) = Ok b.
Proof. unfold numBins. eexists. reflexivity. Qed.

(** C10 (amended): with [bins_info = 'HGR'] only a correlation exactly equal
    to [+1] falls back to the univariate rule; every other value, [-1]
    included, goes through the bivariate formula.  At [-1] the denominator
    [1 - corr**2] is zero, but the division is a NumPy division: it yields
    [+inf] and raises nothing, so the bin choice returns the [int32] cast of
    [+inf]; for no sample count and no correlation does the bin choice
    raise. *)
Theorem hgr_bins_minus_one (m : Z) (c : Np.float64) :
  (0 < m)%Z ->
  hgr_bins m (Np.Fin 1) = numBins m None
  /\ (Np.eqb c (Np.Fin 1) = false -> hgr_bins m c = numBins m (Some c))
  /\ Np.sub (Np.Fin 1) (Np.square (Np.Fin (-1))) = Np.Fin 0
  /\ hgr_bins m (Np.Fin (-1)) = Ok (int32_invalid Np.PInf)
  /\ (m < 2 ^ 63 -> exists b : Z, hgr_bins m c = Ok b)%Z.
Proof.
  intros Hm. repeat split.
  - unfold hgr_bins, Np.eqb. destruct (Req_dec_T 1 1); [reflexivity | lra].
  - intros Hc. unfold hgr_bins. now rewrite Hc.
  - unfold Np.square, Np.sub. cbn. f_equal. lra.
  - unfold hgr_bins, Np.eqb. destruct (Req_dec_T (-1) 1); [lra |].
    now apply numBins_bivariate_minus_one.
  - intros Hlt. unfold hgr_bins. destruct (Np.eqb c (Np.Fin 1)).
    + eexists. apply numBins_univariate. lia.
    + apply numBins_bivariate_ok.
Qed.

End NumBinsFacts.

(** C5: strictly increasing fails at [n = 2]: [numBins(2, None)] and
    [numBins(3, None)] are both 2. *)
Lemma numBins_strictly_increasing_counterexample :
  numBins 2 None = Ok 2%Z /\ numBins (2 + 1) None = Ok 2%Z.
Proof.
  split.
  - rewrite numBins_univariate by lia. f_equal.
    apply rint_near. pose proof numBins_b_2. lra.
  - rewrite numBins_univariate by lia. f_equal.
    apply rint_near. pose proof numBins_b_3. simpl (2 + 1)%Z. lra.
Qed.

Lemma numBins_nondecreasing_witness :
  exists b b' : Z,
    numBins 2 None = Ok b /\ numBins 5 None = Ok b' /\ (b <= b')%Z.
Proof. apply (@numBins_nondecreasing x86_64 2 5); lia. Defined.

(** C10: at a correlation of [-1] no [ZeroDivisionError] escapes: the bin
    choice returns, here with the value the x86-64 cast gives [+inf]. *)
Lemma hgr_bins_minus_one_counterexample :
  hgr_bins 2 (Np.Fin (-1)) = Ok Np.int32_min
  /\ hgr_bins 2 (Np.Fin (-1)) <> Raise ZeroDivisionError.
Proof.
  assert (H : hgr_bins 2 (Np.Fin (-1)) = Ok Np.int32_min).
  { unfold hgr_bins, Np.eqb. destruct (Req_dec_T (-1) 1); [lra |].
    rewrite numBins_bivariate_minus_one by lia. reflexivity. }
  split; [exact H | rewrite H; discriminate].
Qed.

Lemma hgr_bins_minus_one_witness :
  hgr_bins 2 (Np.Fin 1) = numBins 2 None
  /\ (Np.eqb (Np.Fin (-1)) (Np.Fin 1) = false ->
      hgr_bins 2 (Np.Fin (-1)) = numBins 2 (Some (Np.Fin (-1))))
  /\ Np.sub (Np.Fin 1) (Np.square (Np.Fin (-1))) = Np.Fin 0
  /\ hgr_bins 2 (Np.Fin (-1)) = Ok (int32_invalid Np.PInf)
  /\ (2 < 2 ^ 63 -> exists b : Z, hgr_bins 2 (Np.Fin (-1)) = Ok b)%Z.
Proof. apply (@hgr_bins_minus_one x86_64 2 (Np.Fin (-1))). lia. Defined.

(** ** The final rounding and clipping of the dependence matrices *)

Section Clipping.

Open Scope R_scope.

Lemma pow10_pos (d : nat) : 0 < 10 ^ d.
Proof. apply pow_lt. lra. Qed.

Lemma round_to_Fin (d : nat) (x : R) :
  Np.round_to d (Np.Fin x) = Np.Fin (IZR (Np.rint (x * 10 ^ d)) / 10 ^ d).
Proof.
  unfold Np.round_to. cbn [Np.mul Np.round Np.div].
  pose proof (pow10_pos d).
  destruct (Req_dec_T (10 ^ d) 0); [lra | reflexivity].
Qed.

Lemma round_to_special (d : nat) (a : Np.float64) :
  ~ Np.is_finite a -> Np.round_to d a = a.
Proof.
  pose proof (pow10_pos d) as Hp.
  destruct a; cbn [Np.is_finite]; intros Hnf; [tauto | | | reflexivity];
    unfold Np.round_to; cbn [Np.mul Np.sign Np.round];
    rewrite (Rcompare_pos Hp); cbn [Np.sign_mul Np.inf_of Np.round Np.div Np.sign];
    destruct (Rlt_dec (10 ^ d) 0); try lra; reflexivity.
Qed.

Lemma le_Fin (x y : R) : Np.le (Np.Fin x) (Np.Fin y) <-> x <= y.
Proof.
  unfold Np.le, Np.leb, Np.ltb, Np.eqb.
  destruct (Rlt_dec x y); destruct (Req_dec_T x y); cbn; split; intros;
    try reflexivity; try lra; discriminate.
Qed.

Lemma ltb_Fin (x y : R) : Np.ltb (Np.Fin x) (Np.Fin y) = true <-> x < y.
Proof.
  unfold Np.ltb. destruct (Rlt_dec x y); split; intros;
    try reflexivity; try lra; discriminate.
Qed.

(** [np.clip(a, lo, hi)] of a finite value between finite bounds. *)
Lemma clip_Fin (x lo hi : R) :
  lo <= hi ->
  exists y : R,
    Np.clip (Np.Fin x) (Np.Fin lo) (Np.Fin hi) = Np.Fin y
    /\ lo <= y <= hi /\ (lo <= x <= hi -> y = x).
Proof.
  intros Hb. unfold Np.clip, Np.maximum, Np.minimum, Np.ltb.
  destruct (Rlt_dec x lo).
  - destruct (Rlt_dec hi lo); [lra |]. exists lo. repeat split; lra.
  - destruct (Rlt_dec hi x).
    + exists hi. repeat split; lra.
    + exists x. repeat split; lra.
Qed.

(** The clip at zero lets NaN through and nothing else below zero. *)
Lemma clip_nonneg_spec (a : Np.float64) :
  (clip_nonneg a = Np.NaN <-> a = Np.NaN)
  /\ (a <> Np.NaN -> Np.le (Np.Fin 0) (clip_nonneg a)).
Proof.
  unfold clip_nonneg. destruct a as [x | | |].
  - rewrite round_to_Fin.
    set (y := IZR (Np.rint (x * 10 ^ 8)) / 10 ^ 8).
    unfold Np.clip, Np.maximum, Np.minimum, Np.ltb.
    destruct (Rlt_dec y 0).
    + split; [split; discriminate | intros _; apply le_Fin; lra].
    + split; [split; discriminate | intros _; apply le_Fin; lra].
  - rewrite round_to_special by (cbn; tauto).
    split; [split; discriminate | intros _; reflexivity].
  - rewrite round_to_special by (cbn; tauto).
    split; [split; discriminate | intros _; apply le_Fin; lra].
  - rewrite round_to_special by (cbn; tauto).
    split; [split; reflexivity | intros H; now elim H].
Qed.

Lemma pow10_8 : 10 ^ 8 = IZR 100000000.
Proof. simpl. lra. Qed.

Lemma clip_tail_one : clip_tail (Np.Fin 1) = Np.Fin 1.
Proof.
  unfold clip_tail. rewrite round_to_Fin, pow10_8, Rmult_1_l, rint_IZR.
  replace (IZR 100000000 / IZR 100000000) with 1 by (field; lra).
  unfold Np.clip, Np.maximum, Np.minimum, Np.ltb.
  destruct (Rlt_dec 1 (/ IZR 100000000)) as [Hlt | _].
  - exfalso.
    assert (Hp : 0 < IZR 100000000) by lra.
    apply (Rmult_lt_compat_r _ _ _ Hp) in Hlt.
    rewrite Rinv_l in Hlt by lra. lra.
  - destruct (Rlt_dec 1 1); [lra | reflexivity].
Qed.

End Clipping.

(** ** Arrays *)

Section MatFacts.

Lemma map_full {A B : Type} (f : A -> B) (r c : nat) (x : A) :
  Mat.map f (Mat.full r c x) = Mat.full r c (f x).
Proof.
  unfold Mat.map, Mat.full. now rewrite !map_repeat.
Qed.

Lemma all_map {A B : Type} (f : A -> B) (Q : B -> Prop) (M : Mat.matrix A) :
  (forall a : A, Q (f a)) -> Mat.all Q (Mat.map f M).
Proof.
  intros H. unfold Mat.all, Mat.map.
  apply Forall_map, Forall_forall. intros row _.
  apply Forall_map, Forall_forall. intros a _. apply H.
Qed.

Lemma set_nth_length {A : Type} (l : list A) (i : nat) (x : A) :
  length (Mat.set_nth l i x) = length l.
Proof.
  revert i. induction l as [| h t IH]; intros [| i]; cbn; auto.
Qed.

Lemma nth_set_nth {A : Type} (l : list A) (i j : nat) (x d : A) :
  nth j (Mat.set_nth l i x) d
  = if (i =? j)%nat && (i <? length l)%nat then x else nth j l d.
Proof.
  revert i j. induction l as [| h t IH]; intros i j.
  - cbn. rewrite andb_false_r. destruct i; reflexivity.
  - destruct i as [| i]; destruct j as [| j]; cbn; try reflexivity.
    rewrite IH. reflexivity.
Qed.

(** An array with [r] rows of [c] entries each. *)
Lemma get_set {A : Type} (d : A) (M : Mat.matrix A) (i j a b : nat) (x : A) :
  Mat.get d (Mat.set M i j x) a b
  = if (i =? a)%nat && (j =? b)%nat && (i <? length M)%nat
       && (j <? length (nth i M []))%nat
    then x else Mat.get d M a b.
Proof.
  unfold Mat.get, Mat.set. rewrite nth_set_nth.
  destruct (Nat.eqb_spec i a) as [<- | Hia]; cbn [andb]; [| reflexivity].
  destruct (Nat.ltb_spec i (length M)); cbn [andb].
  - rewrite nth_set_nth. rewrite andb_true_r. reflexivity.
  - now rewrite !andb_false_r.
Qed.

Lemma set_shape {A : Type} (M : Mat.matrix A) (i j : nat) (x : A) (n : nat) :
  length M = n /\ Forall (fun row => length row = n) M ->
  length (Mat.set M i j x) = n
  /\ Forall (fun row => length row = n) (Mat.set M i j x).
Proof.
  intros [Hl Hr]. unfold Mat.set. split.
  - now rewrite set_nth_length.
  - apply Forall_forall. intros row Hin.
    destruct (In_nth _ _ [] Hin) as (k & Hk & <-).
    rewrite set_nth_length in Hk. rewrite nth_set_nth.
    destruct ((i =? k)%nat && (i <? length M)%nat) eqn:E.
    + rewrite set_nth_length.
      apply andb_prop in E as [_ E]. apply Nat.ltb_lt in E.
      rewrite Forall_forall in Hr. apply Hr, nth_In, E.
    + rewrite Forall_forall in Hr. apply Hr, nth_In, Hk.
Qed.

Lemma full_shape {A : Type} (n : nat) (x : A) :
  length (Mat.full n n x) = n
  /\ Forall (fun row => length row = n) (Mat.full n n x).
Proof.
  unfold Mat.full. split; [apply repeat_length |].
  apply Forall_forall. intros row Hin.
  apply repeat_spec in Hin. subst. apply repeat_length.
Qed.

Lemma nth_repeat_cases {A : Type} (x d : A) (m i : nat) :
  nth i (repeat x m) d = if (i <? m)%nat then x else d.
Proof.
  destruct (Nat.ltb_spec i m) as [Hlt | Hge].
  - now apply nth_repeat_lt.
  - apply nth_overflow. now rewrite repeat_length.
Qed.

Lemma get_full {A : Type} (d : A) (r c i j : nat) (x : A) :
  Mat.get d (Mat.full r c x) i j
  = if (i <? r)%nat && (j <? c)%nat then x else d.
Proof.
  unfold Mat.get, Mat.full. rewrite nth_repeat_cases.
  destruct (i <? r)%nat; cbn [andb].
  - apply nth_repeat_cases.
  - now destruct j.
Qed.

Lemma full_symmetric {A : Type} (d : A) (n : nat) (x : A) :
  Mat.symmetric d (Mat.full n n x).
Proof.
  intros i j. rewrite !get_full. now rewrite andb_comm.
Qed.

Lemma square_row_length {A : Type} (M : Mat.matrix A) (n i : nat) :
  length M = n /\ Forall (fun row => length row = n) M ->
  (i < n)%nat -> length (nth i M []) = n.
Proof.
  intros [Hl Hr] Hi. rewrite Forall_forall in Hr.
  apply Hr, nth_In. now rewrite Hl.
Qed.

(** The paired assignment of the fill loops keeps a square array
    symmetric. *)
Lemma set_pair_symmetric {A : Type} (d : A) (M : Mat.matrix A) (n i j : nat)
    (x : A) :
  length M = n /\ Forall (fun row => length row = n) M ->
  (i < n)%nat -> (j < n)%nat ->
  Mat.symmetric d M ->
  let M1 := Mat.set M i j x in
  Mat.symmetric d (Mat.set M1 j i (Mat.get d M1 i j)).
Proof.
  intros Hsh Hi Hj Hsym M1 a b.
  pose proof (set_shape i j x Hsh) as Hsh1.
  pose proof (square_row_length Hsh1 Hj) as Hrow1.
  pose proof (square_row_length Hsh Hi) as Hrow.
  destruct Hsh1 as [Hlen1 _]. destruct Hsh as [Hlen _].
  assert (Hi' := Hi). assert (Hj' := Hj). apply Nat.ltb_lt in Hi', Hj'.
  subst M1.
  rewrite !get_set, Hrow1, Hlen1, Hrow, Hlen.
  rewrite !Nat.eqb_refl, Hi', Hj'. cbn [andb]. rewrite !andb_true_r.
  destruct (Nat.eqb_spec j a), (Nat.eqb_spec i b), (Nat.eqb_spec j b),
    (Nat.eqb_spec i a); subst; cbn [andb]; try reflexivity; apply Hsym.
Qed.

Lemma set_diag_symmetric {A : Type} (d : A) (M : Mat.matrix A) (i : nat)
    (x : A) :
  Mat.symmetric d M -> Mat.symmetric d (Mat.set M i i x).
Proof.
  intros Hsym a b. rewrite !get_set.
  destruct (Nat.eqb_spec i a), (Nat.eqb_spec i b); subst; cbn [andb];
    try reflexivity; apply Hsym.
Qed.

Lemma triu_indices_bound (n i j : nat) :
  In (i, j) (Mat.triu_indices n) -> (i <= j < n)%nat.
Proof.
  unfold Mat.triu_indices. rewrite in_flat_map.
  intros (k & Hk & Hin). apply in_seq in Hk.
  apply in_map_iff in Hin as (l & Heq & Hl). apply in_seq in Hl.
  inversion Heq; subst. lia.
Qed.

End MatFacts.


(** ** Loops *)

Section Loops.

Lemma foldM_invariant {A S : Type} (body : S -> A -> result S)
    (I : S -> Prop) (l : list A) (s r : S) :
  (forall (s0 : S) (a : A) (s1 : S),
      In a l -> I s0 -> body s0 a = Ok s1 -> I s1) ->
  I s -> foldM body l s = Ok r -> I r.
Proof.
  revert s. induction l as [| a l IH]; intros s Hstep Hs Hrun.
  - cbn in Hrun. now inversion Hrun; subst.
  - cbn in Hrun. destruct (body s a) as [s1 | e] eqn:Hb; [| discriminate].
    cbn in Hrun. apply (IH s1); auto.
    + intros s0 x s2 Hin. apply Hstep. now right.
    + apply (Hstep s a s1); auto. now left.
Qed.

Lemma foldM_ext {A S : Type} (f g : S -> A -> result S) (l : list A) (s : S) :
  (forall (s0 : S) (a : A), In a l -> f s0 a = g s0 a) ->
  foldM f l s = foldM g l s.
Proof.
  revert s. induction l as [| a l IH]; intros s H; [reflexivity |].
  cbn. rewrite (H s a) by now left.
  destruct (g s a); [| reflexivity]. cbn.
  apply IH. intros s0 x Hin. apply H. now right.
Qed.

Lemma fill_symmetric_ext (n : nat) (init : Np.float64)
    (e1 e2 : nat -> nat -> result Np.float64) :
  (forall i j : nat, (i <= j < n)%nat -> e1 i j = e2 i j) ->
  fill_symmetric n init e1 = fill_symmetric n init e2.
Proof.
  intros H. unfold fill_symmetric. apply foldM_ext.
  intros s [i j] Hin. apply triu_indices_bound in Hin.
  now rewrite H.
Qed.

(** The array the fill loop returns is square and symmetric. *)
Lemma fill_symmetric_spec (n : nat) (init : Np.float64)
    (entry : nat -> nat -> result Np.float64) (M : Mat.matrix Np.float64) :
  fill_symmetric n init entry = Ok M ->
  (length M = n /\ Forall (fun row => length row = n) M)
  /\ Mat.symmetric Np.NaN M.
Proof.
  unfold fill_symmetric. intros Hrun.
  eapply (@foldM_invariant _ _ _
            (fun M => (length M = n /\ Forall (fun row => length row = n) M)
                      /\ Mat.symmetric Np.NaN M));
    [ | | exact Hrun].
  - intros M0 [i j] M1 Hin [Hsh Hsym] Hstep.
    apply triu_indices_bound in Hin.
    destruct (entry i j) as [v | e]; [| discriminate].
    cbn in Hstep. inversion Hstep; subst. split.
    + now apply set_shape, set_shape.
    + apply (@set_pair_symmetric _ Np.NaN M0 n i j v); auto; lia.
  - split; [apply full_shape | apply full_symmetric].
Qed.

End Loops.

(** ** [mutual_info_matrix] and [var_info_matrix] *)

Section InfoMatrixFacts.

Context {P : Platform} {K : InfoKernels}.

(** C4 (amended): every entry of the matrices returned by
    [mutual_info_matrix] and [var_info_matrix] is greater than or equal to 0
    or is NaN: the returned matrix is the matrix of the pairwise values with
    [np.clip(np.round(., 8), 0, inf)] applied to each entry, and that clip
    turns a value into NaN exactly when the value is NaN and into something
    at least 0 otherwise. *)
Theorem info_matrix_entries (X : Mat.matrix Np.float64)
    (bins_info : bins_spec) (normalize : bool) (M : Mat.matrix Np.float64) :
  mutual_info_matrix X bins_info normalize = Ok M
  \/ var_info_matrix X bins_info normalize = Ok M ->
  Mat.all (fun e => e = Np.NaN \/ Np.le (Np.Fin 0) e) M
  /\ (exists raw : Mat.matrix Np.float64,
         (mutual_info_raw X bins_info normalize = Ok raw
          \/ var_info_raw X bins_info normalize = Ok raw)
         /\ M = Mat.map clip_nonneg raw)
  /\ (forall a : Np.float64,
         (clip_nonneg a = Np.NaN <-> a = Np.NaN)
         /\ (a <> Np.NaN -> Np.le (Np.Fin 0) (clip_nonneg a))).
Proof.
  intros H.
  assert (Hraw : exists raw : Mat.matrix Np.float64,
             (mutual_info_raw X bins_info normalize = Ok raw
              \/ var_info_raw X bins_info normalize = Ok raw)
             /\ M = Mat.map clip_nonneg raw).
  { destruct H as [H | H].
    - unfold mutual_info_matrix in H.
      destruct (mutual_info_raw X bins_info normalize) as [raw | e];
        [| discriminate].
      cbn in H. inversion H. exists raw. auto.
    - unfold var_info_matrix in H.
      destruct (var_info_raw X bins_info normalize) as [raw | e];
        [| discriminate].
      cbn in H. inversion H. exists raw. auto. }
  split; [| split; [exact Hraw | apply clip_nonneg_spec]].
  destruct Hraw as (raw & _ & ->).
  apply all_map. intros a.
  destruct (clip_nonneg_spec a) as [Hnan Hpos].
  destruct a; try (right; apply Hpos; discriminate).
  left. now apply Hnan.
Qed.

End InfoMatrixFacts.

(** ** The reference kernels with a single bin *)

Section OneBin.

Open Scope R_scope.

Lemma Rlist_min_spec (t : list R) (v : R) :
  Ref.Rlist_min v t <= v /\ Forall (fun u => Ref.Rlist_min v t <= u) t.
Proof.
  unfold Ref.Rlist_min. revert v.
  induction t as [| a t IH]; intros v; cbn.
  - split; [lra | constructor].
  - destruct (IH (Rmin v a)) as [H1 H2].
    pose proof (Rmin_l v a). pose proof (Rmin_r v a).
    split; [lra |]. constructor; [lra | assumption].
Qed.

Lemma Rlist_max_spec (t : list R) (v : R) :
  v <= Ref.Rlist_max v t /\ Forall (fun u => u <= Ref.Rlist_max v t) t.
Proof.
  unfold Ref.Rlist_max. revert v.
  induction t as [| a t IH]; intros v; cbn.
  - split; [lra | constructor].
  - destruct (IH (Rmax v a)) as [H1 H2].
    pose proof (Rmax_l v a). pose proof (Rmax_r v a).
    split; [lra |]. constructor; [lra | assumption].
Qed.

Lemma outer_edges_spec (xs : list R) :
  fst (Ref.outer_edges xs) < snd (Ref.outer_edges xs)
  /\ Forall (fun v => fst (Ref.outer_edges xs) <= v) xs.
Proof.
  destruct xs as [| v t]; cbn [Ref.outer_edges].
  - cbn. split; [lra | constructor].
  - destruct (Rlist_min_spec t v) as [Hlo Hlos].
    destruct (Rlist_max_spec t v) as [Hhi His].
    destruct (Req_dec_T (Ref.Rlist_min v t) (Ref.Rlist_max v t)) as [He | Hne];
      cbn [fst snd].
    + split; [lra |]. constructor; [lra |].
      eapply Forall_impl; [| exact Hlos]. cbn. intros; lra.
    + split; [lra |]. constructor; assumption.
Qed.

Lemma bin_index_one (e : R * R) (v : R) :
  fst e < snd e -> fst e <= v -> Ref.bin_index e 1 v = 0%Z.
Proof.
  destruct e as [lo hi]. cbn [fst snd Ref.bin_index]. intros Hlt Hle.
  assert (H0 : 0 <= (v - lo) / (hi - lo) * 1).
  { rewrite Rmult_1_r. apply Rmult_le_pos; [lra |].
    apply Rlt_le, Rinv_0_lt_compat. lra. }
  pose proof (@Zfloor_lub 0 _ H0). lia.
Qed.

Lemma count_if_all {A : Type} (f : A -> bool) (l : list A) :
  Forall (fun a => f a = true) l -> count_if f l = length l.
Proof.
  unfold count_if. induction 1 as [| a l Ha _ IH]; cbn; [reflexivity |].
  rewrite Ha. cbn. now rewrite IH.
Qed.

Lemma histogram_one_bin (x : list Np.float64) (xs : list R) :
  Ref.finite_values x = Some xs -> Ref.histogram x 1 = Ok [length xs].
Proof.
  intros Hx. unfold Ref.histogram.
  change (1 <? 1)%Z with false. rewrite Hx.
  change (Ref.bin_range 1) with [0%Z]. cbn [map].
  do 2 f_equal. apply count_if_all.
  destruct (outer_edges_spec xs) as [Hlt Hall].
  eapply Forall_impl; [| exact Hall]. cbn. intros v Hv.
  now rewrite bin_index_one.
Qed.

Lemma histogram2d_one_bin (x y : list Np.float64) (xs ys : list R) :
  Ref.finite_values x = Some xs -> Ref.finite_values y = Some ys ->
  exists c : nat, Ref.histogram2d x y 1 = Ok [[c]].
Proof.
  intros Hx Hy. unfold Ref.histogram2d.
  change (1 <? 1)%Z with false. rewrite Hx, Hy.
  change (Ref.bin_range 1) with [0%Z]. eexists. reflexivity.
Qed.

Lemma entropy_single (c : nat) : (0 < c)%nat -> Ref.entropy [c] = Np.Fin 0.
Proof.
  intros Hc. unfold Ref.entropy, Ref.total. cbn [fold_right map].
  rewrite Nat.add_0_r.
  destruct (Nat.eqb_spec c 0); [lia |].
  assert (Hr : INR c <> 0) by (apply not_0_INR; lia).
  replace (INR c / INR c) with 1 by (field; assumption).
  unfold Ref.entr. destruct (Req_dec_T 1 0); [lra |].
  rewrite ln_1. f_equal. lra.
Qed.

Lemma mutual_info_single (c : nat) : Ref.mutual_info_score [[c]] = Np.Fin 0.
Proof. reflexivity. Qed.

(** With one bin every observation falls in it: both entropies and the
    mutual information are zero. *)
Lemma pair_information_one_bin {P : Platform} (X : Mat.matrix Np.float64)
    (i j : nat) (xs ys : list R) :
  Ref.finite_values (Mat.col Np.NaN X i) = Some xs ->
  Ref.finite_values (Mat.col Np.NaN X j) = Some ys ->
  xs <> [] -> ys <> [] ->
  pair_information X (BinsInt 1) i j = Ok (Np.Fin 0, Np.Fin 0, Np.Fin 0).
Proof.
  intros Hx Hy Hxs Hys.
  unfold pair_information, choose_bins. cbn [bind histogram2d histogram
    entropy mutual_info_score Ref.kernels].
  destruct (histogram2d_one_bin _ _ Hx Hy) as [c ->].
  rewrite (histogram_one_bin _ Hx), (histogram_one_bin _ Hy).
  cbn [bind]. rewrite mutual_info_single.
  rewrite !entropy_single; [reflexivity | |];
    [destruct ys | destruct xs]; cbn; try congruence; lia.
Qed.

End OneBin.

(** The matrix of two observations of two assets used in the examples. *)
Lemma X2_columns (j : nat) :
  (j < 2)%nat ->
  exists xs : list R,
    Ref.finite_values
      (Mat.col Np.NaN [[Np.Fin 1; Np.Fin 2]; [Np.Fin 3; Np.Fin 4]] j) = Some xs
    /\ xs <> [].
Proof.
  intros Hj. destruct j as [| [| j]]; [| | lia]; cbn; eexists;
    (split; [reflexivity | discriminate]).
Qed.

Lemma div_zero_zero : Np.div (Np.Fin 0) (Np.Fin 0) = Np.NaN.
Proof.
  unfold Np.div. destruct (Req_dec_T 0 0); [| lra].
  unfold Rcompare. destruct (total_order_T 0 0) as [[H | H] | H];
    [lra | reflexivity | lra].
Qed.

Lemma X2_pair_information (i j : nat) :
  (i <= j < 2)%nat ->
  pair_information [[Np.Fin 1; Np.Fin 2]; [Np.Fin 3; Np.Fin 4]] (BinsInt 1) i j
  = Ok (Np.Fin 0, Np.Fin 0, Np.Fin 0).
Proof.
  intros Hij.
  destruct (@X2_columns i ltac:(lia)) as (xs & Hx & Hxs).
  destruct (@X2_columns j ltac:(lia)) as (ys & Hy & Hys).
  now apply (pair_information_one_bin _ _ _ Hx Hy).
Qed.

(** The pairwise values for a single bin: [0 / 0] when normalised, 0
    otherwise. *)
Lemma X2_one_bin_raw (normalize : bool) :
  let X := [[Np.Fin 1; Np.Fin 2]; [Np.Fin 3; Np.Fin 4]]%R in
  let v := if normalize then Np.NaN else Np.Fin 0 in
  mutual_info_raw X (BinsInt 1) normalize = Ok [[v; v]; [v; v]]
  /\ var_info_raw X (BinsInt 1) normalize = Ok [[v; v]; [v; v]].
Proof.
  intros X v. split.
  - unfold mutual_info_raw.
    rewrite (@fill_symmetric_ext _ _ _ (fun _ _ => Ok v)).
    + reflexivity.
    + intros i j Hij. unfold mutual_info_entry, X.
      rewrite (X2_pair_information Hij).
      cbn [bind Np.minimum Np.ltb]. destruct (Rlt_dec 0 0); [lra |].
      unfold v. destruct normalize; [now rewrite div_zero_zero | reflexivity].
  - unfold var_info_raw.
    rewrite (@fill_symmetric_ext _ _ _ (fun _ _ => Ok v)).
    + reflexivity.
    + intros i j Hij. unfold var_info_entry, X.
      rewrite (X2_pair_information Hij).
      cbn [bind Np.add Np.sub Np.mul Np.opp].
      replace (0 + 0 + - (2 * 0))%R with 0%R by lra.
      replace (0 + 0 + - 0)%R with 0%R by lra.
      unfold v. destruct normalize; [now rewrite div_zero_zero | reflexivity].
Qed.

(** C4: with a single bin ([bins_info = 1]) and the default [normalize],
    every entropy is zero and every entry of both matrices is [0 / 0]: NaN,
    not a value greater than or equal to 0. *)
Lemma info_matrix_nan_counterexample :
  let X := [[Np.Fin 1; Np.Fin 2]; [Np.Fin 3; Np.Fin 4]]%R in
  let nans := [[Np.NaN; Np.NaN]; [Np.NaN; Np.NaN]] in
  mutual_info_matrix X (BinsInt 1) true = Ok nans
  /\ var_info_matrix X (BinsInt 1) true = Ok nans
  /\ ~ Mat.all (fun e => Np.le (Np.Fin 0) e) nans.
Proof.
  intros X nans. destruct (X2_one_bin_raw true) as [Hm Hv].
  split; [| split].
  - unfold mutual_info_matrix, X. rewrite Hm. reflexivity.
  - unfold var_info_matrix, X. rewrite Hv. reflexivity.
  - intros Hall. inversion Hall as [| row rows Hrow _]; subst.
    inversion Hrow as [| e es He _]; subst. discriminate He.
Qed.

Lemma info_matrix_entries_witness :
  let X := [[Np.Fin 1; Np.Fin 2]; [Np.Fin 3; Np.Fin 4]]%R in
  let M := Mat.map clip_nonneg
             [[Np.Fin 0; Np.Fin 0]; [Np.Fin 0; Np.Fin 0]]%R in
  Mat.all (fun e => e = Np.NaN \/ Np.le (Np.Fin 0) e) M
  /\ (exists raw : Mat.matrix Np.float64,
         (mutual_info_raw X (BinsInt 1) false = Ok raw
          \/ var_info_raw X (BinsInt 1) false = Ok raw)
         /\ M = Mat.map clip_nonneg raw)
  /\ (forall a : Np.float64,
         (clip_nonneg a = Np.NaN <-> a = Np.NaN)
         /\ (a <> Np.NaN -> Np.le (Np.Fin 0) (clip_nonneg a))).
Proof.
  intros X M.
  apply (@info_matrix_entries x86_64 Ref.kernels X (BinsInt 1) false M).
  left. unfold mutual_info_matrix.
  destruct (X2_one_bin_raw false) as [Hm _]. cbv zeta in Hm.
  unfold X. rewrite Hm. reflexivity.
Defined.

(** ** [codep_dist]: kinds outside the dispatch table *)

Section UnknownKind.

Context {P : Platform} {K : InfoKernels} {C : CodepKernels}.

Lemma str_in_false (s : String.string) (l : list String.string) :
  ~ In s l -> str_in s l = false.
Proof.
  intros Hn. unfold str_in. apply not_true_is_false. intros H.
  apply existsb_exists in H as (x & Hin & Heq).
  apply String.eqb_eq in Heq. subst. contradiction.
Qed.

Lemma eqb_false_of_not_in (s t : String.string) (l : list String.string) :
  ~ In s l -> In t l -> String.eqb s t = false.
Proof.
  intros Hn Hin. apply String.eqb_neq. intros ->. contradiction.
Qed.

(** C1: for a kind outside the dispatch table no branch of [codep_dist] is
    taken and nothing is computed, but the failure is the
    [UnboundLocalError] of [return codep, dist], not the [ValueError] the
    docstring promises. *)
Theorem codep_dist_unknown_kind (returns : Mat.matrix Np.float64)
    (custom_cov : option (Mat.matrix Np.float64))
    (codependence : String.string) (bins_info : bins_spec)
    (alpha_tail : Np.float64) (gs_threshold : R) :
  ~ In codependence codependence_kinds ->
  codep_dist_branches returns custom_cov codependence bins_info alpha_tail
    gs_threshold = Ok None
  /\ codep_dist returns custom_cov codependence bins_info alpha_tail
       gs_threshold = Raise UnboundLocalError.
Proof.
  intros Hn.
  assert (Hb : codep_dist_branches returns custom_cov codependence bins_info
                 alpha_tail gs_threshold = Ok None).
  { unfold codep_dist_branches.
    rewrite !str_in_false
      by (intros Hin; apply Hn; unfold codependence_kinds;
          cbn in Hin |- *; tauto).
    rewrite !(@eqb_false_of_not_in codependence _ codependence_kinds Hn)
      by (cbn; tauto).
    reflexivity. }
  split; [exact Hb |].
  unfold codep_dist. now rewrite Hb.
Qed.

End UnknownKind.

(** ** The entrywise distance formulas *)

Section DistanceFormulas.

Open Scope R_scope.

Lemma clip_bounds (a : Np.float64) (lo hi : R) :
  a <> Np.NaN -> lo <= hi ->
  exists y : R,
    Np.clip a (Np.Fin lo) (Np.Fin hi) = Np.Fin y /\ lo <= y <= hi.
Proof.
  intros Ha Hb. destruct a as [x | | |]; [| | | now elim Ha].
  - destruct (clip_Fin x Hb) as (y & Hy & Hr & _). now exists y.
  - exists hi. split; [| lra].
    unfold Np.clip, Np.maximum, Np.minimum, Np.ltb. reflexivity.
  - exists lo. split; [| lra].
    unfold Np.clip, Np.maximum, Np.minimum, Np.ltb.
    destruct (Rlt_dec hi lo); [lra | reflexivity].
Qed.

Lemma sqrt_Fin (y : R) : 0 <= y -> Np.sqrt (Np.Fin y) = Np.Fin (sqrt y).
Proof.
  intros Hy. unfold Np.sqrt. destruct (Rlt_dec y 0); [lra | reflexivity].
Qed.

Lemma sub_one_not_nan (c : Np.float64) :
  c <> Np.NaN -> Np.sub (Np.Fin 1) c <> Np.NaN.
Proof. destruct c; cbn; congruence. Qed.

Lemma div_two_not_nan (c : Np.float64) :
  c <> Np.NaN -> Np.div c (Np.Fin 2) <> Np.NaN.
Proof.
  destruct c; cbn; try congruence.
  - destruct (Req_dec_T 2 0); [lra | congruence].
  - destruct (Rlt_dec 2 0); [lra | cbn; congruence].
  - destruct (Rlt_dec 2 0); [lra | cbn; congruence].
Qed.

Lemma clip_zero : Np.clip (Np.Fin 0) (Np.Fin 0) (Np.Fin 1) = Np.Fin 0.
Proof.
  unfold Np.clip, Np.maximum, Np.minimum, Np.ltb.
  destruct (Rlt_dec 0 0); [lra |]. destruct (Rlt_dec 1 0); [lra | reflexivity].
Qed.

Lemma dist_half_one : dist_half (Np.Fin 1) = Np.Fin 0.
Proof.
  unfold dist_half. cbn [Np.sub Np.opp Np.add Np.div].
  destruct (Req_dec_T 2 0); [lra |].
  replace ((1 + - (1)) / 2) with 0 by lra.
  rewrite clip_zero, sqrt_Fin by lra. now rewrite sqrt_0.
Qed.

Lemma dist_one_one : dist_one (Np.Fin 1) = Np.Fin 0.
Proof.
  unfold dist_one. cbn [Np.sub Np.opp Np.add].
  replace (1 + - (1)) with 0 by lra.
  rewrite clip_zero, sqrt_Fin by lra. now rewrite sqrt_0.
Qed.

Lemma dist_log_nonneg (x : R) :
  0 < x <= 1 -> Np.le (Np.Fin 0) (dist_log (Np.Fin x)).
Proof.
  intros [Hpos Hle]. unfold dist_log, Np.log.
  rewrite Rcompare_pos by assumption. cbn [Np.opp]. apply le_Fin.
  destruct (Req_dec_T x 1) as [-> | Hne].
  - rewrite ln_1. lra.
  - assert (Hln : ln x < ln 1) by (apply ln_increasing; lra).
    rewrite ln_1 in Hln. lra.
Qed.

End DistanceFormulas.

(** ** Entrywise maps of square arrays *)

Section MapFacts.

Lemma get_map {A B : Type} (f : A -> B) (d : A) (d' : B) (M : Mat.matrix A)
    (i j : nat) :
  Mat.get d' (Mat.map f M) i j
  = if (i <? length M)%nat && (j <? length (nth i M []))%nat
    then f (Mat.get d M i j) else d'.
Proof.
  unfold Mat.get, Mat.map.
  destruct (Nat.ltb_spec i (length M)) as [Hi | Hi]; cbn [andb].
  - rewrite (nth_indep _ [] (map f []))
      by (now rewrite length_map).
    rewrite map_nth.
    destruct (Nat.ltb_spec j (length (nth i M []))) as [Hj | Hj].
    + rewrite (nth_indep _ d' (f d)) by (now rewrite length_map).
      apply map_nth.
    + apply nth_overflow. now rewrite length_map.
  - rewrite (nth_overflow (map (map f) M)) by (now rewrite length_map).
    now destruct j.
Qed.

Lemma map_square {A B : Type} (f : A -> B) (n : nat) (M : Mat.matrix A) :
  square_of n M -> square_of n (Mat.map f M).
Proof.
  intros [Hl Hr]. unfold Mat.map. split; [now rewrite length_map |].
  apply Forall_map. eapply Forall_impl; [| exact Hr].
  cbn. intros row Hrow. now rewrite length_map.
Qed.

Lemma get_map_square {A B : Type} (f : A -> B) (d : A) (d' : B) (n : nat)
    (M : Mat.matrix A) (i j : nat) :
  square_of n M ->
  Mat.get d' (Mat.map f M) i j
  = if (i <? n)%nat && (j <? n)%nat then f (Mat.get d M i j) else d'.
Proof.
  intros Hsq. rewrite (get_map f d).
  destruct Hsq as [Hl Hr]. rewrite Hl.
  destruct (Nat.ltb_spec i n) as [Hi | Hi]; cbn [andb]; [| reflexivity].
  now rewrite (@square_row_length _ M n i (conj Hl Hr) Hi).
Qed.

Lemma map_symmetric {A B : Type} (f : A -> B) (d : A) (d' : B) (n : nat)
    (M : Mat.matrix A) :
  square_of n M -> Mat.symmetric d M -> Mat.symmetric d' (Mat.map f M).
Proof.
  intros Hsq Hsym i j.
  rewrite !(get_map_square f d d' _ _ Hsq), (Hsym i j).
  now rewrite andb_comm.
Qed.

Lemma all_map_impl {A B : Type} (f : A -> B) (Q : A -> Prop) (Q' : B -> Prop)
    (M : Mat.matrix A) :
  (forall a : A, Q a -> Q' (f a)) -> Mat.all Q M -> Mat.all Q' (Mat.map f M).
Proof.
  intros H Hall. unfold Mat.all, Mat.map in *.
  apply Forall_map. eapply Forall_impl; [| exact Hall].
  cbn. intros row Hrow. apply Forall_map.
  eapply Forall_impl; [| exact Hrow]. exact H.
Qed.

Lemma all_get {A : Type} (Q : A -> Prop) (d : A) (n : nat) (M : Mat.matrix A)
    (i j : nat) :
  square_of n M -> Mat.all Q M -> (i < n)%nat -> (j < n)%nat ->
  Q (Mat.get d M i j).
Proof.
  intros Hsq Hall Hi Hj. unfold Mat.get.
  pose proof (@square_row_length _ M n i Hsq Hi) as Hrow.
  destruct Hsq as [Hl _]. unfold Mat.all in Hall.
  rewrite Forall_forall in Hall.
  assert (Hin : In (nth i M []) M) by (apply nth_In; lia).
  specialize (Hall _ Hin). rewrite Forall_forall in Hall.
  apply Hall, nth_In. lia.
Qed.

Lemma all_set {A : Type} (Q : A -> Prop) (M : Mat.matrix A) (i j : nat)
    (x : A) :
  Mat.all Q M -> Q x -> Mat.all Q (Mat.set M i j x).
Proof.
  intros Hall Hx. unfold Mat.all, Mat.set in *.
  assert (Hnth : forall (T : Type) (R : T -> Prop) (l : list T) (k : nat) (y : T),
             Forall R l -> R y -> Forall R (Mat.set_nth l k y)).
  { intros T R l. induction l as [| h t IH]; intros [| k] y Hl Hy; cbn;
      try constructor; inversion Hl; subst; auto. }
  apply Hnth; [assumption |].
  apply Hnth; [| assumption].
  destruct (Nat.lt_ge_cases i (length M)) as [Hi | Hi].
  - rewrite Forall_forall in Hall. apply Hall, nth_In, Hi.
  - rewrite nth_overflow by assumption. constructor.
Qed.

Lemma all_full {A : Type} (Q : A -> Prop) (r c : nat) (x : A) :
  Q x -> Mat.all Q (Mat.full r c x).
Proof.
  intros Hx. unfold Mat.all, Mat.full.
  apply Forall_forall. intros row Hin. apply repeat_spec in Hin. subst.
  apply Forall_forall. intros a Ha. apply repeat_spec in Ha. now subst.
Qed.

End MapFacts.

(** ** [cov2corr] *)

Section Cov2Corr.

Open Scope R_scope.

Lemma nth_map_combine_seq {A B : Type} (g : nat -> A -> B) (l : list A)
    (s i : nat) (d : A) (d' : B) :
  nth i (map (fun p => g (fst p) (snd p)) (combine (seq s (length l)) l)) d'
  = if (i <? length l)%nat then g (s + i)%nat (nth i l d) else d'.
Proof.
  revert s i. induction l as [| a l IH]; intros s i.
  - cbn. now destruct i.
  - cbn [length seq combine map]. destruct i as [| i].
    + cbn. now rewrite Nat.add_0_r.
    + cbn [nth]. rewrite IH.
      change (S i <? S (length l))%nat with (i <? length l)%nat.
      now rewrite Nat.add_succ_r.
Qed.

Lemma length_map_combine_seq {A B : Type} (g : nat * A -> B) (l : list A)
    (s : nat) :
  length (map g (combine (seq s (length l)) l)) = length l.
Proof.
  rewrite length_map, length_combine, length_seq. apply Nat.min_id.
Qed.

Lemma mapij_length {A B : Type} (f : nat -> nat -> A -> B) (M : Mat.matrix A) :
  length (mapij f M) = length M.
Proof. unfold mapij. apply length_map_combine_seq. Qed.

Lemma nth_mapij {A B : Type} (f : nat -> nat -> A -> B) (M : Mat.matrix A)
    (i : nat) :
  (i < length M)%nat ->
  nth i (mapij f M) []
  = map (fun jc => f i (fst jc) (snd jc))
      (combine (seq 0 (length (nth i M []))) (nth i M [])).
Proof.
  intros Hi. unfold mapij.
  rewrite (nth_map_combine_seq
             (fun i row =>
                map (fun jc => f i (fst jc) (snd jc))
                  (combine (seq 0 (length row)) row)) M 0 i [] []).
  apply Nat.ltb_lt in Hi. now rewrite Hi.
Qed.

Lemma mapij_square {A B : Type} (f : nat -> nat -> A -> B) (n : nat)
    (M : Mat.matrix A) :
  square_of n M -> square_of n (mapij f M).
Proof.
  intros [Hl Hr]. split; [now rewrite mapij_length |].
  apply Forall_forall. intros row Hin.
  destruct (In_nth _ _ [] Hin) as (i & Hi & <-).
  rewrite mapij_length in Hi. rewrite nth_mapij by assumption.
  rewrite length_map_combine_seq.
  rewrite Forall_forall in Hr. apply Hr, nth_In, Hi.
Qed.

Lemma get_mapij {A B : Type} (f : nat -> nat -> A -> B) (d : A) (d' : B)
    (n : nat) (M : Mat.matrix A) (i j : nat) :
  square_of n M -> (i < n)%nat -> (j < n)%nat ->
  Mat.get d' (mapij f M) i j = f i j (Mat.get d M i j).
Proof.
  intros Hsq Hi Hj. unfold Mat.get.
  pose proof (@square_row_length _ M n i Hsq Hi) as Hrow.
  destruct Hsq as [Hl _].
  rewrite nth_mapij by lia.
  rewrite (nth_map_combine_seq (f i) (nth i M []) 0 j d d'), Hrow.
  apply Nat.ltb_lt in Hj. now rewrite Hj.
Qed.

Lemma all_of_get {A : Type} (Q : A -> Prop) (d : A) (n : nat)
    (M : Mat.matrix A) :
  square_of n M ->
  (forall i j : nat, (i < n)%nat -> (j < n)%nat -> Q (Mat.get d M i j)) ->
  Mat.all Q M.
Proof.
  intros Hsq H. unfold Mat.all. apply Forall_forall. intros row Hin.
  destruct (In_nth _ _ [] Hin) as (i & Hi & <-).
  apply Forall_forall. intros a Ha.
  destruct (In_nth _ _ d Ha) as (j & Hj & <-).
  destruct Hsq as [Hl Hr].
  rewrite (@square_row_length _ M n i (conj Hl Hr)) in Hj by lia.
  apply H; lia.
Qed.

Lemma get_out_of_range {A : Type} (d : A) (n : nat) (M : Mat.matrix A)
    (i j : nat) :
  square_of n M -> (n <= i)%nat \/ (n <= j)%nat -> Mat.get d M i j = d.
Proof.
  intros Hsq Hij. unfold Mat.get.
  destruct (Nat.lt_ge_cases i n) as [Hi | Hi].
  - apply nth_overflow.
    rewrite (@square_row_length _ M n i Hsq Hi). lia.
  - destruct Hsq as [Hl _]. rewrite (nth_overflow M) by lia. now destruct j.
Qed.

Lemma is_square_true {A : Type} (M : Mat.matrix A) :
  square_of (length M) M -> is_square M = true.
Proof.
  intros [_ Hr]. unfold is_square. apply forallb_forall. intros row Hin.
  rewrite Forall_forall in Hr. apply Nat.eqb_eq, Hr, Hin.
Qed.

Lemma shape1_square {A : Type} (n : nat) (M : Mat.matrix A) :
  square_of n M -> Mat.shape1 M = n.
Proof.
  intros [Hl Hr]. unfold Mat.shape1. destruct M as [| row M]; cbn in *.
  - assumption.
  - now inversion Hr.
Qed.

Lemma nth_diag {A : Type} (d : A) (n : nat) (M : Mat.matrix A) (i : nat) :
  square_of n M -> (i < n)%nat ->
  nth i (Mat.diag d M) d = Mat.get d M i i.
Proof.
  intros Hsq Hi. unfold Mat.diag, Mat.shape0.
  rewrite (shape1_square Hsq). destruct Hsq as [Hl _].
  rewrite Hl, Nat.min_id.
  rewrite (nth_indep _ d (Mat.get d M 0 0))
    by (now rewrite length_map, length_seq).
  rewrite (map_nth (fun k => Mat.get d M k k) (seq 0 n) 0%nat i).
  now rewrite seq_nth.
Qed.

Lemma nth_std (n : nat) (M : Mat.matrix Np.float64) (i : nat) :
  square_of n M -> (i < n)%nat ->
  nth i (map Np.sqrt (Mat.diag Np.NaN M)) Np.NaN
  = Np.sqrt (Mat.get Np.NaN M i i).
Proof.
  intros Hsq Hi.
  change Np.NaN with (Np.sqrt Np.NaN) at 2.
  rewrite map_nth. now rewrite (nth_diag _ Hsq Hi).
Qed.

(** The correlation entry of a covariance entry between two positive
    variances. *)
Lemma unit_entry (x vi vj : R) :
  0 < vi -> 0 < vj ->
  exists y : R,
    Np.clip
      (Np.div (Np.Fin x) (Np.mul (Np.sqrt (Np.Fin vi)) (Np.sqrt (Np.Fin vj))))
      (Np.Fin (-1)) (Np.Fin 1) = Np.Fin y
    /\ -1 <= y <= 1
    /\ (-1 <= x / (sqrt vi * sqrt vj) <= 1 -> y = x / (sqrt vi * sqrt vj)).
Proof.
  intros Hi Hj.
  rewrite !sqrt_Fin by lra. cbn [Np.mul Np.div].
  pose proof (sqrt_lt_R0 _ Hi) as Hsi. pose proof (sqrt_lt_R0 _ Hj) as Hsj.
  destruct (Req_dec_T (sqrt vi * sqrt vj) 0) as [Hz | _]; [nra |].
  apply clip_Fin. lra.
Qed.

Lemma cov2corr_spec (cov : Mat.matrix Np.float64) :
  covariance_matrix cov ->
  exists M : Mat.matrix Np.float64,
    cov2corr cov = Ok M /\ length M = length cov /\ correlation_matrix M.
Proof.
  intros (Hsq & Hsym & Hfin & Hdiag).
  set (n := length cov) in *.
  unfold cov2corr. rewrite (is_square_true Hsq). fold n.
  eexists. split; [reflexivity |].
  set (f := fun (i j : nat) (c : Np.float64) => _).
  assert (Hlen : length (mapij f cov) = n) by apply mapij_length.
  assert (Hsq' : square_of n (mapij f cov)) by now apply mapij_square.
  assert (Hentry : forall i j : nat, (i < n)%nat -> (j < n)%nat ->
            exists (x vi vj y : R),
              Mat.get Np.NaN cov i j = Np.Fin x
              /\ Mat.get Np.NaN cov i i = Np.Fin vi
              /\ Mat.get Np.NaN cov j j = Np.Fin vj
              /\ 0 < vi /\ 0 < vj
              /\ Mat.get Np.NaN (mapij f cov) i j = Np.Fin y
              /\ -1 <= y <= 1
              /\ (-1 <= x / (sqrt vi * sqrt vj) <= 1 ->
                  y = x / (sqrt vi * sqrt vj))).
  { intros i j Hi Hj.
    destruct (Hdiag i Hi) as (vi & Hvi & Hpi).
    destruct (Hdiag j Hj) as (vj & Hvj & Hpj).
    pose proof (@all_get _ Np.is_finite Np.NaN n cov i j Hsq Hfin Hi Hj) as Hx.
    destruct (Mat.get Np.NaN cov i j) as [x | | |] eqn:Hget; try contradiction.
    destruct (unit_entry x Hpi Hpj) as (y & Hy & Hr & Hid).
    exists x, vi, vj, y. repeat split; try assumption; try lra.
    rewrite (get_mapij f Np.NaN Np.NaN Hsq Hi Hj), Hget. unfold f.
    now rewrite !(nth_std Hsq) by assumption; rewrite Hvi, Hvj. }
  split; [exact Hlen |].
  unfold correlation_matrix, dependence_matrix. rewrite Hlen.
  repeat split.
  - exact Hlen.
  - now destruct Hsq' as [_ Hr].
  - intros i j.
    destruct (Nat.lt_ge_cases i n) as [Hi | Hi];
      [destruct (Nat.lt_ge_cases j n) as [Hj | Hj] |].
    + destruct (Hentry i j Hi Hj)
        as (x & vi & vj & y & Hx & Hvi & Hvj & Hpi & Hpj & _).
      rewrite !(get_mapij f Np.NaN Np.NaN Hsq) by assumption.
      unfold f. rewrite (Hsym j i).
      rewrite !(nth_std Hsq) by assumption. rewrite Hvi, Hvj.
      rewrite !sqrt_Fin by lra.
      cbn [Np.mul]. now rewrite Rmult_comm.
    + rewrite !(@get_out_of_range _ Np.NaN n) by (auto; lia). reflexivity.
    + rewrite !(@get_out_of_range _ Np.NaN n) by (auto; lia). reflexivity.
  - apply (@all_of_get _ _ Np.NaN n _ Hsq').
    intros i j Hi Hj.
    destruct (Hentry i j Hi Hj) as (x & vi & vj & y & _ & _ & _ & _ & _ & Hy & _).
    rewrite Hy. discriminate.
  - intros i Hi.
    destruct (Hentry i i Hi Hi)
      as (x & vi & vj & y & Hx & Hvi & Hvj & Hpi & Hpj & Hy & _ & Hid).
    rewrite Hvi in Hx, Hvj. inversion Hx; subst x. inversion Hvj; subst vj.
    rewrite Hy. f_equal.
    assert (Hone : vi / (sqrt vi * sqrt vi) = 1).
    { rewrite sqrt_sqrt by lra. field. lra. }
    rewrite Hid by (rewrite Hone; lra). exact Hone.
Qed.

End Cov2Corr.

(** ** What the fill loops return *)

Section FillFacts.

Open Scope R_scope.

Lemma fill_symmetric_all (Q : Np.float64 -> Prop) (n : nat)
    (init : Np.float64) (entry : nat -> nat -> result Np.float64)
    (M : Mat.matrix Np.float64) :
  Q init ->
  (forall (i j : nat) (v : Np.float64), entry i j = Ok v -> Q v) ->
  fill_symmetric n init entry = Ok M -> Mat.all Q M.
Proof.
  intros Hinit Hentry Hrun. unfold fill_symmetric in Hrun.
  assert (H : square_of n M /\ Mat.all Q M); [| tauto].
  eapply (@foldM_invariant _ _ _ (fun M => square_of n M /\ Mat.all Q M));
    [ | | exact Hrun].
  - intros M0 [i j] M1 Hin [Hsh Hall] Hstep.
    apply triu_indices_bound in Hin.
    destruct (entry i j) as [v | e] eqn:Hv; [| discriminate].
    cbn in Hstep. inversion Hstep; subst. split.
    + now apply set_shape, set_shape.
    + assert (Hget : Mat.get Np.NaN (Mat.set M0 i j v) i j = v).
      { rewrite get_set, !Nat.eqb_refl.
        rewrite (@square_row_length _ M0 n i Hsh) by lia.
        destruct Hsh as [-> _].
        assert (Hi : (i <? n)%nat = true) by (apply Nat.ltb_lt; lia).
        assert (Hj : (j <? n)%nat = true) by (apply Nat.ltb_lt; lia).
        now rewrite Hi, Hj. }
      rewrite Hget. pose proof (Hentry _ _ _ Hv) as Hq.
      apply all_set; [apply all_set |]; assumption.
  - split; [apply full_shape | now apply all_full].
Qed.

Lemma clip_tail_range (a : Np.float64) :
  Np.is_finite a -> exists y : R, clip_tail a = Np.Fin y /\ 0 < y <= 1.
Proof.
  destruct a as [x | | |]; cbn [Np.is_finite]; try tauto. intros _.
  unfold clip_tail. rewrite round_to_Fin.
  assert (Hlo : 0 < / 10 ^ 8) by (apply Rinv_0_lt_compat, pow10_pos).
  assert (Hb : / 10 ^ 8 <= 1).
  { rewrite <- Rinv_1. apply Rinv_le_contravar; [lra |].
    rewrite pow10_8. lra. }
  destruct (@clip_Fin (IZR (Np.rint (x * 10 ^ 8)) / 10 ^ 8) _ _ Hb)
    as (y & Hy & Hr & _).
  exists y. split; [exact Hy | lra].
Qed.

Lemma ltd_entry_finite {P : Platform} (X : Mat.matrix Np.float64) (k : Z)
    (i j : nat) (v : Np.float64) :
  (0 < k)%Z -> ltd_entry X k i j = Ok v -> Np.is_finite v.
Proof.
  intros Hk. unfold ltd_entry.
  destruct (nth_error _ _) as [u |]; [| discriminate].
  destruct (nth_error _ _) as [w |]; [| discriminate].
  intros H. inversion H; subst. unfold Np.of_nat, Np.of_Z, Np.div.
  destruct (Req_dec_T (IZR k) 0) as [H0 | _]; [| exact I].
  apply eq_IZR_R0 in H0. lia.
Qed.

(** The matrix [ltdi_matrix] returns is square and symmetric, with every
    entry finite, positive and at most 1. *)
Lemma ltdi_matrix_spec {P : Platform} (X : Mat.matrix Np.float64)
    (alpha : Np.float64) (M : Mat.matrix Np.float64) :
  ltdi_matrix X alpha = Ok M ->
  square_of (Mat.shape1 X) M
  /\ Mat.symmetric Np.NaN M
  /\ Mat.all (fun e => exists y : R, e = Np.Fin y /\ 0 < y <= 1) M.
Proof.
  unfold ltdi_matrix.
  set (n := Mat.shape1 X).
  set (k := Np.int32 int32_invalid _).
  intros Hrun.
  assert (Hpre : exists mat : Mat.matrix Np.float64,
             M = Mat.map clip_tail mat
             /\ square_of n mat /\ Mat.symmetric Np.NaN mat
             /\ Mat.all Np.is_finite mat).
  { destruct (Z.ltb_spec 0 k) as [Hk | Hk].
    - destruct (fill_symmetric n (Np.Fin 1) (ltd_entry X k)) as [mat1 | e]
        eqn:Hfill; [| discriminate].
      cbn [bind] in Hrun.
      destruct (foldM _ (seq 0 n) mat1) as [mat | e] eqn:Hdiag;
        [| discriminate].
      cbn [bind] in Hrun. inversion Hrun; subst M. exists mat.
      split; [reflexivity |].
      destruct (fill_symmetric_spec _ _ _ Hfill) as [Hsq1 Hsym1].
      assert (Hfin1 : Mat.all Np.is_finite mat1).
      { eapply fill_symmetric_all with (Q := Np.is_finite);
          [ | | exact Hfill].
        - exact I.
        - intros i j v. now apply ltd_entry_finite. }
      eapply (@foldM_invariant _ _ _
                (fun mat => square_of n mat /\ Mat.symmetric Np.NaN mat
                            /\ Mat.all Np.is_finite mat));
        [ | | exact Hdiag]; [| split; [exact Hsq1 | split; assumption]].
      intros M0 i M1 _ (Hsq & Hsym & Hfin) Hstep.
      destruct (ltd_entry X k i i) as [v | e] eqn:Hv; [| discriminate].
      cbn in Hstep. inversion Hstep; subst M1.
      split; [now apply set_shape | split].
      + now apply set_diag_symmetric.
      + apply all_set; [assumption |]. now apply (ltd_entry_finite _ _ _ Hk Hv).
    - cbn [bind] in Hrun. inversion Hrun; subst M.
      exists (Mat.full n n (Np.Fin 1)).
      split; [reflexivity |].
      split; [apply full_shape | split; [apply full_symmetric |]].
      now apply all_full. }
  destruct Hpre as (mat & -> & Hsq & Hsym & Hfin).
  split; [now apply map_square | split].
  - apply map_symmetric with (d := Np.NaN) (n := n); assumption.
  - eapply all_map_impl; [| exact Hfin]. apply clip_tail_range.
Qed.

(** With [alpha = 0] the loops are skipped. *)
Lemma ltdi_matrix_zero {P : Platform} (X : Mat.matrix Np.float64) :
  ltdi_matrix X (Np.Fin 0)
  = Ok (Mat.full (Mat.shape1 X) (Mat.shape1 X) (Np.Fin 1)).
Proof.
  unfold ltdi_matrix. cbn [Np.mul Np.of_nat Np.ceil].
  rewrite Rmult_0_r.
  replace (Zceil 0) with 0%Z by (symmetry; apply Zceil_eq; simpl; lra).
  rewrite int32_of_IZR by (unfold Np.int32_min, Np.int32_max; lia).
  cbn [Z.ltb Z.compare bind].
  now rewrite map_full, clip_tail_one.
Qed.

End FillFacts.

(** ** [ltdi_matrix] at [alpha = 0] *)

Section TailDependenceFacts.

Context {P : Platform}.

(** C6: [ltdi_matrix(X, alpha=0)] is the all-ones matrix with as many rows
    and columns as [X] has columns, whatever the values in [X]: [k] is
    [ceil(n_samples * 0) = 0], the loops are skipped and the final rounding
    and clipping leave the ones as they are. *)
Theorem ltdi_matrix_alpha_zero (X : Mat.matrix Np.float64) :
  ltdi_matrix X (Np.Fin 0)
  = Ok (Mat.full (Mat.shape1 X) (Mat.shape1 X) (Np.Fin 1)).
Proof. apply ltdi_matrix_zero. Qed.

End TailDependenceFacts.

(** ** [codep_dist]: the distance matrix *)

Section DistanceMatrix.

Context {P : Platform} {K : InfoKernels} {C : CodepKernels}.

Open Scope R_scope.

Lemma length_mat_map {A B : Type} (f : A -> B) (M : Mat.matrix A) :
  length (Mat.map f M) = length M.
Proof. apply length_map. Qed.

Lemma tail_distance (X : Mat.matrix Np.float64) (alpha : Np.float64)
    (M : Mat.matrix Np.float64) :
  ltdi_matrix X alpha = Ok M ->
  Mat.symmetric Np.NaN (Mat.map dist_log M)
  /\ Mat.all (fun e => Np.le (Np.Fin 0) e) (Mat.map dist_log M).
Proof.
  intros Hrun. destruct (ltdi_matrix_spec _ _ Hrun) as (Hsq & Hsym & Hall).
  split.
  - apply map_symmetric with (d := Np.NaN) (n := Mat.shape1 X); assumption.
  - eapply all_map_impl; [| exact Hall].
    intros a (y & -> & Hy). now apply dist_log_nonneg.
Qed.

End DistanceMatrix.

(** ** [codep_dist] on concrete inputs *)

Lemma codep_dist_unknown_kind_witness :
  let X := [[Np.Fin 1; Np.Fin 2]; [Np.Fin 3; Np.Fin 4]]%R in
  codep_dist_branches X None "euclidean"%string (BinsStr "KN"%string) (Np.Fin (5 / 100)) (1 / 2)
  = Ok None
  /\ codep_dist X None "euclidean"%string (BinsStr "KN"%string) (Np.Fin (5 / 100)) (1 / 2)
     = Raise UnboundLocalError.
Proof.
  intros X.
  apply (@codep_dist_unknown_kind x86_64 Ref.kernels reference_codep_kernels).
  unfold codependence_kinds. cbn [In]. intros H.
  repeat (destruct H as [H | H]; [discriminate H |]). exact H.
Defined.

(** A covariance matrix of two assets. *)
Lemma cov2_covariance :
  covariance_matrix [[Np.Fin 4; Np.Fin 2]; [Np.Fin 2; Np.Fin 9]]%R.
Proof.
  repeat split.
  - repeat constructor.
  - intros i j.
    assert (Hsq : square_of 2 [[Np.Fin 4; Np.Fin 2]; [Np.Fin 2; Np.Fin 9]]%R)
      by repeat constructor.
    destruct (Nat.lt_ge_cases i 2) as [Hi | Hi];
      [destruct (Nat.lt_ge_cases j 2) as [Hj | Hj] |].
    + destruct i as [| [| i]]; destruct j as [| [| j]]; try lia; reflexivity.
    + rewrite !(@get_out_of_range _ Np.NaN 2) by (auto; lia). reflexivity.
    + rewrite !(@get_out_of_range _ Np.NaN 2) by (auto; lia). reflexivity.
  - repeat constructor.
  - intros i Hi. cbn in Hi.
    destruct i as [| [| i]]; [exists 4%R | exists 9%R | lia]; cbn;
      split; try reflexivity; lra.
Qed.

(** ** Sorting and searching *)

Section SortSearch.

Open Scope R_scope.

(** [sort_ltb] is a strict weak order. *)
Lemma sort_ltb_below (x m key : Np.float64) :
  Np.sort_ltb m x = false -> Np.sort_ltb m key = true ->
  Np.sort_ltb x key = true.
Proof.
  destruct x as [x | | |], m as [m | | |], key as [k | | |];
    cbn; try congruence;
    repeat match goal with
           | |- context [Rlt_dec ?a ?b] => destruct (Rlt_dec a b)
           end; try congruence; intros; lra.
Qed.

Lemma sort_ltb_above (x m key : Np.float64) :
  Np.sort_ltb x m = false -> Np.sort_ltb m key = false ->
  Np.sort_ltb x key = false.
Proof.
  destruct x as [x | | |], m as [m | | |], key as [k | | |];
    cbn; try congruence;
    repeat match goal with
           | |- context [Rlt_dec ?a ?b] => destruct (Rlt_dec a b)
           end; try congruence; intros; lra.
Qed.

Lemma sort_ltb_irrefl (x : Np.float64) : Np.sort_ltb x x = false.
Proof.
  destruct x as [x | | |]; cbn; try reflexivity.
  destruct (Rlt_dec x x); [lra | reflexivity].
Qed.

Lemma sort_ltb_asym (x y : Np.float64) :
  Np.sort_ltb x y = true -> Np.sort_ltb y x = false.
Proof.
  destruct x as [x | | |], y as [y | | |]; cbn; try congruence.
  destruct (Rlt_dec x y), (Rlt_dec y x); try congruence. lra.
Qed.

Lemma strongly_sorted_nth (a : list Np.float64) :
  StronglySorted sort_le a ->
  forall i j : nat, (i <= j < length a)%nat ->
    sort_le (nth i a Np.NaN) (nth j a Np.NaN).
Proof.
  induction 1 as [| x l Hl IH Hx]; intros i j Hij; cbn in Hij; [lia |].
  destruct i as [| i]; destruct j as [| j]; cbn [nth]; try lia.
  - apply sort_ltb_irrefl.
  - rewrite Forall_forall in Hx. apply Hx, nth_In. lia.
  - apply IH. lia.
Qed.

Lemma bisect_left_spec (fuel : nat) (a : list Np.float64) (key : Np.float64) :
  StronglySorted sort_le a ->
  forall lo hi : nat,
    (lo <= hi <= length a)%nat -> (hi - lo <= fuel)%nat ->
    (forall i : nat, (i < lo)%nat ->
       Np.sort_ltb (nth i a Np.NaN) key = true) ->
    (forall i : nat, (hi <= i < length a)%nat ->
       Np.sort_ltb (nth i a Np.NaN) key = false) ->
    let r := bisect_left fuel a key lo hi in
    (r <= length a)%nat
    /\ (forall i : nat, (i < r)%nat ->
          Np.sort_ltb (nth i a Np.NaN) key = true)
    /\ (forall i : nat, (r <= i < length a)%nat ->
          Np.sort_ltb (nth i a Np.NaN) key = false).
Proof.
  intros Hsorted. pose proof (strongly_sorted_nth Hsorted) as Hnth.
  induction fuel as [| fuel IH]; intros lo hi Hb Hf Hlo Hhi;
    cbv zeta in *; cbn [bisect_left].
  - assert (lo = hi) by lia. subst. repeat split; auto; lia.
  - destruct (Nat.ltb_spec lo hi) as [Hlt | Hge].
    + set (mid := (lo + (hi - lo) / 2)%nat).
      assert (Hmid : (lo <= mid < hi)%nat).
      { unfold mid. split; [lia |].
        assert ((hi - lo) / 2 < hi - lo)%nat by (apply Nat.div_lt; lia). lia. }
      destruct (Np.sort_ltb (nth mid a Np.NaN) key) eqn:Hm.
      * apply IH; try lia; [| assumption].
        intros i Hi. apply (@sort_ltb_below _ (nth mid a Np.NaN)); auto.
        apply Hnth. lia.
      * apply IH; try lia; [assumption |].
        intros i Hi. apply (@sort_ltb_above _ (nth mid a Np.NaN)); auto.
        apply Hnth. lia.
    + assert (lo = hi) by lia. subst. repeat split; auto; lia.
Qed.

Lemma count_if_split {A : Type} (f : A -> bool) (d : A) (a : list A) (r : nat) :
  (r <= length a)%nat ->
  (forall i : nat, (i < r)%nat -> f (nth i a d) = true) ->
  (forall i : nat, (r <= i < length a)%nat -> f (nth i a d) = false) ->
  count_if f a = r.
Proof.
  unfold count_if. revert r. induction a as [| x l IH]; intros r Hr Ht Hf.
  - cbn in *. lia.
  - cbn [filter]. destruct r as [| r].
    + assert (H0 : f x = false) by (apply (Hf 0%nat); cbn; lia).
      rewrite H0.
      apply (IH 0%nat); [lia | intros; lia |].
      intros i Hi. apply (Hf (S i)). cbn. lia.
    + assert (H0 : f x = true) by (apply (Ht 0%nat); lia).
      rewrite H0. cbn [length]. f_equal.
      apply IH; [cbn in Hr; lia | |].
      * intros i Hi. apply (Ht (S i)). lia.
      * intros i Hi. apply (Hf (S i)). cbn. lia.
Qed.

(** On an ascending array [searchsorted] counts the entries before the
    key. *)
Lemma searchsorted_count (a : list Np.float64) (key : Np.float64) :
  StronglySorted sort_le a ->
  searchsorted a key = count_if (fun x => Np.sort_ltb x key) a.
Proof.
  intros Hs. unfold searchsorted.
  destruct (@bisect_left_spec (length a) a key Hs 0%nat (length a))
    as (Hr & Ht & Hf); try lia; try (intros i Hi; lia).
  symmetry. now apply count_if_split with (d := Np.NaN).
Qed.

Lemma count_if_perm {A : Type} (f : A -> bool) (l l' : list A) :
  Permutation l l' -> count_if f l = count_if f l'.
Proof.
  unfold count_if. induction 1 as [| x l l' _ IH | x y l | l l' l'' _ IH1 _ IH2];
    cbn; try reflexivity.
  - destruct (f x); cbn; now rewrite IH.
  - destruct (f x), (f y); reflexivity.
  - now rewrite IH1.
Qed.

Lemma count_if_complement {A : Type} (f g : A -> bool) (l : list A) :
  (forall a : A, In a l -> g a = negb (f a)) ->
  (count_if f l + count_if g l = length l)%nat.
Proof.
  unfold count_if. induction l as [| x l IH]; intros H; [reflexivity |].
  cbn [filter]. rewrite (H x) by now left.
  specialize (IH (fun a Ha => H a (or_intror Ha))).
  destruct (f x); cbn; lia.
Qed.

Lemma insert_index_perm (v : list Np.float64) (i : nat) (l : list nat) :
  Permutation (insert_index v i l) (i :: l).
Proof.
  induction l as [| j t IH]; cbn; [reflexivity |].
  destruct (Np.sort_ltb _ _); [reflexivity |].
  rewrite IH. apply perm_swap.
Qed.

Lemma insert_index_sorted (v : list Np.float64) (i : nat) (l : list nat) :
  StronglySorted sort_le (map (fun k => nth k v Np.NaN) l) ->
  StronglySorted sort_le (map (fun k => nth k v Np.NaN) (insert_index v i l)).
Proof.
  induction l as [| j t IH]; intros Hs; cbn.
  - repeat constructor.
  - cbn in Hs. apply StronglySorted_inv in Hs as [Ht Hj].
    destruct (Np.sort_ltb (nth i v Np.NaN) (nth j v Np.NaN)) eqn:Hij.
    + cbn. constructor; [constructor; assumption |].
      constructor; [now apply sort_ltb_asym |].
      eapply Forall_impl; [| exact Hj].
      intros x Hx. unfold sort_le in *.
      apply (@sort_ltb_above _ (nth j v Np.NaN)); auto.
      now apply sort_ltb_asym.
    + cbn. constructor; [now apply IH |].
      assert (Hp : Permutation
                     (map (fun k => nth k v Np.NaN) (insert_index v i t))
                     (nth i v Np.NaN :: map (fun k => nth k v Np.NaN) t)).
      { change (nth i v Np.NaN :: map (fun k => nth k v Np.NaN) t)
          with (map (fun k => nth k v Np.NaN) (i :: t)).
        apply Permutation_map, insert_index_perm. }
      eapply Permutation_Forall; [symmetry; exact Hp |].
      constructor; assumption.
Qed.

Lemma argsort_spec (v : list Np.float64) :
  Permutation (map (fun k => nth k v Np.NaN) (argsort v)) v
  /\ StronglySorted sort_le (map (fun k => nth k v Np.NaN) (argsort v)).
Proof.
  unfold argsort.
  assert (H : forall (idx l : list nat),
             StronglySorted sort_le (map (fun k => nth k v Np.NaN) l) ->
             Permutation (fold_left (fun l i => insert_index v i l) idx l)
               (idx ++ l)
             /\ StronglySorted sort_le
                  (map (fun k => nth k v Np.NaN)
                     (fold_left (fun l i => insert_index v i l) idx l))).
  { induction idx as [| i idx IH]; intros l Hl; cbn.
    - split; [reflexivity | assumption].
    - destruct (IH (insert_index v i l) (insert_index_sorted v i l Hl))
        as [Hp Hs].
      split; [| assumption].
      rewrite Hp. rewrite insert_index_perm.
      apply Permutation_sym, Permutation_middle. }
  destruct (H (seq 0 (length v)) [] ltac:(constructor)) as [Hp Hs].
  split; [| assumption].
  rewrite app_nil_r in Hp.
  rewrite (Permutation_map _ Hp).
  replace (map (fun k => nth k v Np.NaN) (seq 0 (length v))) with v;
    [reflexivity |].
  clear. induction v as [| x v IH]; [reflexivity |].
  cbn. f_equal. rewrite <- seq_shift, map_map. exact IH.
Qed.

End SortSearch.

(** ** [denoiseCov]: the number of factors *)

Section NumberOfFactors.

Context {S : SpectralKernels}.

Open Scope R_scope.

Lemma map_nth_seq {A : Type} (d : A) (v : list A) :
  map (fun k => nth k v d) (seq 0 (length v)) = v.
Proof.
  induction v as [| x v IH]; [reflexivity |].
  cbn. f_equal. rewrite <- seq_shift, map_map. exact IH.
Qed.

Lemma diagflat_length {A : Type} (z : A) (v : list A) :
  length (Mat.diagflat z v) = length v.
Proof. unfold Mat.diagflat. now rewrite length_map, length_seq. Qed.

Lemma diag_diagflat {A : Type} (z d : A) (v : list A) :
  Mat.diag d (Mat.diagflat z v) = v.
Proof.
  unfold Mat.diag, Mat.shape0, Mat.shape1.
  rewrite diagflat_length.
  assert (Hrow : forall i : nat, (i < length v)%nat ->
            nth i (Mat.diagflat z v) []
            = Mat.set_nth (repeat z (length v)) i (nth i v z)).
  { intros i Hi. unfold Mat.diagflat.
    rewrite (nth_indep _ [] ((fun k => Mat.set_nth (repeat z (length v)) k
                                           (nth k v z)) 0%nat))
      by (now rewrite length_map, length_seq).
    rewrite (map_nth (fun k => Mat.set_nth (repeat z (length v)) k (nth k v z))).
    now rewrite seq_nth. }
  assert (Hhd : length (hd [] (Mat.diagflat z v)) = length v).
  { destruct v as [| x v]; [reflexivity |].
    change (hd [] (Mat.diagflat z (x :: v)))
      with (nth 0 (Mat.diagflat z (x :: v)) []).
    rewrite Hrow by (cbn; lia). now rewrite set_nth_length, repeat_length. }
  rewrite Hhd, Nat.min_id.
  rewrite <- (map_nth_seq z v) at 2.
  apply map_ext_in. intros i Hi. apply in_seq in Hi.
  unfold Mat.get. rewrite Hrow by lia.
  rewrite nth_set_nth, Nat.eqb_refl, repeat_length.
  assert (Hlt : (i <? length v)%nat = true) by (apply Nat.ltb_lt; lia).
  now rewrite Hlt.
Qed.

(** The eigenvalues [getPCA] returns, read back in ascending order, are the
    eigenvalues of [eigh] sorted. *)
Lemma getPCA_eigenvalues (matrix : Mat.matrix Np.float64)
    (w : list Np.float64) (V : Mat.matrix Np.float64) :
  eigh matrix = Ok (w, V) ->
  exists eVal eVec : Mat.matrix Np.float64,
    getPCA matrix = Ok (eVal, eVec)
    /\ Mat.diag Np.NaN eVal
       = map (fun i => nth i w Np.NaN) (rev (argsort w))
    /\ Mat.shape0 eVal = length w
    /\ Permutation (rev (Mat.diag Np.NaN eVal)) w
    /\ StronglySorted sort_le (rev (Mat.diag Np.NaN eVal)).
Proof.
  intros He. unfold getPCA. rewrite He. cbn [bind].
  eexists. eexists. split; [reflexivity |].
  rewrite diag_diagflat. split; [reflexivity |].
  destruct (argsort_spec w) as [Hp Hs].
  split.
  - unfold Mat.shape0. rewrite diagflat_length, length_map, length_rev.
    rewrite <- (Permutation_length Hp). now rewrite length_map.
  - rewrite map_rev, rev_involutive. split; assumption.
Qed.

Lemma count_ge_of_count_lt (w : list R) (e : R) :
  (length w
   - count_if (fun x => Np.sort_ltb x (Np.Fin e)) (map Np.Fin w))%nat
  = count_if (fun x => Np.leb (Np.Fin e) x) (map Np.Fin w).
Proof.
  pose proof (@count_if_complement _
                (fun x => Np.sort_ltb x (Np.Fin e))
                (fun x => Np.leb (Np.Fin e) x) (map Np.Fin w)) as H.
  rewrite length_map in H. rewrite <- H; [lia |].
  intros a Ha. apply in_map_iff in Ha as (x & <- & _).
  unfold Np.leb, Np.sort_ltb, Np.ltb, Np.eqb.
  destruct (Rlt_dec x e), (Rlt_dec e x), (Req_dec_T e x); cbn;
    try reflexivity; lra.
Qed.

(** The count [denoiseCov] computes for finite eigenvalues and a finite
    [eMax]: the eigenvalues greater than or equal to [eMax]. *)
Lemma nFacts_count (cov corr : Mat.matrix Np.float64) (q bWidth : R)
    (w : list R) (V : Mat.matrix Np.float64) (eMax : R) (var : Np.float64) :
  cov2corr cov = Ok corr ->
  eigh corr = Ok (map Np.Fin w, V) ->
  findMaxEval
    (map (fun i => nth i (map Np.Fin w) Np.NaN) (rev (argsort (map Np.Fin w))))
    q bWidth = Ok (Np.Fin eMax, var) ->
  exists eVal eVec : Mat.matrix Np.float64,
    denoiseCov_nFacts cov q bWidth
    = Ok (eVal, eVec,
          count_if (fun x => Np.leb (Np.Fin eMax) x) (map Np.Fin w)).
Proof.
  intros Hc He Hf.
  destruct (getPCA_eigenvalues _ He) as (eVal & eVec & Hpca & Hd & Hn & Hp & Hs).
  exists eVal, eVec.
  unfold denoiseCov_nFacts. rewrite Hc. cbn [bind]. rewrite Hpca. cbn [bind].
  rewrite Hd, Hf. cbn [bind]. rewrite <- Hd. do 2 f_equal.
  rewrite Hn, length_map, (searchsorted_count _ Hs).
  rewrite (count_if_perm _ Hp). apply count_ge_of_count_lt.
Qed.

(** X25: in [denoiseCov], for finite eigenvalues and a finite [eMax],
    whatever the optimiser returned, [nFacts] is the number of eigenvalues
    of the correlation matrix that are greater than or equal to the
    Marchenko-Pastur edge [eMax] returned by [findMaxEval]: the left-sided
    [searchsorted] puts an eigenvalue equal to [eMax] among the factors. *)
Theorem denoiseCov_nFacts_counts (cov corr : Mat.matrix Np.float64)
    (q bWidth : R) (w : list R) (V : Mat.matrix Np.float64) (eMax : R)
    (var : Np.float64) :
  cov2corr cov = Ok corr ->
  eigh corr = Ok (map Np.Fin w, V) ->
  findMaxEval
    (map (fun i => nth i (map Np.Fin w) Np.NaN) (rev (argsort (map Np.Fin w))))
    q bWidth = Ok (Np.Fin eMax, var) ->
  exists eVal eVec : Mat.matrix Np.float64,
    denoiseCov_nFacts cov q bWidth
    = Ok (eVal, eVec,
          count_if (fun x => Np.leb (Np.Fin eMax) x) (map Np.Fin w)).
Proof. apply nFacts_count. Qed.

End NumberOfFactors.

(** ** [denoiseCov] on the identity covariance of two assets *)

Section IdentityRun.

Open Scope R_scope.

Lemma div_Fin (x y : R) :
  y <> 0 -> Np.div (Np.Fin x) (Np.Fin y) = Np.Fin (x / y).
Proof.
  intros Hy. unfold Np.div. destruct (Req_dec_T y 0); [contradiction |].
  reflexivity.
Qed.

Lemma clip_unit (x : R) :
  -1 <= x <= 1 -> Np.clip (Np.Fin x) (Np.Fin (-1)) (Np.Fin 1) = Np.Fin x.
Proof.
  intros Hx.
  destruct (@clip_Fin x (-1) 1 ltac:(lra)) as (y & Hy & _ & Hid).
  rewrite Hy. f_equal. now apply Hid.
Qed.

Lemma cov2corr_identity2 :
  cov2corr [[Np.Fin 1; Np.Fin 0]; [Np.Fin 0; Np.Fin 1]]
  = Ok [[Np.Fin 1; Np.Fin 0]; [Np.Fin 0; Np.Fin 1]].
Proof.
  unfold cov2corr. cbn [is_square forallb length Nat.eqb andb].
  unfold mapij. cbn [length seq combine map fst snd Mat.diag Mat.shape0
    Mat.shape1 hd Nat.min Mat.get nth].
  rewrite !sqrt_Fin by lra. rewrite sqrt_1. cbn [Np.mul].
  rewrite !div_Fin by lra.
  replace (1 / (1 * 1)) with 1 by lra.
  replace (0 / (1 * 1)) with 0 by lra.
  rewrite !clip_unit by lra. reflexivity.
Qed.

Lemma findMaxEval_quarter (ev : list Np.float64) (bWidth : R) :
  findMaxEval ev 1 bWidth = Ok (Np.Fin 1, Np.Fin (1 / 4)).
Proof.
  unfold findMaxEval. cbn [minimize diagonal_kernels bind success x0].
  unfold inv_sqrt_q, truediv.
  destruct (Req_dec_T 1 0); [lra |]. cbn [bind Np.mul].
  rewrite py_pow_half by lra.
  replace (1 / 1) with 1 by lra. rewrite sqrt_1.
  do 3 f_equal. lra.
Qed.

End IdentityRun.

Lemma findMaxEval_at_four (ev : list Np.float64) (bWidth : R) :
  findMaxEval (S := diagonal_kernels) ev 4 bWidth
  = Ok (Np.Fin (9 / 16), Np.Fin (1 / 4)).
Proof.
  unfold findMaxEval. cbn [minimize diagonal_kernels bind success x0].
  unfold inv_sqrt_q, truediv.
  destruct (Req_dec_T 4 0); [lra |]. cbn [bind Np.mul].
  rewrite py_pow_half by lra.
  replace (1 / 4) with ((1 / 2) * (1 / 2)) at 2 by lra.
  rewrite sqrt_square by lra.
  do 3 f_equal. lra.
Qed.

Lemma denoiseCov_nFacts_counts_witness :
  let cov := [[Np.Fin 1; Np.Fin 0]; [Np.Fin 0; Np.Fin 1]]%R in
  exists eVal eVec : Mat.matrix Np.float64,
    denoiseCov_nFacts (S := diagonal_kernels) cov 4 (1 / 100)
    = Ok (eVal, eVec,
          count_if (fun x => Np.leb (Np.Fin (9 / 16)) x)
            (map Np.Fin [1; 1]%R)).
Proof.
  intros cov.
  apply (@denoiseCov_nFacts_counts diagonal_kernels cov cov 4 (1 / 100)
           [1; 1]%R (Mat.diagflat (Np.Fin 0) (repeat (Np.Fin 1) 2)) (9 / 16)
           (Np.Fin (1 / 4))).
  - exact cov2corr_identity2.
  - reflexivity.
  - apply findMaxEval_at_four.
Defined.

(** ** [denoisedCorr]: the trace *)

Section DenoisedTrace.

Open Scope R_scope.

Lemma fold_left_Rplus (l : list R) (a : R) :
  fold_left Rplus l a = a + Rsum l.
Proof.
  unfold Rsum. revert a. induction l as [| x l IH]; intros a; cbn.
  - lra.
  - rewrite (IH (a + x)), (IH (0 + x)). lra.
Qed.

Lemma Rsum_cons (x : R) (l : list R) : Rsum (x :: l) = x + Rsum l.
Proof. unfold Rsum at 1. cbn. rewrite fold_left_Rplus. lra. Qed.

Lemma Rsum_app (l1 l2 : list R) : Rsum (l1 ++ l2) = Rsum l1 + Rsum l2.
Proof.
  induction l1 as [| x l1 IH]; cbn [app].
  - unfold Rsum at 2. cbn. lra.
  - rewrite !Rsum_cons, IH. lra.
Qed.

Lemma Rsum_repeat (x : R) (k : nat) : Rsum (repeat x k) = INR k * x.
Proof.
  induction k as [| k IH]; [unfold Rsum; cbn; lra |].
  cbn [repeat]. rewrite Rsum_cons, IH, S_INR. lra.
Qed.

Lemma sum_Fin (l : list R) : Np.sum (map Np.Fin l) = Np.Fin (Rsum l).
Proof.
  unfold Np.sum, Rsum. generalize 0.
  induction l as [| x l IH]; intros a; cbn; [reflexivity |]. apply IH.
Qed.

Lemma trace_diagflat (ev : list R) :
  trace (Mat.diagflat (Np.Fin 0) (map Np.Fin ev)) = Np.Fin (Rsum ev).
Proof. unfold trace. now rewrite diag_diagflat, sum_Fin. Qed.

(** The eigenvalues the two kinds rebuild the matrix from. *)
Lemma denoised_fixed (ev : list R) (k : nat) :
  (k <= length ev)%nat ->
  exists c : R,
    denoised_eigenvalues (Mat.diagflat (Np.Fin 0) (map Np.Fin ev)) k "fixed"%string
    = map Np.Fin (firstn k ev ++ repeat c (length ev - k))
    /\ INR (length ev - k) * c = Rsum (skipn k ev).
Proof.
  intros Hk. unfold denoised_eigenvalues.
  change (String.eqb "fixed"%string "fixed"%string) with true. cbv iota.
  rewrite diag_diagflat, length_map.
  rewrite skipn_map, sum_Fin. rewrite firstn_map.
  destruct (Nat.eq_dec k (length ev)) as [-> | Hne].
  - exists 0. rewrite Nat.sub_diag. cbn [repeat].
    rewrite skipn_all, !app_nil_r. split; [reflexivity |].
    unfold Rsum. cbn. lra.
  - assert (Hpos : 0 < INR (length ev - k)) by (apply lt_0_INR; lia).
    assert (Hz : IZR (Z.of_nat (length ev) - Z.of_nat k) = INR (length ev - k)).
    { rewrite <- Nat2Z.inj_sub by lia. now rewrite <- INR_IZR_INZ. }
    rewrite Hz, div_Fin by lra.
    exists (Rsum (skipn k ev) / INR (length ev - k)).
    split; [| field; lra].
    rewrite map_app. f_equal. now rewrite map_repeat.
Qed.

Lemma denoised_spectral (ev : list R) (k : nat) :
  denoised_eigenvalues (Mat.diagflat (Np.Fin 0) (map Np.Fin ev)) k "spectral"%string
  = map Np.Fin (firstn k ev ++ repeat 0 (length ev - k)).
Proof.
  unfold denoised_eigenvalues.
  change (String.eqb "spectral"%string "fixed"%string) with false.
  change (String.eqb "spectral"%string "spectral"%string) with true. cbv iota.
  rewrite diag_diagflat, length_map, firstn_map, map_app.
  f_equal. now rewrite map_repeat.
Qed.

Lemma Rsum_firstn_skipn (ev : list R) (k : nat) :
  Rsum (firstn k ev) + Rsum (skipn k ev) = Rsum ev.
Proof. rewrite <- Rsum_app. now rewrite firstn_skipn. Qed.

Lemma trace_correlation (M : Mat.matrix Np.float64) :
  correlation_matrix M -> trace M = Np.Fin (INR (length M)).
Proof.
  intros ((Hsq & _) & Hdiag). unfold trace.
  assert (Hd : Mat.diag Np.NaN M = map Np.Fin (repeat 1 (length M))).
  { unfold Mat.diag, Mat.shape0. rewrite (shape1_square Hsq), Nat.min_id.
    rewrite map_repeat.
    apply (@nth_ext _ _ _ Np.NaN Np.NaN).
    - now rewrite length_map, length_seq, repeat_length.
    - intros i Hi. rewrite length_map, length_seq in Hi.
      rewrite nth_repeat_cases.
      assert (Hlt : (i <? length M)%nat = true) by now apply Nat.ltb_lt.
      rewrite Hlt.
      rewrite (nth_indep _ Np.NaN (Mat.get Np.NaN M 0 0))
        by (now rewrite length_map, length_seq).
      rewrite (map_nth (fun k => Mat.get Np.NaN M k k)), seq_nth by assumption.
      now apply Hdiag. }
  rewrite Hd, sum_Fin, Rsum_repeat. f_equal. lra.
Qed.

Lemma denoised_spectral_sum (ev : list R) (k : nat) :
  Np.sum (denoised_eigenvalues (Mat.diagflat (Np.Fin 0) (map Np.Fin ev)) k
            "spectral"%string)
  = Np.Fin (Rsum (firstn k ev)).
Proof.
  rewrite denoised_spectral, sum_Fin, Rsum_app, Rsum_repeat. f_equal. lra.
Qed.


End DenoisedTrace.

(** ** [denoisedCorr] on a matrix of perfectly correlated assets *)

Section PerfectCorrelation.

Open Scope R_scope.

(** The all-ones correlation matrix of four assets has the eigenvalues
    4, 0, 0, 0; the columns of this matrix are orthonormal eigenvectors. *)
Lemma reconstruct_ones :
  let h := Np.Fin (1 / 2) in
  let m := Np.Fin (- (1 / 2)) in
  let eVec := [[h; h; h; h]; [h; m; h; m]; [h; h; m; m]; [h; m; m; h]] in
  reconstruct 4 (Mat.diagflat (Np.Fin 0) (map Np.Fin [4; 0; 0; 0])) eVec
  = Mat.full 4 4 (Np.Fin 1).
Proof.
  intros h m eVec.
  unfold reconstruct, dot, Mat.transpose, Mat.col, Mat.diagflat, Np.sum,
    eVec, h, m, Mat.full.
  cbn [length map seq combine fst snd nth fold_left Np.mul Np.add
         Mat.set_nth repeat].
  repeat (f_equal; try lra).
Qed.

Lemma ones_covariance : covariance_matrix (Mat.full 4 4 (Np.Fin 1)).
Proof.
  assert (Hlen : length (Mat.full 4 4 (Np.Fin 1)) = 4%nat) by reflexivity.
  unfold covariance_matrix. rewrite Hlen. repeat split.
  - repeat constructor.
  - apply full_symmetric.
  - now apply all_full.
  - intros i Hi. exists 1. split; [| lra].
    rewrite get_full. apply Nat.ltb_lt in Hi. now rewrite Hi.
Qed.

Lemma spectral_keeps_first :
  denoised_eigenvalues (Mat.diagflat (Np.Fin 0) (map Np.Fin [4; 0; 0; 0])) 1
    "spectral"%string
  = map Np.Fin [4; 0; 0; 0].
Proof. now rewrite denoised_spectral. Qed.

End PerfectCorrelation.



(** ** Cluster-count selection: inputs that are too small *)

Section SmallInputs.

Context {C : ClusterKernels}.

Lemma cluster_levels_rejects (dist clustering : Mat.matrix Np.float64) :
  linkage_contract clustering ->
  (Mat.shape1 dist < 2)%nat \/ clustering = [] ->
  cluster_levels dist clustering = Raise ValueError.
Proof.
  intros (Hempty & Honly & Hcut) Hsmall. unfold cluster_levels.
  destruct (is_monotonic clustering) as [flag | e] eqn:Hm.
  - destruct (Hcut flag eq_refl) as (tree & Ht & Hlen).
    rewrite Ht. cbn [bind].
    destruct Hsmall as [Hn | Hz].
    + destruct clustering as [| row rest].
      * specialize (Hempty eq_refl). discriminate.
      * cbn [length] in Hlen.
        destruct (Nat.eqb_spec (length tree) (Mat.shape1 dist)) as [Heq | _];
          [lia | reflexivity].
    + specialize (Hempty Hz). discriminate.
  - cbn [bind]. now rewrite (Honly e eq_refl).
Qed.

(** C8: given what SciPy's validation does with the linkage
    ([linkage_contract]), both selectors fail with [ValueError] when the
    distance matrix has fewer than 2 assets or the linkage is empty; the
    failure comes from the first two statements ([hr.is_monotonic] and the
    construction of the frame of levels), before any statistic is
    computed and whatever the number of loop iterations allowed. *)
Theorem selectors_reject_small_inputs (fuel : nat)
    (dist clustering : Mat.matrix Np.float64) (max_k : Z) :
  linkage_contract clustering ->
  (Mat.shape1 dist < 2)%nat \/ clustering = [] ->
  cluster_levels dist clustering = Raise ValueError
  /\ two_diff_gap_stat fuel dist clustering max_k = Some (Raise ValueError)
  /\ std_silhouette_score fuel dist clustering max_k = Some (Raise ValueError).
Proof.
  intros Hc Hsmall.
  pose proof (cluster_levels_rejects dist Hc Hsmall) as H.
  unfold two_diff_gap_stat, std_silhouette_score. rewrite H. auto.
Qed.

End SmallInputs.

Lemma chain_contract_empty : linkage_contract (C := chain_kernels) [].
Proof.
  unfold linkage_contract. cbn. repeat split.
  - intros e H. now inversion H.
  - intros b H. discriminate.
Qed.

Lemma selectors_reject_small_inputs_witness :
  cluster_levels [[Np.Fin 0]] [] = Raise ValueError
  /\ two_diff_gap_stat 10 [[Np.Fin 0]] [] 10 = Some (Raise ValueError)
  /\ std_silhouette_score 10 [[Np.Fin 0]] [] 10 = Some (Raise ValueError).
Proof.
  apply (@selectors_reject_small_inputs chain_kernels 10 [[Np.Fin 0]] [] 10).
  - exact chain_contract_empty.
  - left. cbn. lia.
Defined.

(** ** Cluster-count selection: the re-derivation loop *)

Section Rederivation.

Context {C : ClusterKernels}.

Lemma rederive_loop_done (fuel : nat) (clustering : Mat.matrix Np.float64)
    (k : Z) (inds : list Z) :
  rederive_loop fuel clustering k k inds = Some (k, inds).
Proof. destruct fuel; cbn; now rewrite Z.eqb_refl. Qed.

(** The loop stops at the first target count above [j] that the cut
    realises exactly. *)
Lemma rederive_loop_stops (clustering : Mat.matrix Np.float64) (d : nat) :
  forall (fuel : nat) (k j : Z) (inds : list Z),
    k <> j ->
    (forall d' : nat, (d' < d)%nat ->
       nunique (fcluster clustering (j + 1 + Z.of_nat d'))
       <> (j + 1 + Z.of_nat d')%Z) ->
    nunique (fcluster clustering (j + 1 + Z.of_nat d))
    = (j + 1 + Z.of_nat d)%Z ->
    (d < fuel)%nat ->
    rederive_loop fuel clustering k j inds
    = Some ((j + 1 + Z.of_nat d)%Z,
            fcluster clustering (j + 1 + Z.of_nat d)).
Proof.
  induction d as [| d IH]; intros fuel k j inds Hkj Hbefore Hat Hfuel.
  - destruct fuel as [| fuel]; [lia |]. cbn [rederive_loop].
    apply Z.eqb_neq in Hkj. rewrite Hkj.
    replace (j + 1 + Z.of_nat 0)%Z with (j + 1)%Z in * by lia.
    rewrite Hat. apply rederive_loop_done.
  - destruct fuel as [| fuel]; [lia |]. cbn [rederive_loop].
    apply Z.eqb_neq in Hkj. rewrite Hkj.
    replace (j + 1 + Z.of_nat (S d))%Z with (j + 1 + 1 + Z.of_nat d)%Z
      in * by lia.
    apply IH; [| | assumption | lia].
    + specialize (Hbefore 0%nat ltac:(lia)).
      now replace (j + 1 + Z.of_nat 0)%Z with (j + 1)%Z in Hbefore by lia.
    + intros d' Hd'. specialize (Hbefore (S d') ltac:(lia)).
      now replace (j + 1 + Z.of_nat (S d'))%Z
        with (j + 1 + 1 + Z.of_nat d')%Z in Hbefore by lia.
Qed.

(** When no target count above [j] is realised exactly the loop never
    stops. *)
Lemma rederive_loop_runs (clustering : Mat.matrix Np.float64) (fuel : nat) :
  forall (k j : Z) (inds : list Z),
    k <> j ->
    (forall d : nat,
       nunique (fcluster clustering (j + 1 + Z.of_nat d))
       <> (j + 1 + Z.of_nat d)%Z) ->
    rederive_loop fuel clustering k j inds = None.
Proof.
  induction fuel as [| fuel IH]; intros k j inds Hkj Hnever;
    cbn [rederive_loop]; apply Z.eqb_neq in Hkj; rewrite Hkj;
    [reflexivity |].
  apply IH.
  - specialize (Hnever 0%nat).
    now replace (j + 1 + Z.of_nat 0)%Z with (j + 1)%Z in Hnever by lia.
  - intros d. specialize (Hnever (S d)).
    now replace (j + 1 + Z.of_nat (S d))%Z
      with (j + 1 + 1 + Z.of_nat d)%Z in Hnever by lia.
Qed.


End Rederivation.

(** ** Cluster-count selection on a chain of four observations *)

Section ChainRun.

Open Scope R_scope.

Lemma leb_Fin_false (x y : R) : y < x -> Np.leb (Np.Fin x) (Np.Fin y) = false.
Proof.
  intros H. unfold Np.leb, Np.ltb, Np.eqb.
  destruct (Rlt_dec x y); [lra |]. destruct (Req_dec_T x y); [lra |].
  reflexivity.
Qed.

Lemma sqrt_4 : sqrt (INR 4) = 2.
Proof.
  replace (INR 4) with (2 * 2) by (simpl; lra). apply sqrt_square. lra.
Qed.

Lemma np_mean_const (c : R) (m : nat) :
  (0 < m)%nat -> np_mean (repeat (Np.Fin c) m) = Np.Fin c.
Proof.
  intros Hm. unfold np_mean, Np.of_nat. rewrite repeat_length.
  rewrite <- map_repeat, sum_Fin, Rsum_repeat.
  assert (Hn : INR m <> 0) by (apply not_0_INR; lia).
  rewrite div_Fin by assumption. f_equal. field. assumption.
Qed.

(** The standard deviation of a constant array is zero. *)
Lemma np_std_const (c : R) (m : nat) :
  (0 < m)%nat -> np_std (repeat (Np.Fin c) m) = Np.Fin 0.
Proof.
  intros Hm. unfold np_std. rewrite (np_mean_const c Hm), map_repeat.
  cbn [Np.sub Np.opp Np.add Np.abs Np.square Np.mul].
  replace (Rabs (c + - c) * Rabs (c + - c)) with 0
    by (replace (c + - c) with 0 by lra; rewrite Rabs_R0; lra).
  rewrite (np_mean_const 0 Hm), sqrt_Fin by lra. now rewrite sqrt_0.
Qed.

Lemma within_zero_distances (level : list Z) :
  In level [[0; 0; 0; 1]; [0; 0; 1; 2]; [0; 1; 2; 3]]%Z ->
  within_dissimilarity zero_distances level = Ok (Np.Fin 0).
Proof.
  intros Hin. cbn [In] in Hin.
  destruct Hin as [<- | [<- | [<- | []]]].
  - change (within_dissimilarity zero_distances [0; 0; 0; 1]%Z)
      with (Ok (Np.sum [Np.nan_to_num (np_std (repeat (Np.Fin 0) 3))])).
    rewrite np_std_const by lia. cbn. do 2 f_equal. lra.
  - change (within_dissimilarity zero_distances [0; 0; 1; 2]%Z)
      with (Ok (Np.sum [Np.nan_to_num (np_std (repeat (Np.Fin 0) 1))])).
    rewrite np_std_const by lia. cbn. do 2 f_equal. lra.
  - reflexivity.
Qed.

Lemma chain_bound : k_bound 10 (Mat.shape0 zero_distances) = 2.
Proof.
  change (Mat.shape0 zero_distances) with 4%nat.
  unfold k_bound. rewrite sqrt_4.
  destruct (Rlt_dec 2 (IZR 10)); [reflexivity | lra].
Qed.

Lemma chain_gap_statistics :
  statistics (within_dissimilarity zero_distances) chain_frame (2 + 2)
    [1; 2; 3; 4]%Z
  = Ok [Np.NInf; Np.Fin 0; Np.Fin 0; Np.Fin 0].
Proof.
  cbn [statistics Z.eqb Pos.eqb].
  destruct (Rlt_dec (2 + 2) (IZR 2)); [lra |].
  destruct (Rlt_dec (2 + 2) (IZR 3)); [lra |].
  destruct (Rlt_dec (2 + 2) (IZR 4)); [lra |].
  change (level_with chain_frame 2) with [0; 0; 0; 1]%Z.
  change (level_with chain_frame 3) with [0; 0; 1; 2]%Z.
  change (level_with chain_frame 4) with [0; 1; 2; 3]%Z.
  rewrite !within_zero_distances by (cbn [In]; auto).
  reflexivity.
Qed.

Lemma chain_gap_index :
  idxmax (second_differences [Np.NInf; Np.Fin 0; Np.Fin 0; Np.Fin 0]) = Ok 1%nat.
Proof. reflexivity. Qed.

End ChainRun.

(** ** Cluster-count selection on a linkage the cut cannot split *)

Section CaterpillarRun.

Open Scope R_scope.

#[local] Existing Instance caterpillar_kernels.

Lemma caterpillar_not_monotonic :
  is_monotonic inverted_caterpillar = Ok false.
Proof.
  unfold inverted_caterpillar.
  cbn [is_monotonic caterpillar_kernels Mat.col map nth nondecreasing].
  now rewrite (@leb_Fin_false 1 (1 / 2)) by lra.
Qed.

Lemma caterpillar_levels :
  cluster_levels far_sixth inverted_caterpillar
  = Ok (false, caterpillar_frame).
Proof.
  unfold cluster_levels. rewrite caterpillar_not_monotonic. reflexivity.
Qed.

Lemma sqrt_6_bounds : 2 < sqrt 6 < 3.
Proof.
  split.
  - assert (H2 : sqrt (2 * 2) = 2) by (apply sqrt_square; lra).
    rewrite <- H2. apply sqrt_lt_1_alt. lra.
  - assert (H3 : sqrt (3 * 3) = 3) by (apply sqrt_square; lra).
    rewrite <- H3. apply sqrt_lt_1_alt. lra.
Qed.

Lemma caterpillar_bound : k_bound 10 (Mat.shape0 far_sixth) = sqrt 6.
Proof.
  change (Mat.shape0 far_sixth) with 6%nat. unfold k_bound.
  replace (INR 6) with 6 by (simpl; lra).
  pose proof sqrt_6_bounds.
  destruct (Rlt_dec (sqrt 6) (IZR 10)); [reflexivity | lra].
Qed.

(** Inside every cluster of the three levels the distances are all 0. *)
Lemma within_far_sixth (level : list Z) :
  In level [[0; 0; 0; 0; 0; 1]; [0; 0; 0; 0; 1; 2]; [0; 0; 0; 1; 2; 3]]%Z ->
  within_dissimilarity far_sixth level = Ok (Np.Fin 0).
Proof.
  intros Hin. cbn [In] in Hin.
  destruct Hin as [<- | [<- | [<- | []]]].
  - change (within_dissimilarity far_sixth [0; 0; 0; 0; 0; 1]%Z)
      with (Ok (Np.sum [Np.nan_to_num (np_std (repeat (Np.Fin 0) 10))])).
    rewrite np_std_const by lia. cbn. do 2 f_equal. lra.
  - change (within_dissimilarity far_sixth [0; 0; 0; 0; 1; 2]%Z)
      with (Ok (Np.sum [Np.nan_to_num (np_std (repeat (Np.Fin 0) 6))])).
    rewrite np_std_const by lia. cbn. do 2 f_equal. lra.
  - change (within_dissimilarity far_sixth [0; 0; 0; 1; 2; 3]%Z)
      with (Ok (Np.sum [Np.nan_to_num (np_std (repeat (Np.Fin 0) 3))])).
    rewrite np_std_const by lia. cbn. do 2 f_equal. lra.
Qed.

Lemma caterpillar_gap_statistics :
  statistics (within_dissimilarity far_sixth) caterpillar_frame (sqrt 6 + 2)
    [1; 2; 3; 4; 6]%Z
  = Ok [Np.NInf; Np.Fin 0; Np.Fin 0; Np.Fin 0].
Proof.
  pose proof sqrt_6_bounds.
  cbn [statistics Z.eqb Pos.eqb].
  destruct (Rlt_dec (sqrt 6 + 2) (IZR 2)); [lra |].
  destruct (Rlt_dec (sqrt 6 + 2) (IZR 3)); [lra |].
  destruct (Rlt_dec (sqrt 6 + 2) (IZR 4)); [lra |].
  destruct (Rlt_dec (sqrt 6 + 2) (IZR 6)); [| lra].
  change (level_with caterpillar_frame 2) with [0; 0; 0; 0; 0; 1]%Z.
  change (level_with caterpillar_frame 3) with [0; 0; 0; 0; 1; 2]%Z.
  change (level_with caterpillar_frame 4) with [0; 0; 0; 1; 2; 3]%Z.
  rewrite !within_far_sixth by (cbn [In]; auto).
  reflexivity.
Qed.

Lemma Rabs_square (x : R) : Rabs x * Rabs x = x * x.
Proof. rewrite <- Rabs_mult. apply Rabs_pos_eq. nra. Qed.

(** The samples 1, 1, 1, 1, 1, 0 have the mean 5/6 and the standard
    deviation [sqrt 5 / 6]. *)
Lemma caterpillar_score :
  silhouette_score far_sixth [0; 0; 0; 0; 0; 1]%Z = Ok (Np.Fin (sqrt 5)).
Proof.
  unfold silhouette_score.
  change (silhouette_samples far_sixth [0; 0; 0; 0; 0; 1]%Z)
    with (Ok (map Np.Fin [1; 1; 1; 1; 1; 0])).
  cbn [bind].
  assert (H6 : INR 6 = 6) by (simpl; lra).
  assert (Hmean : np_mean (map Np.Fin [1; 1; 1; 1; 1; 0]) = Np.Fin (5 / 6)).
  { unfold np_mean, Np.of_nat. rewrite sum_Fin, length_map.
    cbn [length]. rewrite H6, div_Fin by lra. f_equal.
    unfold Rsum. cbn [fold_left]. lra. }
  assert (Hstd : np_std (map Np.Fin [1; 1; 1; 1; 1; 0])
                 = Np.Fin (sqrt 5 / 6)).
  { unfold np_std. rewrite Hmean. rewrite map_map.
    cbn [map Np.sub Np.opp Np.add Np.abs Np.square Np.mul].
    rewrite !Rabs_square.
    change [Np.Fin ((1 + - (5 / 6)) * (1 + - (5 / 6)));
            Np.Fin ((1 + - (5 / 6)) * (1 + - (5 / 6)));
            Np.Fin ((1 + - (5 / 6)) * (1 + - (5 / 6)));
            Np.Fin ((1 + - (5 / 6)) * (1 + - (5 / 6)));
            Np.Fin ((1 + - (5 / 6)) * (1 + - (5 / 6)));
            Np.Fin ((0 + - (5 / 6)) * (0 + - (5 / 6)))]
      with (map Np.Fin
              [(1 + - (5 / 6)) * (1 + - (5 / 6));
               (1 + - (5 / 6)) * (1 + - (5 / 6));
               (1 + - (5 / 6)) * (1 + - (5 / 6));
               (1 + - (5 / 6)) * (1 + - (5 / 6));
               (1 + - (5 / 6)) * (1 + - (5 / 6));
               (0 + - (5 / 6)) * (0 + - (5 / 6))]).
    unfold np_mean, Np.of_nat. rewrite sum_Fin, length_map.
    cbn [length]. rewrite H6, div_Fin by lra.
    unfold Rsum. cbn [fold_left].
    replace ((0 + (1 + - (5 / 6)) * (1 + - (5 / 6))
              + (1 + - (5 / 6)) * (1 + - (5 / 6))
              + (1 + - (5 / 6)) * (1 + - (5 / 6))
              + (1 + - (5 / 6)) * (1 + - (5 / 6))
              + (1 + - (5 / 6)) * (1 + - (5 / 6))
              + (0 + - (5 / 6)) * (0 + - (5 / 6))) / 6)
      with (5 / (6 * 6)) by lra.
    rewrite sqrt_Fin by lra. f_equal.
    rewrite sqrt_div_alt by lra. now rewrite sqrt_square by lra. }
  rewrite Hmean, Hstd.
  assert (Hs : 0 < sqrt 5) by (apply sqrt_lt_R0; lra).
  rewrite div_Fin by lra. do 2 f_equal.
  rewrite <- (sqrt_sqrt 5) at 1 by lra. field. lra.
Qed.

Lemma caterpillar_silhouette_statistics :
  statistics (silhouette_score far_sixth) caterpillar_frame (sqrt 6)
    [1; 2; 3; 4; 6]%Z
  = Ok [Np.NInf; Np.Fin (sqrt 5)].
Proof.
  pose proof sqrt_6_bounds.
  cbn [statistics Z.eqb Pos.eqb].
  destruct (Rlt_dec (sqrt 6) (IZR 2)); [lra |].
  destruct (Rlt_dec (sqrt 6) (IZR 3)); [| lra].
  change (level_with caterpillar_frame 2) with [0; 0; 0; 0; 0; 1]%Z.
  now rewrite caterpillar_score.
Qed.

Lemma caterpillar_silhouette_index :
  idxmax [Np.NInf; Np.Fin (sqrt 5)] = Ok 1%nat.
Proof. reflexivity. Qed.

(** The cut realises one cluster at every target count, so the loop
    started at the chosen [k = 2] is still running after any number of
    iterations. *)
Lemma caterpillar_rederive_runs (fuel : nat) :
  rederive fuel inverted_caterpillar 2 = None.
Proof.
  unfold rederive.
  rewrite rederive_loop_runs; [reflexivity | cbn; lia |].
  intros d.
  change (nunique (fcluster inverted_caterpillar
                     (nunique (fcluster inverted_caterpillar 2) + 1
                      + Z.of_nat d))) with 1%Z.
  change (nunique (fcluster inverted_caterpillar 2)) with 1%Z. lia.
Qed.

(** Both selectors choose the level with two clusters, which the cut never
    realises. *)
Lemma caterpillar_gap_runs (fuel : nat) :
  two_diff_gap_stat fuel far_sixth inverted_caterpillar 10 = None.
Proof.
  unfold two_diff_gap_stat. rewrite caterpillar_levels, caterpillar_bound.
  change (map (fun lc : nat * list Z => nunique (snd lc)) caterpillar_frame)
    with [1; 2; 3; 4; 6]%Z.
  rewrite caterpillar_gap_statistics. unfold choose_level.
  rewrite chain_gap_index. cbn [nth_error caterpillar_frame].
  change (nunique [0; 0; 0; 0; 0; 1]%Z) with 2%Z.
  now rewrite caterpillar_rederive_runs.
Qed.

Lemma caterpillar_silhouette_runs (fuel : nat) :
  std_silhouette_score fuel far_sixth inverted_caterpillar 10 = None.
Proof.
  unfold std_silhouette_score. rewrite caterpillar_levels, caterpillar_bound.
  change (map (fun lc : nat * list Z => nunique (snd lc)) caterpillar_frame)
    with [1; 2; 3; 4; 6]%Z.
  rewrite caterpillar_silhouette_statistics. unfold choose_level.
  rewrite caterpillar_silhouette_index. cbn [nth_error caterpillar_frame].
  change (nunique [0; 0; 0; 0; 0; 1]%Z) with 2%Z.
  now rewrite caterpillar_rederive_runs.
Qed.

End CaterpillarRun.



(** * Further properties *)

(** ** Lists of blocks of one length *)

Section UniformBlocks.

Local Open Scope nat_scope.

Variable A : Type.

Lemma length_flat_map_uniform (f : nat -> list A) (m n s : nat) :
  (forall j, s <= j < s + n -> length (f j) = m) ->
  length (flat_map f (seq s n)) = n * m.
Proof.
  revert s. induction n as [| n IH]; intros s Hlen; [reflexivity |].
  cbn [seq flat_map]. rewrite length_app.
  rewrite IH by (intros j Hj; apply Hlen; lia).
  rewrite Hlen by lia. reflexivity.
Qed.

Lemma nth_flat_map_uniform (f : nat -> list A) (m n : nat) (d : A) :
  (forall j, j < n -> length (f j) = m) ->
  forall j i, j < n -> i < m ->
    nth (j * m + i) (flat_map f (seq 0 n)) d = nth i (f j) d.
Proof.
  induction n as [| n IH]; intros Hlen j i Hj Hi; [lia |].
  rewrite seq_S, flat_map_app. cbn [flat_map Nat.add]. rewrite app_nil_r.
  assert (Hpre : length (flat_map f (seq 0 n)) = n * m).
  { apply length_flat_map_uniform. intros k Hk. apply Hlen. lia. }
  destruct (Nat.eq_dec j n) as [-> | Hne].
  - rewrite app_nth2 by (rewrite Hpre; lia). rewrite Hpre.
    f_equal. lia.
  - rewrite app_nth1 by (rewrite Hpre; nia).
    apply IH; [intros k Hk; apply Hlen; lia | lia | exact Hi].
Qed.

End UniformBlocks.

(** ** [block_vec_pq] *)

Section BlockVec.

Local Open Scope nat_scope.

Lemma divides_both_true (m n p q : nat) :
  0 < p -> 0 < q ->
  divides_both (Z.of_nat (m * p)) (Z.of_nat (n * q)) (Z.of_nat p) (Z.of_nat q)
  = Ok true.
Proof.
  intros Hp Hq. unfold divides_both.
  destruct (Z.eqb_spec (Z.of_nat p) 0) as [H | _]; [lia |].
  rewrite !Nat2Z.inj_mul, !Z_mod_mult. cbn [Z.eqb negb].
  destruct (Z.eqb_spec (Z.of_nat q) 0) as [H | _]; [lia | reflexivity].
Qed.

Lemma length_block (M : Mat.matrix Np.float64) (p q i j : nat) :
  (i + 1) * p <= length M -> length (block M p q i j) = p.
Proof.
  intros H. unfold block.
  rewrite length_map, length_firstn, length_skipn. lia.
Qed.

Lemma get_block (M : Mat.matrix Np.float64) (p q i j r c : nat) :
  (i + 1) * p <= length M -> r < p -> c < q ->
  Mat.get Np.NaN (block M p q i j) r c = Mat.get Np.NaN M (i * p + r) (j * q + c).
Proof.
  intros H Hr Hc. unfold Mat.get, block.
  rewrite (nth_indep _ [] (firstn q (skipn (j * q) [])))
    by (rewrite length_map, length_firstn, length_skipn; lia).
  rewrite (map_nth (fun row => firstn q (skipn (j * q) row))).
  rewrite nth_firstn, nth_skipn.
  destruct (Nat.ltb_spec c q) as [_ | Hge]; [| lia].
  rewrite nth_firstn, nth_skipn.
  destruct (Nat.ltb_spec r p) as [_ | Hge]; [reflexivity | lia].
Qed.

Lemma length_vec_F (q : nat) (B : Mat.matrix Np.float64) :
  length (vec_F q B) = q * length B.
Proof.
  unfold vec_F. apply length_flat_map_uniform.
  intros c _. unfold Mat.col. apply length_map.
Qed.

Lemma nth_vec_F (q : nat) (B : Mat.matrix Np.float64) (r c : nat) :
  r < length B -> c < q ->
  nth (c * length B + r) (vec_F q B) Np.NaN = Mat.get Np.NaN B r c.
Proof.
  intros Hr Hc. unfold vec_F.
  rewrite (@nth_flat_map_uniform _ _ (length B) q)
    by (try (intros; unfold Mat.col; apply length_map); assumption).
  unfold Mat.col, Mat.get.
  rewrite (nth_indep _ Np.NaN (nth c [] Np.NaN)) by (rewrite length_map; lia).
  now rewrite (map_nth (fun row => nth c row Np.NaN)).
Qed.

(** X1: [block_vec_pq] on an array of [m * p] rows and [n * q] columns
    (for positive [p] and [q]) returns an array of [m * n] rows and [p * q]
    columns; its row [j * m + i] is the block [(i, j)] listed column after
    column: the entry [c * p + r] of that row is [A[i * p + r, j * q + c]]. *)
Theorem block_vec_pq_entries (A : array_arg) (M : Mat.matrix Np.float64)
    (p q m n : nat) :
  A = Frame M \/ A = Ndarray M ->
  0 < p -> 0 < q ->
  Mat.shape0 M = m * p -> Mat.shape1 M = n * q ->
  exists B : Mat.matrix Np.float64,
    block_vec_pq A (Z.of_nat p) (Z.of_nat q) = Ok B
    /\ length B = n * m
    /\ Forall (fun row => length row = p * q) B
    /\ forall i j r c : nat,
         i < m -> j < n -> r < p -> c < q ->
         Mat.get Np.NaN B (j * m + i) (c * p + r)
         = Mat.get Np.NaN M (i * p + r) (j * q + c).
Proof.
  intros HA Hp Hq Hrows Hcols.
  set (row_of := fun j i : nat => vec_F q (block M p q i j)).
  exists (flat_map (fun j => map (row_of j) (seq 0 m)) (seq 0 n)).
  assert (Hblock : forall i j, i < m -> length (block M p q i j) = p).
  { intros i j Hi. apply length_block. unfold Mat.shape0 in Hrows. nia. }
  repeat split.
  - assert (Hrun : forall A', A' = Frame M \/ A' = Ndarray M ->
               block_vec_pq A' (Z.of_nat p) (Z.of_nat q)
               = Ok (flat_map (fun j => map (row_of j) (seq 0 m)) (seq 0 n))).
    { intros A' [-> | ->]; unfold block_vec_pq;
        rewrite Hrows, Hcols, divides_both_true by assumption; cbn [bind];
        (destruct (Z.ltb_spec (Z.of_nat p * Z.of_nat q) 0) as [H | _]; [nia |]);
        rewrite !Nat2Z.inj_mul, !Z.div_mul, !Nat2Z.id by lia; reflexivity. }
    now apply Hrun.
  - apply length_flat_map_uniform. intros j _.
    now rewrite length_map, length_seq.
  - apply Forall_forall. intros row Hin.
    apply in_flat_map in Hin as (j & _ & Hin).
    apply in_map_iff in Hin as (i & <- & Hi). apply in_seq in Hi.
    unfold row_of. rewrite length_vec_F, Hblock by lia. lia.
  - intros i j r c Hi Hj Hr Hc. unfold Mat.get at 1.
    rewrite (@nth_flat_map_uniform _ _ m n)
      by (try (intros; now rewrite length_map, length_seq); assumption).
    rewrite (nth_indep _ [] (row_of j 0%nat))
      by (rewrite length_map, length_seq; assumption).
    rewrite (map_nth (row_of j)), seq_nth by assumption. cbn [Nat.add].
    unfold row_of. rewrite <- (Hblock i j Hi) at 1.
    rewrite nth_vec_F by (rewrite ?Hblock by assumption; assumption).
    apply get_block; [unfold Mat.shape0 in Hrows; nia | assumption ..].
Qed.

End BlockVec.

(** ** [round_values] *)

Section RoundValues.

Local Open Scope R_scope.

Lemma ten_to_pos (d : Z) : 0 < powerRZ 10 d.
Proof. apply powerRZ_lt. lra. Qed.

Lemma floor_scaled (x s : R) :
  0 < s ->
  let r := IZR (Zfloor (x * s)) / s in
  r <= x /\ x - r < / s /\ (0 <= x -> 0 <= r).
Proof.
  intros Hs r. pose proof (Zfloor_bound (x * s)) as [Hlo Hhi].
  assert (Hr : r * s = IZR (Zfloor (x * s))) by (unfold r; field; lra).
  assert (Hi : / s * s = 1) by (field; lra).
  assert (His : 0 < / s) by (apply Rinv_0_lt_compat; exact Hs).
  repeat split.
  - apply Rmult_le_reg_r with s; [exact Hs | lra].
  - apply Rmult_lt_reg_r with s; [exact Hs |].
    replace ((x - r) * s) with (x * s - r * s) by ring. lra.
  - intros Hx. apply Rmult_le_reg_r with s; [exact Hs |].
    rewrite Hr, Rmult_0_l. apply IZR_le.
    apply Zfloor_lub. simpl. apply Rmult_le_pos; lra.
Qed.

Lemma ceil_scaled (x s : R) :
  0 < s ->
  let r := IZR (Zceil (x * s)) / s in
  x <= r /\ r - x < / s /\ (x <= 0 -> r <= 0).
Proof.
  intros Hs r.
  pose proof (floor_scaled (- x) Hs) as (H1 & H2 & H3). cbv zeta in *.
  assert (Hr : r = - (IZR (Zfloor (- x * s)) / s)).
  { unfold r. replace (- x * s) with (- (x * s)) by ring.
    rewrite ZfloorN, opp_IZR. field. lra. }
  rewrite Hr. repeat split; [lra | lra |].
  intros Hx. assert (0 <= - x) as H0 by lra. specialize (H3 H0). lra.
Qed.

Lemma leb_zero_Fin (x : R) :
  Np.leb (Np.Fin 0) (Np.Fin x) = if Rle_dec 0 x then true else false.
Proof.
  unfold Np.leb, Np.ltb, Np.eqb.
  destruct (Rlt_dec 0 x), (Req_dec_T 0 x), (Rle_dec 0 x);
    try reflexivity; lra.
Qed.

Lemma scaled_Fin (f : R -> Z) (x s : R) :
  0 < s ->
  Np.div (Np.Fin (IZR (f (x * s)))) (Np.Fin s) = Np.Fin (IZR (f (x * s)) / s).
Proof. intros Hs. apply div_Fin. lra. Qed.

(** One finite entry: the rounded value, and how far it is from the entry. *)
Lemma round_toward_Fin (d : Z) (x : R) :
  exists r : R,
    round_toward d (Np.Fin x) = Np.Fin r
    /\ r * powerRZ 10 d = IZR (if Rle_dec 0 x then Zfloor (x * powerRZ 10 d)
                               else Zceil (x * powerRZ 10 d))
    /\ 0 <= x * r /\ Rabs r <= Rabs x /\ Rabs (r - x) < / powerRZ 10 d.
Proof.
  pose proof (ten_to_pos d) as Hs.
  unfold round_toward, ten_to. rewrite leb_zero_Fin.
  cbn [Np.mul np_floor Np.ceil].
  destruct (Rle_dec 0 x) as [Hx | Hx].
  - rewrite (scaled_Fin Zfloor) by exact Hs. eexists. split; [reflexivity |].
    pose proof (floor_scaled x Hs) as (H1 & H2 & H3). cbv zeta in *.
    specialize (H3 Hx). split; [field; lra |].
    split; [apply Rmult_le_pos; assumption |].
    split; [rewrite !Rabs_pos_eq by lra; lra |].
    rewrite Rabs_left1 by lra. lra.
  - rewrite (scaled_Fin Zceil) by exact Hs. eexists. split; [reflexivity |].
    pose proof (ceil_scaled x Hs) as (H1 & H2 & H3). cbv zeta in *.
    assert (x <= 0) as Hx' by lra. specialize (H3 Hx').
    split; [field; lra |].
    split; [replace (x * _) with ((- x) * - (IZR (Zceil (x * powerRZ 10 d))
                                               / powerRZ 10 d)) by ring;
            apply Rmult_le_pos; lra |].
    split; [rewrite !Rabs_left1 by lra; lra |].
    rewrite Rabs_pos_eq by lra. lra.
Qed.

Lemma round_away_Fin (d : Z) (x : R) :
  exists r : R,
    round_away d (Np.Fin x) = Np.Fin r
    /\ r * powerRZ 10 d = IZR (if Rle_dec 0 x then Zceil (x * powerRZ 10 d)
                               else Zfloor (x * powerRZ 10 d))
    /\ 0 <= x * r /\ Rabs x <= Rabs r /\ Rabs (r - x) < / powerRZ 10 d.
Proof.
  pose proof (ten_to_pos d) as Hs.
  unfold round_away, ten_to. rewrite leb_zero_Fin.
  cbn [Np.mul np_floor Np.ceil].
  destruct (Rle_dec 0 x) as [Hx | Hx].
  - rewrite (scaled_Fin Zceil) by exact Hs. eexists. split; [reflexivity |].
    pose proof (ceil_scaled x Hs) as (H1 & H2 & _). cbv zeta in *.
    split; [field; lra |].
    split; [apply Rmult_le_pos; lra |].
    split; [rewrite !Rabs_pos_eq by lra; lra |].
    rewrite Rabs_pos_eq by lra. lra.
  - rewrite (scaled_Fin Zfloor) by exact Hs. eexists. split; [reflexivity |].
    pose proof (floor_scaled x Hs) as (H1 & H2 & _). cbv zeta in *.
    split; [field; lra |].
    split; [replace (x * _) with ((- x) * - (IZR (Zfloor (x * powerRZ 10 d))
                                               / powerRZ 10 d)) by ring;
            apply Rmult_le_pos; lra |].
    split; [rewrite !Rabs_left1 by lra; lra |].
    rewrite Rabs_left1 by lra. lra.
Qed.


End RoundValues.

Section BlockVecErrors.

Local Open Scope Z_scope.

(** X4: for positive [p] and [q], [block_vec_pq] returns an array exactly
    when [p] divides the number of rows and [q] the number of columns, and
    raises [ValueError] otherwise; a value that is not an array is rejected
    with [ValueError]; [p = 0] raises [ZeroDivisionError], and so does
    [q = 0] unless [p] fails to divide the number of rows, in which case
    the [ValueError] comes first. *)
Theorem block_vec_pq_divisibility (M : Mat.matrix Np.float64) (p q : Z) :
  let rows := Z.of_nat (Mat.shape0 M) in
  let cols := Z.of_nat (Mat.shape1 M) in
  block_vec_pq NotAnArray p q = Raise ValueError
  /\ block_vec_pq (Ndarray M) 0 q = Raise ZeroDivisionError
  /\ (p <> 0 -> rows mod p <> 0 ->
      block_vec_pq (Ndarray M) p 0 = Raise ValueError)
  /\ (p <> 0 -> rows mod p = 0 ->
      block_vec_pq (Ndarray M) p 0 = Raise ZeroDivisionError)
  /\ (0 < p -> 0 < q ->
      (rows mod p = 0 /\ cols mod q = 0 ->
       is_ok (block_vec_pq (Ndarray M) p q) = true)
      /\ (rows mod p <> 0 \/ cols mod q <> 0 ->
          block_vec_pq (Ndarray M) p q = Raise ValueError)).
Proof.
  intros rows cols. unfold block_vec_pq, divides_both. fold rows cols.
  split; [reflexivity |]. split; [reflexivity |].
  split; [| split].
  - intros Hp Hrow.
    destruct (Z.eqb_spec p 0); [contradiction |].
    destruct (Z.eqb_spec (rows mod p) 0); [contradiction | reflexivity].
  - intros Hp Hrow.
    destruct (Z.eqb_spec p 0); [contradiction |].
    rewrite Hrow. reflexivity.
  - intros Hp Hq. split.
    + intros [Hrow Hcol].
      destruct (Z.eqb_spec p 0); [lia |]. rewrite Hrow. cbn [Z.eqb negb].
      destruct (Z.eqb_spec q 0); [lia |]. rewrite Hcol. cbn [Z.eqb bind].
      destruct (Z.ltb_spec (p * q) 0); [nia | reflexivity].
    + intros Hbad.
      destruct (Z.eqb_spec p 0); [lia |].
      destruct (Z.eqb_spec (rows mod p) 0) as [Hrow | Hrow]; cbn [negb bind];
        [| reflexivity].
      destruct (Z.eqb_spec q 0); [lia |].
      destruct (Z.eqb_spec (cols mod q) 0) as [Hcol | Hcol]; cbn [bind];
        [| reflexivity].
      destruct Hbad; contradiction.
Qed.

End BlockVecErrors.

(** ** [color_list] *)

Section ColorListFacts.

Local Open Scope nat_scope.

Variables (rgb hex : Type).
Variable rgb2hex : rgb -> hex.

Lemma mapM_ok {A B : Type} (f : A -> result B) (g : A -> B) (l : list A) :
  (forall a, In a l -> f a = Ok (g a)) -> mapM f l = Ok (map g l).
Proof.
  induction l as [| a l IH]; intros H; [reflexivity |].
  cbn [mapM map]. rewrite (H a) by (left; reflexivity). cbn [bind].
  rewrite IH by (intros b Hb; apply H; right; exact Hb). reflexivity.
Qed.

Lemma cmap_colors_ok (cmap : list rgb) (count : nat) (d : rgb) :
  count <= length cmap ->
  cmap_colors rgb2hex cmap count
  = Ok (map (fun i => rgb2hex (nth i cmap d)) (seq 0 count)).
Proof.
  intros Hlen. unfold cmap_colors. apply mapM_ok.
  intros i Hi. apply in_seq in Hi.
  destruct (nth_error cmap i) as [c |] eqn:Hc.
  - now rewrite (nth_error_nth _ _ d Hc).
  - apply nth_error_None in Hc. lia.
Qed.

Lemma length_list_times {A : Type} (l : list A) (n : nat) :
  length (list_times l n) = n * length l.
Proof.
  induction n as [| n IH]; [reflexivity |].
  cbn [list_times]. rewrite length_app, IH. lia.
Qed.

Lemma ceil_sixtieth (k : Z) : Zceil (IZR k / 60) = ((k + 59) / 60)%Z.
Proof.
  apply Zceil_eq.
  pose proof (Z.div_mod (k + 59) 60 ltac:(lia)) as Hdiv.
  pose proof (Z.mod_pos_bound (k + 59) 60 ltac:(lia)) as Hmod.
  set (z := ((k + 59) / 60)%Z) in *.
  assert (Hlo : (60 * z - 60 < k)%Z) by lia.
  assert (Hhi : (k <= 60 * z)%Z) by lia.
  apply IZR_lt in Hlo. apply IZR_le in Hhi.
  rewrite ?minus_IZR, ?mult_IZR in *. split; lra.
Qed.

Variables tab10 tab20 tab20b tab20c : list rgb.

(** X5: with colormaps that have the colours [color_list] indexes (10 of
    ["tab10"], 20 of each of the others), [color_list(k)] returns at least
    [k] colours: 10, 20, 40 or 60 of them for [k] up to 10, 20, 40 and 60,
    and the 60 colours repeated [ceil(k / 60)] times for a larger [k]. *)
Theorem color_list_enough (k : Z) :
  10 <= length tab10 -> 20 <= length tab20 ->
  20 <= length tab20b -> 20 <= length tab20c ->
  exists colors : list hex,
    color_list rgb2hex tab10 tab20 tab20b tab20c k = Ok colors
    /\ (k <= Z.of_nat (length colors))%Z
    /\ length colors
       = if (k <=? 10)%Z then 10
         else if (k <=? 20)%Z then 20
         else if (k <=? 40)%Z then 40
         else if (k <=? 60)%Z then 60
         else 60 * Z.to_nat ((k + 59) / 60).
Proof.
  intros H10 H20 H20b H20c. unfold color_list.
  destruct tab10 as [| d10 ?] eqn:E10; [cbn in H10; lia |]. rewrite <- E10 in *.
  destruct tab20 as [| d20 ?] eqn:E20; [cbn in H20; lia |]. rewrite <- E20 in *.
  destruct tab20b as [| d20b ?] eqn:E20b; [cbn in H20b; lia |].
  rewrite <- E20b in *.
  destruct tab20c as [| d20c ?] eqn:E20c; [cbn in H20c; lia |].
  rewrite <- E20c in *.
  rewrite (cmap_colors_ok tab10 d10 H10), (cmap_colors_ok tab20 d20 H20),
    (cmap_colors_ok tab20b d20b H20b), (cmap_colors_ok tab20c d20c H20c).
  cbn [bind].
  destruct (Z.leb_spec k 10) as [Hk10 | Hk10].
  { eexists. split; [reflexivity |]. rewrite length_map, length_seq.
    split; [lia | reflexivity]. }
  destruct (Z.leb_spec k 20) as [Hk20 | Hk20].
  { eexists. split; [reflexivity |]. rewrite length_map, length_seq.
    split; [lia | reflexivity]. }
  destruct (Z.leb_spec k 40) as [Hk40 | Hk40].
  { eexists. split; [reflexivity |].
    rewrite length_app, !length_map, !length_seq. split; [lia | reflexivity]. }
  destruct (Rlt_dec 1 (IZR k / 60)) as [Hbig | Hsmall].
  - assert (Hk60 : (60 < k)%Z).
    { apply lt_IZR. lra. }
    destruct (Z.leb_spec k 60) as [Hle | _]; [lia |].
    eexists. split; [reflexivity |].
    rewrite length_list_times, !length_app, !length_map, !length_seq.
    rewrite ceil_sixtieth. cbn [Nat.add].
    pose proof (Z.div_mod (k + 59) 60 ltac:(lia)) as Hdiv.
    pose proof (Z.mod_pos_bound (k + 59) 60 ltac:(lia)) as Hmod.
    split; [| lia].
    rewrite Nat2Z.inj_mul, Z2Nat.id by (apply Z.div_pos; lia). lia.
  - assert (Hk60 : (k <= 60)%Z).
    { apply le_IZR. lra. }
    destruct (Z.leb_spec k 60) as [_ | Hgt]; [| lia].
    eexists. split; [reflexivity |].
    rewrite !length_app, !length_map, !length_seq. split; [lia | reflexivity].
Qed.

End ColorListFacts.

(** ** [cov2corr] and [corr2cov] are inverse to each other *)

Section CovCorrRoundTrip.

Local Open Scope R_scope.

Lemma matrix_ext {A : Type} (d : A) (n : nat) (M N : Mat.matrix A) :
  square_of n M -> square_of n N ->
  (forall i j : nat, (i < n)%nat -> (j < n)%nat ->
     Mat.get d M i j = Mat.get d N i j) ->
  M = N.
Proof.
  intros [HlM HrM] [HlN HrN] Hget.
  apply (nth_ext _ _ [] []); [congruence |].
  intros i Hi. rewrite HlM in Hi.
  assert (HMi : length (nth i M []) = n).
  { rewrite Forall_forall in HrM. apply HrM, nth_In. lia. }
  assert (HNi : length (nth i N []) = n).
  { rewrite Forall_forall in HrN. apply HrN, nth_In. lia. }
  apply (nth_ext _ _ d d); [congruence |].
  intros j Hj. rewrite HMi in Hj. exact (Hget i j Hi Hj).
Qed.

(** The entries of [cov2corr] on a square array. *)
Lemma cov2corr_square (n : nat) (cov : Mat.matrix Np.float64) :
  square_of n cov ->
  exists M : Mat.matrix Np.float64,
    cov2corr cov = Ok M
    /\ square_of n M
    /\ forall i j : nat, (i < n)%nat -> (j < n)%nat ->
         Mat.get Np.NaN M i j
         = Np.clip
             (Np.div (Mat.get Np.NaN cov i j)
                (Np.mul (Np.sqrt (Mat.get Np.NaN cov i i))
                   (Np.sqrt (Mat.get Np.NaN cov j j))))
             (Np.Fin (-1)) (Np.Fin 1).
Proof.
  intros Hsq. pose proof Hsq as [Hl _].
  unfold cov2corr. rewrite is_square_true by (now rewrite Hl).
  eexists. split; [reflexivity |]. split; [now apply mapij_square |].
  intros i j Hi Hj.
  rewrite (get_mapij _ Np.NaN Np.NaN Hsq Hi Hj).
  now rewrite !(nth_std Hsq) by assumption.
Qed.

Lemma corr2cov_square (n : nat) (corr : Mat.matrix Np.float64)
    (std : list Np.float64) :
  square_of n corr ->
  square_of n (corr2cov corr std)
  /\ forall i j : nat, (i < n)%nat -> (j < n)%nat ->
       Mat.get Np.NaN (corr2cov corr std) i j
       = Np.mul (Mat.get Np.NaN corr i j)
           (Np.mul (nth i std Np.NaN) (nth j std Np.NaN)).
Proof.
  intros Hsq. unfold corr2cov. split; [now apply mapij_square |].
  intros i j Hi Hj. now rewrite (get_mapij _ Np.NaN Np.NaN Hsq Hi Hj).
Qed.

(** From a covariance matrix to its correlation matrix and back, with any
    array [std] that holds the square roots of the variances. *)
Lemma corr2cov_cov2corr (cov : Mat.matrix Np.float64) (std : list Np.float64) :
  covariance_matrix cov ->
  (forall (i j : nat) (x vi vj : R),
     Mat.get Np.NaN cov i j = Np.Fin x ->
     Mat.get Np.NaN cov i i = Np.Fin vi ->
     Mat.get Np.NaN cov j j = Np.Fin vj -> x * x <= vi * vj) ->
  (forall i : nat, (i < length cov)%nat ->
     nth i std Np.NaN = Np.sqrt (Mat.get Np.NaN cov i i)) ->
  exists corr : Mat.matrix Np.float64,
    cov2corr cov = Ok corr /\ corr2cov corr std = cov.
Proof.
  intros (Hsq & Hsym & Hfin & Hdiag) Hcs Hstd.
  set (n := length cov) in *.
  destruct (cov2corr_square Hsq) as (corr & Hrun & Hsq' & Hentry).
  exists corr. split; [exact Hrun |].
  destruct (corr2cov_square std Hsq') as [Hsq'' Hback].
  apply (matrix_ext Np.NaN Hsq'' Hsq). intros i j Hi Hj.
  rewrite Hback, Hentry, !Hstd by assumption.
  destruct (Hdiag i Hi) as (vi & Hvi & Hpi).
  destruct (Hdiag j Hj) as (vj & Hvj & Hpj).
  pose proof (@all_get _ Np.is_finite Np.NaN n cov i j Hsq Hfin Hi Hj) as Hx.
  destruct (Mat.get Np.NaN cov i j) as [x | | |] eqn:Hget; try contradiction.
  rewrite Hvi, Hvj.
  destruct (unit_entry x Hpi Hpj) as (y & -> & _ & Hid).
  rewrite !sqrt_Fin by lra. cbn [Np.mul]. f_equal.
  pose proof (sqrt_lt_R0 _ Hpi) as Hsi. pose proof (sqrt_lt_R0 _ Hpj) as Hsj.
  assert (Hprod : 0 < sqrt vi * sqrt vj) by (apply Rmult_lt_0_compat; lra).
  assert (Hsqr : (sqrt vi * sqrt vj) * (sqrt vi * sqrt vj) = vi * vj).
  { replace (sqrt vi * sqrt vj * (sqrt vi * sqrt vj))
      with ((sqrt vi * sqrt vi) * (sqrt vj * sqrt vj)) by ring.
    now rewrite !sqrt_sqrt by lra. }
  specialize (Hcs i j x vi vj Hget Hvi Hvj).
  assert (Habs : - (sqrt vi * sqrt vj) <= x <= sqrt vi * sqrt vj).
  { split; nra. }
  rewrite Hid.
  - field. lra.
  - split.
    + apply Rmult_le_reg_r with (sqrt vi * sqrt vj); [exact Hprod |].
      replace (x / (sqrt vi * sqrt vj) * (sqrt vi * sqrt vj)) with x
        by (field; lra). lra.
    + apply Rmult_le_reg_r with (sqrt vi * sqrt vj); [exact Hprod |].
      replace (x / (sqrt vi * sqrt vj) * (sqrt vi * sqrt vj)) with x
        by (field; lra). lra.
Qed.



End CovCorrRoundTrip.

(** ** [denoiseCov] with a kind it does not know *)

Section DenoiseUnknownKind.

Context {S : SpectralKernels}.

Local Open Scope R_scope.


End DenoiseUnknownKind.

(** ** [ltdi_matrix]: the range of the entries and the diagonal *)

Section TailIndex.

Context {P : Platform}.

Local Open Scope R_scope.

Lemma np_insert_perm (a : Np.float64) (l : list Np.float64) :
  Permutation (np_insert a l) (a :: l).
Proof.
  induction l as [| b t IH]; cbn [np_insert]; [reflexivity |].
  destruct (Np.sort_ltb b a); [| reflexivity].
  rewrite IH. apply perm_swap.
Qed.

Lemma np_sort_perm (l : list Np.float64) : Permutation (np_sort l) l.
Proof.
  induction l as [| a l IH]; cbn [np_sort fold_right]; [reflexivity |].
  fold (np_sort l). rewrite np_insert_perm. now constructor.
Qed.

Lemma np_insert_sorted (a : Np.float64) (l : list Np.float64) :
  StronglySorted sort_le l -> StronglySorted sort_le (np_insert a l).
Proof.
  induction 1 as [| b t Hs IH Hall]; cbn [np_insert].
  - constructor; constructor.
  - destruct (Np.sort_ltb b a) eqn:Hba.
    + constructor; [exact IH |].
      apply Forall_forall. intros x Hx.
      apply (Permutation_in _ (np_insert_perm a t)) in Hx.
      destruct Hx as [<- | Hx].
      * unfold sort_le. now apply sort_ltb_asym.
      * rewrite Forall_forall in Hall. now apply Hall.
    + constructor; [now constructor |].
      constructor; [exact Hba |].
      apply Forall_forall. intros x Hx. rewrite Forall_forall in Hall.
      unfold sort_le. apply sort_ltb_above with b; [now apply Hall | exact Hba].
Qed.

Lemma np_sort_sorted (l : list Np.float64) : StronglySorted sort_le (np_sort l).
Proof.
  induction l as [| a l IH]; cbn [np_sort fold_right]; [constructor |].
  now apply np_insert_sorted.
Qed.

Lemma leb_of_not_ltb (a b : Np.float64) :
  a <> Np.NaN -> b <> Np.NaN -> Np.sort_ltb b a = false -> Np.leb a b = true.
Proof.
  intros Ha Hb. unfold Np.leb.
  destruct a as [x | | |], b as [y | | |]; try congruence;
    cbn [Np.sort_ltb Np.ltb Np.eqb orb]; try reflexivity; try discriminate.
  destruct (Rlt_dec y x), (Rlt_dec x y), (Req_dec_T x y);
    try reflexivity; try discriminate; intros _; lra.
Qed.

Lemma count_if_app {A : Type} (f : A -> bool) (l1 l2 : list A) :
  count_if f (l1 ++ l2) = (count_if f l1 + count_if f l2)%nat.
Proof. unfold count_if. now rewrite filter_app, length_app. Qed.

(** At least [k] entries of an array without NaN are not above its [k]-th
    smallest. *)
Lemma count_below_kth (x : list Np.float64) (k : nat) (u : Np.float64) :
  Forall (fun a => a <> Np.NaN) x ->
  nth_error (np_sort x) k = Some u ->
  (S k <= count_if (fun a => Np.leb a u) x)%nat.
Proof.
  intros Hnan Hu.
  rewrite (count_if_perm _ (Permutation_sym (np_sort_perm x))).
  assert (Hk : (k < length (np_sort x))%nat).
  { apply nth_error_Some. congruence. }
  assert (Hnan' : Forall (fun a => a <> Np.NaN) (np_sort x)).
  { rewrite Forall_forall in *. intros a Ha. apply Hnan.
    now apply (Permutation_in _ (np_sort_perm x)). }
  rewrite <- (firstn_skipn (S k) (np_sort x)), count_if_app.
  rewrite count_if_all.
  - rewrite firstn_length_le by lia. lia.
  - apply Forall_forall. intros a Ha.
    apply (In_nth _ _ Np.NaN) in Ha as (i & Hi & <-).
    rewrite firstn_length_le in Hi by lia.
    rewrite nth_firstn. destruct (Nat.ltb_spec i (S k)) as [_ | Hge]; [| lia].
    rewrite (Forall_forall _ _) in Hnan'.
    apply leb_of_not_ltb.
    + apply Hnan', nth_In. lia.
    + apply Hnan'. rewrite <- (nth_error_nth _ _ Np.NaN Hu). apply nth_In. lia.
    + rewrite <- (nth_error_nth _ _ Np.NaN Hu).
      apply (strongly_sorted_nth (np_sort_sorted x)). lia.
Qed.

Lemma filter_pairs (f : Np.float64 -> bool) (x : list Np.float64) :
  length (filter (fun ab => f (fst ab) && f (snd ab)) (combine x x))
  = count_if f x.
Proof.
  unfold count_if. induction x as [| a x IH]; [reflexivity |].
  cbn [combine filter fst snd]. destruct (f a); cbn [andb length]; now rewrite ?IH.
Qed.

(** A ratio of at least one is cut down to exactly one. *)
Lemma clip_tail_above (x : R) : 1 <= x -> clip_tail (Np.Fin x) = Np.Fin 1.
Proof.
  intros Hx. unfold clip_tail. rewrite round_to_Fin.
  assert (Hr : 1 <= IZR (Np.rint (x * 10 ^ 8)) / 10 ^ 8).
  { pose proof (pow10_pos 8) as Hpos.
    assert (Hm : (Np.rint (10 ^ 8) <= Np.rint (x * 10 ^ 8))%Z)
      by (apply rint_mono; nra).
    rewrite pow10_8 in Hm at 1. rewrite rint_IZR in Hm.
    apply IZR_le in Hm. rewrite <- pow10_8 in Hm.
    apply Rmult_le_reg_r with (10 ^ 8); [exact Hpos |].
    replace (IZR (Np.rint (x * 10 ^ 8)) / 10 ^ 8 * 10 ^ 8)
      with (IZR (Np.rint (x * 10 ^ 8))) by (field; lra). lra. }
  set (r := IZR (Np.rint (x * 10 ^ 8)) / 10 ^ 8) in *.
  assert (Hlo : / 10 ^ 8 <= 1).
  { rewrite <- Rinv_1. apply Rinv_le_contravar; [lra |]. rewrite pow10_8. lra. }
  unfold Np.clip, Np.maximum, Np.minimum, Np.ltb.
  destruct (Rlt_dec r (/ 10 ^ 8)); [lra |].
  destruct (Rlt_dec 1 r); [reflexivity | f_equal; lra].
Qed.

(** The bounds of what the final clip returns, whatever it is given. *)
Lemma clip_tail_bounds (a : Np.float64) (y : R) :
  clip_tail a = Np.Fin y -> / 10 ^ 8 <= y <= 1.
Proof.
  assert (Hlo : / 10 ^ 8 <= 1).
  { rewrite <- Rinv_1. apply Rinv_le_contravar; [lra |]. rewrite pow10_8. lra. }
  unfold clip_tail. destruct a as [x | | |].
  - rewrite round_to_Fin.
    destruct (@clip_Fin (IZR (Np.rint (x * 10 ^ 8)) / 10 ^ 8) _ _ Hlo)
      as (z & -> & Hz & _).
    intros H. injection H as <-. exact Hz.
  - rewrite round_to_special by (intros H; exact H).
    unfold Np.clip, Np.maximum, Np.minimum. cbn [Np.ltb].
    intros H. injection H as <-. lra.
  - rewrite round_to_special by (intros H; exact H).
    unfold Np.clip, Np.maximum, Np.minimum. cbn [Np.ltb].
    destruct (Rlt_dec 1 (/ 10 ^ 8)); [lra |].
    intros H. injection H as <-. lra.
  - rewrite round_to_special by (intros H; exact H). discriminate.
Qed.

Lemma ltdi_matrix_clipped (X : Mat.matrix Np.float64) (alpha : Np.float64)
    (M : Mat.matrix Np.float64) :
  ltdi_matrix X alpha = Ok M ->
  exists mat : Mat.matrix Np.float64, M = Mat.map clip_tail mat.
Proof.
  unfold ltdi_matrix.
  destruct (if (0 <? _)%Z then _ else _) as [mat | e]; [| discriminate].
  cbn [bind]. intros H. injection H as <-. now exists mat.
Qed.

Lemma ltdi_entries_clipped (X : Mat.matrix Np.float64) (alpha : Np.float64)
    (M : Mat.matrix Np.float64) :
  ltdi_matrix X alpha = Ok M ->
  square_of (Mat.shape1 X) M
  /\ Mat.symmetric Np.NaN M
  /\ Mat.all (fun e => exists y : R, e = Np.Fin y /\ / 10 ^ 8 <= y <= 1) M.
Proof.
  intros Hrun.
  destruct (ltdi_matrix_spec _ _ Hrun) as (Hsq & Hsym & Hall).
  destruct (ltdi_matrix_clipped _ _ Hrun) as (mat & ->).
  split; [exact Hsq |]. split; [exact Hsym |].
  unfold Mat.all in *. rewrite Forall_forall in *. intros row Hrow.
  specialize (Hall row Hrow). rewrite Forall_forall in *. intros e He.
  destruct (Hall e He) as (y & -> & _). exists y. split; [reflexivity |].
  unfold Mat.map in Hrow. apply in_map_iff in Hrow as (row0 & <- & _).
  apply in_map_iff in He as (a & Ha & _).
  now apply clip_tail_bounds with a.
Qed.

(** The loop over the diagonal, lines 661-668. *)
Lemma diag_loop (entry : nat -> result Np.float64) (n : nat) (l : list nat) :
  forall mat mat' : Mat.matrix Np.float64,
    square_of n mat ->
    (forall i : nat, In i l -> (i < n)%nat) ->
    foldM (fun mat i => v <- entry i ;; Ok (Mat.set mat i i v)) l mat = Ok mat' ->
    square_of n mat'
    /\ (forall i : nat, In i l ->
          exists v : Np.float64,
            entry i = Ok v /\ Mat.get Np.NaN mat' i i = v)
    /\ (forall i : nat, ~ In i l ->
          Mat.get Np.NaN mat' i i = Mat.get Np.NaN mat i i).
Proof.
  induction l as [| a l IH]; intros mat mat' Hsq Hin Hrun.
  - cbn in Hrun. injection Hrun as <-.
    split; [exact Hsq |]. split; [intros i [] | reflexivity].
  - cbn [foldM] in Hrun.
    destruct (entry a) as [v | e] eqn:Hv; [| discriminate].
    cbn [bind] in Hrun.
    assert (Hsq1 : square_of n (Mat.set mat a a v)) by now apply set_shape.
    destruct (IH _ _ Hsq1 (fun i Hi => Hin i (or_intror Hi)) Hrun)
      as (Hsq' & Hset & Hkeep).
    assert (Ha : (a < n)%nat) by (apply Hin; now left).
    assert (Hget : Mat.get Np.NaN (Mat.set mat a a v) a a = v).
    { rewrite get_set. destruct Hsq as [Hl Hr].
      assert (Hrow : length (nth a mat []) = n).
      { rewrite Forall_forall in Hr. apply Hr, nth_In. lia. }
      rewrite Hl, Hrow, Nat.eqb_refl.
      apply Nat.ltb_lt in Ha. now rewrite Ha. }
    split; [exact Hsq' |]. split.
    + intros i Hi.
      destruct (in_dec Nat.eq_dec i l) as [Hil | Hil]; [now apply Hset |].
      destruct Hi as [<- | Hi]; [| contradiction].
      exists v. split; [exact Hv |]. now rewrite Hkeep.
    + intros i Hi.
      rewrite Hkeep by (intros H; apply Hi; now right).
      rewrite get_set.
      destruct (Nat.eqb_spec a i) as [-> | _]; [| reflexivity].
      elim Hi. now left.
Qed.

(** The index of a column with itself, for a cut [k > 0]. *)
Lemma ltd_entry_diag (X : Mat.matrix Np.float64) (k : Z) (i : nat)
    (v : Np.float64) :
  (0 < k)%Z ->
  Forall (fun a => a <> Np.NaN) (Mat.col Np.NaN X i) ->
  ltd_entry X k i i = Ok v ->
  exists x : R, v = Np.Fin x /\ 1 <= x.
Proof.
  intros Hk Hnan. unfold ltd_entry.
  destruct (nth_error _ _) as [u |] eqn:Hu; [| discriminate].
  intros H. injection H as <-.
  rewrite (filter_pairs (fun a => Np.leb a u)).
  pose proof (count_below_kth _ Hnan Hu) as Hcount.
  set (c := count_if _ _) in *.
  unfold Np.of_nat, Np.of_Z.
  assert (Hk' : 0 < IZR k) by now apply IZR_lt.
  destruct (Req_dec_T (IZR k) 0) as [H0 | _]; [lra |].
  eexists. split; [reflexivity |].
  assert (Hc : IZR k <= INR c).
  { rewrite INR_IZR_INZ. apply IZR_le. lia. }
  apply Rmult_le_reg_r with (IZR k); [exact Hk' |].
  replace (INR c / IZR k * IZR k) with (INR c) by (field; lra). lra.
Qed.

Lemma ltdi_diagonal_one (X : Mat.matrix Np.float64) (alpha : Np.float64)
    (M : Mat.matrix Np.float64) :
  (forall i : nat, (i < Mat.shape1 X)%nat ->
     Forall (fun a => a <> Np.NaN) (Mat.col Np.NaN X i)) ->
  ltdi_matrix X alpha = Ok M ->
  forall i : nat, (i < Mat.shape1 X)%nat -> Mat.get Np.NaN M i i = Np.Fin 1.
Proof.
  intros Hnan. unfold ltdi_matrix.
  set (n := Mat.shape1 X) in *.
  set (k := Np.int32 int32_invalid _).
  intros Hrun i Hi.
  assert (Hlt : (i <? n)%nat = true) by now apply Nat.ltb_lt.
  destruct (Z.ltb_spec 0 k) as [Hk | Hk].
  - destruct (fill_symmetric n (Np.Fin 1) (ltd_entry X k)) as [mat1 | e]
      eqn:Hfill; [| discriminate].
    cbn [bind] in Hrun.
    destruct (foldM _ (seq 0 n) mat1) as [mat | e] eqn:Hdiag; [| discriminate].
    cbn [bind] in Hrun. injection Hrun as <-.
    destruct (fill_symmetric_spec _ _ _ Hfill) as [Hsq1 _].
    destruct (@diag_loop (fun i => ltd_entry X k i i) n (seq 0 n) mat1 mat Hsq1)
      as ([Hl Hr] & Hset & _); [intros j Hj; apply in_seq in Hj; lia
                               | exact Hdiag |].
    destruct (Hset i) as (v & Hv & Hget); [apply in_seq; lia |].
    destruct (ltd_entry_diag _ _ Hk (Hnan i Hi) Hv) as (x & -> & Hx).
    rewrite (get_map _ Np.NaN), Hl, Hlt.
    assert (Hrow : length (nth i mat []) = n).
    { rewrite Forall_forall in Hr. apply Hr, nth_In. lia. }
    rewrite Hrow, Hlt. cbn [andb]. rewrite Hget. now apply clip_tail_above.
  - cbn [bind] in Hrun. injection Hrun as <-.
    rewrite map_full, get_full, Hlt. cbn [andb]. apply clip_tail_one.
Qed.

Lemma length_np_sort (l : list Np.float64) : length (np_sort l) = length l.
Proof. apply Permutation_length, np_sort_perm. Qed.

(** X9: for an [alpha] above 1 (with [m * alpha] in the range of [int32])
    and an array with at least one row and one column, [ltdi_matrix] raises
    [IndexError]: the cut [k = ceil(m * alpha)] is past the end of the
    sorted column. *)
Theorem ltdi_matrix_alpha_above_one (X : Mat.matrix Np.float64) (a : R) :
  (0 < Mat.shape0 X)%nat -> (0 < Mat.shape1 X)%nat ->
  1 < a -> INR (Mat.shape0 X) * a <= IZR Np.int32_max ->
  ltdi_matrix X (Np.Fin a) = Raise IndexError.
Proof.
  intros Hm Hn Ha Hfit. unfold ltdi_matrix.
  set (m := Mat.shape0 X) in *. set (n := Mat.shape1 X) in *.
  unfold Np.of_nat. cbn [Np.mul Np.ceil].
  pose proof (Zceil_bound (INR m * a)) as [Hlo Hhi].
  set (k := Zceil (INR m * a)) in *.
  assert (Hpos : 0 < INR m) by now apply lt_0_INR.
  assert (Hkm : (Z.of_nat m < k)%Z).
  { apply lt_IZR. rewrite <- INR_IZR_INZ. nra. }
  assert (Hk32 : (k <= Np.int32_max)%Z).
  { apply Z.lt_succ_r, lt_IZR. rewrite succ_IZR. lra. }
  rewrite int32_of_IZR by (unfold Np.int32_min, Np.int32_max in *; lia).
  destruct (Z.ltb_spec 0 k) as [_ | H]; [| lia].
  assert (Hfirst : fill_symmetric n (Np.Fin 1) (ltd_entry X k)
                   = Raise IndexError).
  { unfold fill_symmetric, Mat.triu_indices.
    destruct n as [| n']; [lia |]. cbn [seq flat_map Nat.sub map app foldM].
    unfold ltd_entry at 1.
    destruct (nth_error (np_sort (Mat.col Np.NaN X 0)) (Z.to_nat (k - 1)))
      eqn:Hu; [| reflexivity].
    assert (Hlen : (Z.to_nat (k - 1) < length (np_sort (Mat.col Np.NaN X 0)))%nat).
    { apply nth_error_Some. congruence. }
    rewrite length_np_sort in Hlen. unfold Mat.col in Hlen.
    rewrite length_map in Hlen. fold (Mat.shape0 X) in Hlen. fold m in Hlen.
    lia. }
  now rewrite Hfirst.
Qed.



End TailIndex.

(** ** [codep_dist]: the range of the distances *)

Section DistanceRange.

Context {P : Platform} {K : InfoKernels} {C : CodepKernels}.

Local Open Scope R_scope.

Lemma clip_unit_interval (a : R) :
  Np.clip (Np.Fin a) (Np.Fin 0) (Np.Fin 1) = Np.Fin (Rmin (Rmax a 0) 1).
Proof.
  unfold Np.clip, Np.maximum, Np.minimum, Np.ltb, Rmin, Rmax.
  destruct (Rle_dec a 0);
  repeat match goal with
         | |- context [Rlt_dec ?x ?y] => destruct (Rlt_dec x y)
         | |- context [Rle_dec ?x ?y] => destruct (Rle_dec x y)
         end; try lra; f_equal; lra.
Qed.

Lemma root_of_clip (a : Np.float64) :
  (Np.sqrt (Np.clip a (Np.Fin 0) (Np.Fin 1)) = Np.NaN <-> a = Np.NaN)
  /\ (a <> Np.NaN ->
      exists d : R,
        Np.sqrt (Np.clip a (Np.Fin 0) (Np.Fin 1)) = Np.Fin d /\ 0 <= d <= 1).
Proof.
  assert (Hfin : a <> Np.NaN ->
            exists d : R,
              Np.sqrt (Np.clip a (Np.Fin 0) (Np.Fin 1)) = Np.Fin d
              /\ 0 <= d <= 1).
  { intros Ha.
    destruct (@clip_bounds a 0 1 Ha ltac:(lra)) as (y & -> & Hy).
    rewrite sqrt_Fin by lra. eexists. split; [reflexivity |].
    split; [apply sqrt_pos |].
    rewrite <- sqrt_1. apply sqrt_le_1_alt. lra. }
  split; [| exact Hfin]. split.
  - intros H. destruct a as [x | | |]; try reflexivity;
      (destruct Hfin as (d & Hd & _); [discriminate | congruence]).
  - intros ->. reflexivity.
Qed.

Lemma root_of_clip_mono (a b : R) :
  a <= b ->
  Np.le (Np.sqrt (Np.clip (Np.Fin a) (Np.Fin 0) (Np.Fin 1)))
        (Np.sqrt (Np.clip (Np.Fin b) (Np.Fin 0) (Np.Fin 1))).
Proof.
  intros Hab. rewrite !clip_unit_interval.
  assert (Hb : forall t : R, 0 <= Rmin (Rmax t 0) 1).
  { intros t. unfold Rmin, Rmax.
    destruct (Rle_dec t 0), (Rle_dec 0 1), (Rle_dec t 1); lra. }
  rewrite !sqrt_Fin by apply Hb. apply le_Fin, sqrt_le_1_alt.
  unfold Rmin, Rmax.
  destruct (Rle_dec a 0), (Rle_dec b 0), (Rle_dec 0 1), (Rle_dec a 1),
    (Rle_dec b 1); lra.
Qed.

Lemma sub_one_nan (c : Np.float64) : Np.sub (Np.Fin 1) c = Np.NaN <-> c = Np.NaN.
Proof. destruct c; cbn; split; congruence. Qed.

Lemma half_nan (c : Np.float64) : Np.div c (Np.Fin 2) = Np.NaN <-> c = Np.NaN.
Proof.
  split; [| now intros ->].
  intros H. destruct c as [x | | |]; try reflexivity; exfalso;
    revert H; apply div_two_not_nan; discriminate.
Qed.

(** What both formulas have in common. *)
Lemma root_distance_facts (kind : String.string) :
  (forall c : Np.float64, root_distance kind c = Np.NaN <-> c = Np.NaN)
  /\ (forall c : Np.float64, c <> Np.NaN ->
        exists d : R, root_distance kind c = Np.Fin d /\ 0 <= d <= 1)
  /\ (forall x y : R, x <= y ->
        Np.le (root_distance kind (Np.Fin y)) (root_distance kind (Np.Fin x))).
Proof.
  unfold root_distance. destruct (str_in kind _).
  - unfold dist_one. repeat split.
    + intros H. now apply sub_one_nan, root_of_clip.
    + intros ->. reflexivity.
    + intros c Hc. apply root_of_clip. now apply sub_one_not_nan.
    + intros x y Hxy. cbn [Np.sub Np.opp Np.add]. apply root_of_clip_mono. lra.
  - unfold dist_half. repeat split.
    + intros H. now apply sub_one_nan, half_nan, root_of_clip.
    + intros ->. reflexivity.
    + intros c Hc. apply root_of_clip. now apply div_two_not_nan, sub_one_not_nan.
    + intros x y Hxy. cbn [Np.sub Np.opp Np.add]. rewrite !div_Fin by lra.
      apply root_of_clip_mono. lra.
Qed.

Ltac run_kind Hb :=
  repeat
    match type of Hb with
    | context [str_in ?s ?l] =>
        let b := eval vm_compute in (str_in s l) in
        change (str_in s l) with b in Hb
    | context [String.eqb ?s ?t] =>
        let b := eval vm_compute in (String.eqb s t) in
        change (String.eqb s t) with b in Hb
    | context [drop4 ?s] =>
        let t := eval vm_compute in (drop4 s) in
        change (drop4 s) with t in Hb
    end;
  cbv iota in Hb.

Ltac one_kernel Hb :=
  match type of Hb with
  | context [bind ?c _] =>
      let e := fresh "e" in
      destruct c as [? | e]; [| discriminate Hb]; cbn [bind] in Hb
  end.

(** X12: for the ten kinds whose distance is a square root, the distance
    matrix [codep_dist] returns is the codependence matrix under the
    formula of the kind, entry by entry; an entry is NaN exactly when the
    codependence is, every other entry lies between 0 and 1 whatever the
    estimator returned, and a larger codependence never gives a larger
    distance. *)
Theorem codep_dist_unit_interval (returns : Mat.matrix Np.float64)
    (custom_cov : option (Mat.matrix Np.float64))
    (codependence : String.string) (bins_info : bins_spec)
    (alpha_tail : Np.float64) (gs_threshold : R)
    (codep dist : Mat.matrix Np.float64) :
  In codependence root_kinds ->
  codep_dist returns custom_cov codependence bins_info alpha_tail
    gs_threshold = Ok (codep, dist) ->
  dist = Mat.map (root_distance codependence) codep
  /\ Mat.all (fun e => e = Np.NaN \/ exists d : R, e = Np.Fin d /\ 0 <= d <= 1)
       dist
  /\ (forall c : Np.float64,
        root_distance codependence c = Np.NaN <-> c = Np.NaN)
  /\ (forall x y : R, x <= y ->
        Np.le (root_distance codependence (Np.Fin y))
              (root_distance codependence (Np.Fin x))).
Proof.
  intros Hin Hrun.
  destruct (root_distance_facts codependence) as (Hnan & Hrange & Hmono).
  assert (Hmap : dist = Mat.map (root_distance codependence) codep).
  { unfold codep_dist in Hrun.
    destruct (codep_dist_branches returns custom_cov codependence bins_info
                alpha_tail gs_threshold) as [[[c d] |] | e] eqn:Hb;
      cbn [bind] in Hrun; try discriminate.
    injection Hrun as -> ->.
    unfold codep_dist_branches in Hb. unfold root_kinds in Hin.
    cbn [In] in Hin.
    repeat (destruct Hin as [<- | Hin]); [.. | contradiction];
      run_kind Hb; unfold dcorr_matrix in Hb;
      try (destruct custom_cov as [cov |]; [| discriminate Hb]);
      repeat one_kernel Hb; injection Hb as <- <-; reflexivity. }
  split; [exact Hmap |]. split; [| split; assumption].
  rewrite Hmap. apply all_map. intros c.
  destruct c as [x | | |].
  - right. apply Hrange. discriminate.
  - right. apply Hrange. discriminate.
  - right. apply Hrange. discriminate.
  - left. now apply Hnan.
Qed.

End DistanceRange.

(** ** [codep_dist]: the tail dissimilarity *)

Section TailDistance.

Context {P : Platform} {K : InfoKernels} {C : CodepKernels}.

Local Open Scope string_scope.
Local Open Scope R_scope.

Lemma dist_log_Fin (y : R) : 0 < y -> dist_log (Np.Fin y) = Np.Fin (- ln y).
Proof.
  intros Hy. unfold dist_log, Np.log. now rewrite Rcompare_pos by exact Hy.
Qed.

Lemma codep_dist_tail_run (returns : Mat.matrix Np.float64)
    (custom_cov : option (Mat.matrix Np.float64)) (bins_info : bins_spec)
    (alpha_tail : Np.float64) (gs_threshold : R)
    (codep dist : Mat.matrix Np.float64) :
  codep_dist returns custom_cov "tail" bins_info alpha_tail gs_threshold
  = Ok (codep, dist) ->
  ltdi_matrix returns alpha_tail = Ok codep /\ dist = Mat.map dist_log codep.
Proof.
  unfold codep_dist, codep_dist_branches.
  change (str_in "tail" ["pearson"; "spearman"; "kendall"]%string) with false.
  change (String.eqb "tail" "gerber1") with false.
  change (String.eqb "tail" "gerber2") with false.
  change (str_in "tail" ["abs_pearson"; "abs_spearman"; "abs_kendall"]%string)
    with false.
  change (str_in "tail" ["distance"]%string) with false.
  change (str_in "tail" ["mutual_info"]%string) with false.
  change (str_in "tail" ["tail"]%string) with true.
  cbv iota.
  destruct (ltdi_matrix returns alpha_tail) as [M | e]; [| discriminate].
  cbn [bind]. intros H. injection H as <- <-. split; reflexivity.
Qed.


End TailDistance.

(** ** [mutual_info_matrix] and [var_info_matrix]: shape and the bin rule *)

Section InfoMatrixShape.

Context {P : Platform} {K : InfoKernels}.

Local Open Scope string_scope.

Lemma fill_symmetric_first_raises (n : nat) (init : Np.float64)
    (entry : nat -> nat -> result Np.float64) (e : exn) :
  (0 < n)%nat -> entry 0%nat 0%nat = Raise e ->
  fill_symmetric n init entry = Raise e.
Proof.
  intros Hn He. unfold fill_symmetric, Mat.triu_indices.
  destruct n as [| n']; [lia |].
  cbn [seq flat_map Nat.sub map app foldM]. now rewrite He.
Qed.

(** X14: the matrix [mutual_info_matrix] or [var_info_matrix] returns has as
    many rows and columns as [X] has columns and is symmetric. *)
Theorem info_matrix_shape (X : Mat.matrix Np.float64) (bins_info : bins_spec)
    (normalize : bool) (M : Mat.matrix Np.float64) :
  mutual_info_matrix X bins_info normalize = Ok M
  \/ var_info_matrix X bins_info normalize = Ok M ->
  square_of (Mat.shape1 X) M /\ Mat.symmetric Np.NaN M.
Proof.
  unfold mutual_info_matrix, var_info_matrix, mutual_info_raw, var_info_raw.
  intros [Hrun | Hrun];
    (destruct (fill_symmetric _ _ _) as [raw | e] eqn:Hfill;
       [| discriminate]);
    cbn [bind] in Hrun; injection Hrun as <-;
    destruct (fill_symmetric_spec _ _ _ Hfill) as [Hsq Hsym];
    (split; [now apply map_square
            | now apply (@map_symmetric _ _ clip_nonneg Np.NaN Np.NaN
                           (Mat.shape1 X))]).
Qed.

(** X15: a [bins_info] that is neither one of the four rule names nor an
    integer is not rejected as such: on an array with at least one column
    both functions raise [UnboundLocalError] at the first use of [bins],
    and on an array without columns they return the empty matrix. *)
Theorem info_matrix_unknown_bins (X : Mat.matrix Np.float64)
    (bins_info : bins_spec) (normalize : bool) :
  (bins_info = BinsOther
   \/ exists s : String.string,
        bins_info = BinsStr s /\ ~ In s ["KN"; "FD"; "SC"; "HGR"]) ->
  ((0 < Mat.shape1 X)%nat ->
   mutual_info_matrix X bins_info normalize = Raise UnboundLocalError
   /\ var_info_matrix X bins_info normalize = Raise UnboundLocalError)
  /\ (Mat.shape1 X = 0%nat ->
      mutual_info_matrix X bins_info normalize = Ok []
      /\ var_info_matrix X bins_info normalize = Ok []).
Proof.
  intros Hbins.
  assert (Hchoose : forall i j : nat,
            choose_bins X bins_info i j = Raise UnboundLocalError).
  { intros i j. destruct Hbins as [-> | (s & -> & Hs)]; [reflexivity |].
    unfold choose_bins. cbn [In] in Hs.
    destruct (String.eqb_spec s "KN"); [subst; tauto |].
    destruct (String.eqb_spec s "FD"); [subst; tauto |].
    destruct (String.eqb_spec s "SC"); [subst; tauto |].
    destruct (String.eqb_spec s "HGR"); [subst; tauto | reflexivity]. }
  unfold mutual_info_matrix, var_info_matrix, mutual_info_raw, var_info_raw.
  split.
  - intros Hn.
    rewrite !(@fill_symmetric_first_raises _ _ _ UnboundLocalError Hn);
      [split; reflexivity | |].
    + unfold var_info_entry, pair_information. now rewrite Hchoose.
    + unfold mutual_info_entry, pair_information. now rewrite Hchoose.
  - intros ->. split; reflexivity.
Qed.

End InfoMatrixShape.

(** ** [codep_dist]: the distance matrix of every kind *)

Section DistanceEntries.

Context {P : Platform} {K : InfoKernels} {C : CodepKernels}.

Local Open Scope string_scope.
Local Open Scope R_scope.

Lemma get_map_default {A B : Type} (f : A -> B) (d : A) (d' : B)
    (M : Mat.matrix A) (i j : nat) :
  f d = d' -> Mat.get d' (Mat.map f M) i j = f (Mat.get d M i j).
Proof.
  intros Hd. rewrite (@get_map _ _ f d d'). unfold Mat.get.
  destruct (Nat.ltb_spec i (length M)) as [Hi | Hi]; cbn [andb].
  - destruct (Nat.ltb_spec j (length (nth i M []))) as [Hj | Hj];
      [reflexivity |].
    now rewrite (nth_overflow (nth i M [])) by exact Hj.
  - rewrite (nth_overflow M) by exact Hi. now destruct j.
Qed.

Lemma map_symmetric_default {A B : Type} (f : A -> B) (d : A) (d' : B)
    (M : Mat.matrix A) :
  f d = d' -> Mat.symmetric d M -> Mat.symmetric d' (Mat.map f M).
Proof.
  intros Hd Hsym i j. rewrite !(@get_map_default _ _ f d d' M _ _ Hd).
  now rewrite (Hsym i j).
Qed.

Lemma root_distance_one (kind : String.string) :
  root_distance kind (Np.Fin 1) = Np.Fin 0.
Proof.
  unfold root_distance. destruct (str_in kind _);
    [apply dist_one_one | apply dist_half_one].
Qed.

Ltac test_kind Hb :=
  repeat
    match type of Hb with
    | context [str_in ?s ?l] =>
        let b := eval vm_compute in (str_in s l) in
        change (str_in s l) with b in Hb
    | context [String.eqb ?s ?t] =>
        let b := eval vm_compute in (String.eqb s t) in
        change (String.eqb s t) with b in Hb
    | context [drop4 ?s] =>
        let t := eval vm_compute in (drop4 s) in
        change (drop4 s) with t in Hb
    end;
  cbv iota in Hb.

Ltac run_kernel Hb :=
  match type of Hb with
  | context [bind ?c _] =>
      let e := fresh "e" in
      destruct c as [? | e]; [| discriminate Hb]; cbn [bind] in Hb
  end.

(** The ten square-root kinds: [dist] is the formula of the kind applied to
    every entry of [codep]. *)
Lemma root_kind_run (returns : Mat.matrix Np.float64)
    (custom_cov : option (Mat.matrix Np.float64))
    (codependence : String.string) (bins_info : bins_spec)
    (alpha_tail : Np.float64) (gs_threshold : R)
    (codep dist : Mat.matrix Np.float64) :
  In codependence root_kinds ->
  codep_dist returns custom_cov codependence bins_info alpha_tail
    gs_threshold = Ok (codep, dist) ->
  dist = Mat.map (root_distance codependence) codep.
Proof.
  intros Hin Hrun. unfold codep_dist in Hrun.
  destruct (codep_dist_branches returns custom_cov codependence bins_info
              alpha_tail gs_threshold) as [[[c d] |] | e] eqn:Hb;
    cbn [bind] in Hrun; try discriminate.
  injection Hrun as -> ->.
  unfold codep_dist_branches in Hb. unfold root_kinds in Hin.
  cbn [In] in Hin.
  repeat (destruct Hin as [<- | Hin]); [.. | contradiction];
    test_kind Hb; unfold dcorr_matrix in Hb;
    try (destruct custom_cov as [cov |]; [| discriminate Hb]);
    repeat run_kernel Hb; injection Hb as <- <-; reflexivity.
Qed.

(** The kind ['mutual_info']: [dist] is what [var_info_matrix] returns. *)
Lemma mutual_info_run (returns : Mat.matrix Np.float64)
    (custom_cov : option (Mat.matrix Np.float64)) (bins_info : bins_spec)
    (alpha_tail : Np.float64) (gs_threshold : R)
    (codep dist : Mat.matrix Np.float64) :
  codep_dist returns custom_cov "mutual_info" bins_info alpha_tail
    gs_threshold = Ok (codep, dist) ->
  mutual_info_matrix returns bins_info true = Ok codep
  /\ var_info_matrix returns bins_info true = Ok dist.
Proof.
  unfold codep_dist, codep_dist_branches.
  change (str_in "mutual_info" ["pearson"; "spearman"; "kendall"]%string)
    with false.
  change (String.eqb "mutual_info" "gerber1") with false.
  change (String.eqb "mutual_info" "gerber2") with false.
  change (str_in "mutual_info"
            ["abs_pearson"; "abs_spearman"; "abs_kendall"]%string) with false.
  change (str_in "mutual_info" ["distance"]%string) with false.
  change (str_in "mutual_info" ["mutual_info"]%string) with true.
  cbv iota.
  destruct (mutual_info_matrix returns bins_info true) as [M | e];
    [| discriminate].
  cbn [bind].
  destruct (var_info_matrix returns bins_info true) as [D | e];
    [| discriminate].
  cbn [bind]. intros H. injection H as <- <-. split; reflexivity.
Qed.

Lemma var_info_matrix_facts (X : Mat.matrix Np.float64)
    (bins_info : bins_spec) (normalize : bool) (M : Mat.matrix Np.float64) :
  var_info_matrix X bins_info normalize = Ok M ->
  Mat.symmetric Np.NaN M
  /\ Mat.all (fun e => e = Np.NaN \/ Np.le (Np.Fin 0) e) M.
Proof.
  unfold var_info_matrix, var_info_raw. intros Hrun.
  destruct (fill_symmetric _ _ _) as [raw | e] eqn:Hfill; [| discriminate].
  cbn [bind] in Hrun. injection Hrun as <-.
  destruct (fill_symmetric_spec _ _ _ Hfill) as [Hsq Hsym].
  split.
  - now apply (@map_symmetric _ _ clip_nonneg Np.NaN Np.NaN (Mat.shape1 X)).
  - apply all_map. intros a. destruct (clip_nonneg_spec a) as [Hnan Hpos].
    destruct a as [x | | |];
      [right; apply Hpos; discriminate | right; apply Hpos; discriminate
       | right; apply Hpos; discriminate | left; now apply Hnan].
Qed.

Lemma kinds_split (kind : String.string) :
  In kind codependence_kinds ->
  In kind root_kinds \/ kind = "mutual_info" \/ kind = "tail".
Proof.
  unfold codependence_kinds, root_kinds. cbn [In]. intros H.
  repeat (destruct H as [H | H]; [subst kind; tauto |]). contradiction.
Qed.

Lemma correlation_kinds_root (kind : String.string) :
  In kind correlation_kinds -> In kind root_kinds.
Proof.
  unfold correlation_kinds, root_kinds. cbn [In]. intros H.
  repeat (destruct H as [H | H]; [subst kind; tauto |]). contradiction.
Qed.

(** C7 (amended): for every kind of the dispatch table, whatever the
    estimators return, every entry of the distance matrix [codep_dist]
    returns is greater than or equal to 0 or NaN.  For ['tail'] no entry is
    NaN, and for ['tail'] and ['mutual_info'] the matrix is symmetric.  For
    the ten other kinds the distance is NaN exactly where the codependence
    is, and it is symmetric whenever the codependence matrix is.  For
    [pearson], [spearman], [kendall], the three [abs_] kinds and
    [custom_cov] a diagonal entry of the distance is exactly 0 wherever the
    codependence matrix has exactly 1 on its diagonal. *)
Theorem codep_dist_distance_entries (returns : Mat.matrix Np.float64)
    (custom_cov : option (Mat.matrix Np.float64))
    (codependence : String.string) (bins_info : bins_spec)
    (alpha_tail : Np.float64) (gs_threshold : R)
    (codep dist : Mat.matrix Np.float64) :
  In codependence codependence_kinds ->
  codep_dist returns custom_cov codependence bins_info alpha_tail
    gs_threshold = Ok (codep, dist) ->
  Mat.all (fun e => e = Np.NaN \/ Np.le (Np.Fin 0) e) dist
  /\ (codependence = "tail" -> Mat.all (fun e => Np.le (Np.Fin 0) e) dist)
  /\ (codependence = "tail" \/ codependence = "mutual_info" ->
      Mat.symmetric Np.NaN dist)
  /\ (In codependence root_kinds ->
      (forall i j : nat,
         Mat.get Np.NaN dist i j = Np.NaN <-> Mat.get Np.NaN codep i j = Np.NaN)
      /\ (Mat.symmetric Np.NaN codep -> Mat.symmetric Np.NaN dist))
  /\ (In codependence correlation_kinds ->
      forall i : nat,
        Mat.get Np.NaN codep i i = Np.Fin 1 ->
        Mat.get Np.NaN dist i i = Np.Fin 0).
Proof.
  intros Hin Hrun.
  destruct (root_distance_facts codependence) as (Hnan & Hrange & _).
  assert (Hroot : In codependence root_kinds ->
            dist = Mat.map (root_distance codependence) codep)
    by (intros Hr; exact (@root_kind_run _ _ _ _ _ _ _ _ Hr Hrun)).
  assert (Htail : codependence = "tail" ->
            Mat.symmetric Np.NaN dist
            /\ Mat.all (fun e => Np.le (Np.Fin 0) e) dist).
  { intros ->. destruct (codep_dist_tail_run _ _ _ _ _ Hrun) as [Hcodep ->].
    now apply (tail_distance returns alpha_tail). }
  assert (Hinfo : codependence = "mutual_info" ->
            Mat.symmetric Np.NaN dist
            /\ Mat.all (fun e => e = Np.NaN \/ Np.le (Np.Fin 0) e) dist).
  { intros ->. destruct (@mutual_info_run _ _ _ _ _ _ _ Hrun) as [_ Hdist].
    now apply (var_info_matrix_facts returns bins_info true). }
  assert (Hd : root_distance codependence Np.NaN = Np.NaN)
    by now apply Hnan.
  split; [| split; [| split; [| split]]].
  - destruct (kinds_split Hin) as [Hr | [Hm | Ht]].
    + rewrite (Hroot Hr). apply all_map. intros c.
      destruct c as [x | | |];
        [right | right | right | left; exact Hd];
        match goal with
        | |- Np.le _ (root_distance _ ?c) =>
            destruct (Hrange c) as (d & -> & Hd0 & _);
              [discriminate | now apply le_Fin]
        end.
    + exact (proj2 (Hinfo Hm)).
    + destruct (Htail Ht) as [_ Hall].
      unfold Mat.all in *. eapply Forall_impl; [| exact Hall].
      intros row Hrow. eapply Forall_impl; [| exact Hrow]. intros e He.
      now right.
  - intros Ht. exact (proj2 (Htail Ht)).
  - intros [Ht | Hm]; [exact (proj1 (Htail Ht)) | exact (proj1 (Hinfo Hm))].
  - intros Hr. rewrite (Hroot Hr). split.
    + intros i j.
      rewrite (@get_map_default _ _ (root_distance codependence) Np.NaN
                 Np.NaN codep i j Hd).
      apply Hnan.
    + now apply map_symmetric_default.
  - intros Hk i Hone.
    rewrite (Hroot (correlation_kinds_root Hk)).
    rewrite (@get_map_default _ _ (root_distance codependence) Np.NaN
               Np.NaN codep i i Hd).
    rewrite Hone. apply root_distance_one.
Qed.

End DistanceEntries.

(** ** [getPCA] and [mpPDF] *)

Section SpectralFacts.

Context {S : SpectralKernels}.

Local Open Scope R_scope.

Lemma fold_insert_index_perm (v : list Np.float64) (idx acc : list nat) :
  Permutation (fold_left (fun l i => insert_index v i l) idx acc) (idx ++ acc).
Proof.
  revert acc. induction idx as [| i idx IH]; intros acc; [reflexivity |].
  cbn [fold_left app]. rewrite IH.
  rewrite (insert_index_perm v i acc). symmetry. apply Permutation_middle.
Qed.

Lemma argsort_indices (v : list Np.float64) :
  Permutation (argsort v) (seq 0 (length v)).
Proof.
  unfold argsort. rewrite fold_insert_index_perm. now rewrite app_nil_r.
Qed.

(** X16: [getPCA] reorders what [eigh] returns without changing it: with
    [indices] a rearrangement of the positions, the eigenvalues on the
    diagonal of the first result are those of [eigh] at [indices], the
    columns of the second are the eigenvectors at the same [indices], and
    the diagonal is in descending order (in the order NumPy sorts with, NaN
    first). *)
Theorem getPCA_order (matrix : Mat.matrix Np.float64) (w : list Np.float64)
    (V : Mat.matrix Np.float64) :
  eigh matrix = Ok (w, V) ->
  exists (indices : list nat) (eVal eVec : Mat.matrix Np.float64),
    getPCA matrix = Ok (eVal, eVec)
    /\ Permutation indices (seq 0 (length w))
    /\ eVal = Mat.diagflat (Np.Fin 0) (map (fun i => nth i w Np.NaN) indices)
    /\ eVec = map (fun row => map (fun i => nth i row Np.NaN) indices) V
    /\ forall a b : nat, (a <= b < length w)%nat ->
         sort_le (nth b (Mat.diag Np.NaN eVal) Np.NaN)
                 (nth a (Mat.diag Np.NaN eVal) Np.NaN).
Proof.
  intros He. unfold getPCA. rewrite He. cbn [bind].
  exists (rev (argsort w)). eexists. eexists.
  split; [reflexivity |].
  split; [rewrite <- Permutation_rev; apply argsort_indices |].
  split; [reflexivity |]. split; [reflexivity |].
  intros a b Hab. rewrite diag_diagflat, map_rev.
  destruct (argsort_spec w) as [Hp Hs].
  set (sorted := map (fun k => nth k w Np.NaN) (argsort w)) in *.
  assert (Hlen : length sorted = length w) by now apply Permutation_length.
  rewrite !rev_nth by lia. rewrite Hlen.
  apply (strongly_sorted_nth Hs). lia.
Qed.

Lemma inv_sqrt_q_pos (q : R) : 0 < q -> inv_sqrt_q q = Ok (sqrt (1 / q)).
Proof.
  intros Hq. unfold inv_sqrt_q, truediv.
  destruct (Req_dec_T q 0); [lra |]. cbn [bind].
  rewrite py_pow_half; [reflexivity |].
  apply Rlt_le. unfold Rdiv. rewrite Rmult_1_l. now apply Rinv_0_lt_compat.
Qed.

Lemma nth_map_seq {A : Type} (f : nat -> A) (n i : nat) (d : A) :
  (i < n)%nat -> nth i (map f (seq 0 n)) d = f i.
Proof.
  intros Hi. rewrite (nth_indep _ d (f 0%nat))
    by (now rewrite length_map, length_seq).
  now rewrite (map_nth f), seq_nth.
Qed.

Lemma linspace_ends (a b : R) (pts : nat) :
  (2 <= pts)%nat ->
  length (linspace (Np.Fin a) (Np.Fin b) pts) = pts
  /\ nth 0 (linspace (Np.Fin a) (Np.Fin b) pts) Np.NaN = Np.Fin a
  /\ nth (pts - 1) (linspace (Np.Fin a) (Np.Fin b) pts) Np.NaN = Np.Fin b.
Proof.
  intros Hpts. unfold linspace.
  split; [now rewrite length_map, length_seq |].
  rewrite !nth_map_seq by lia. split.
  - cbn [Nat.ltb Nat.leb andb]. unfold Np.of_nat, Np.sub.
    assert (Hn : INR (pts - 1) <> 0) by (apply not_0_INR; lia).
    cbn [Np.opp Np.add]. rewrite div_Fin by exact Hn. cbn [Np.mul INR].
    f_equal. ring.
  - destruct (Nat.ltb_spec 0 (pts - 1)) as [_ | H]; [| lia].
    now rewrite Nat.eqb_refl.
Qed.

Lemma sqrt_inv_one (q : R) : 0 < q -> (sqrt (1 / q) = 1 <-> q = 1).
Proof.
  intros Hq. split.
  - intros Hs.
    assert (Hpos : 0 <= 1 / q).
    { apply Rlt_le. unfold Rdiv. rewrite Rmult_1_l.
      now apply Rinv_0_lt_compat. }
    pose proof (sqrt_sqrt _ Hpos) as Hsq. rewrite Hs in Hsq.
    assert (Hq1 : 1 / q * q = 1) by (field; lra).
    rewrite <- Hsq in Hq1. lra.
  - intros ->. replace (1 / 1) with 1 by field. apply sqrt_1.
Qed.

(** The Marchenko-Pastur density at a point [e] of the grid. *)
Lemma mp_density_at_edge (v q a b e : R) :
  0 < v -> 0 < q -> e = a \/ e = b ->
  Np.mul
    (Np.div (Np.Fin q)
       (Np.mul (Np.mul (Np.Fin (2 * PI)) (Np.Fin v)) (Np.Fin e)))
    (Np.pow_half
       (Np.mul (Np.sub (Np.Fin b) (Np.Fin e)) (Np.sub (Np.Fin e) (Np.Fin a))))
  = if Req_dec_T e 0 then Np.NaN else Np.Fin 0.
Proof.
  intros Hv Hq He. cbn [Np.mul Np.sub Np.opp Np.add Np.pow_half].
  replace ((b + - e) * (e + - a)) with 0 by (destruct He; subst; ring).
  rewrite sqrt_Fin, sqrt_0 by lra.
  pose proof PI_RGT_0 as Hpi.
  destruct (Req_dec_T e 0) as [-> | Hne].
  - unfold Np.div. destruct (Req_dec_T (2 * PI * v * 0) 0) as [_ | H]; [| lra].
    rewrite Rcompare_pos by exact Hq. cbn [Np.inf_of Np.mul Np.sign].
    destruct (Rcompare_spec 0 0); try lra. reflexivity.
  - assert (Hd : 2 * PI * v * e <> 0).
    { apply Rmult_integral_contrapositive_currified; [| exact Hne].
      apply Rgt_not_eq. apply Rmult_lt_0_compat; lra. }
    rewrite div_Fin by exact Hd. cbn [Np.mul]. f_equal. ring.
Qed.


End SpectralFacts.

(** ** [numBins]: the univariate rule in integers *)

Section NumBinsIntegers.

Context {P : Platform}.

Local Open Scope R_scope.

Lemma cubic_mono (a b : R) :
  1 <= a -> a <= b -> a ^ 3 - a ^ 2 <= b ^ 3 - b ^ 2.
Proof.
  intros Ha Hab.
  assert (H : b ^ 3 - b ^ 2 - (a ^ 3 - a ^ 2)
              = (b - a) * (b * (b - 1) + a * (a - 1) + a * b)) by ring.
  assert (0 <= (b - a) * (b * (b - 1) + a * (a - 1) + a * b)).
  { apply Rmult_le_pos; [lra |].
    assert (0 <= b * (b - 1)) by (apply Rmult_le_pos; lra).
    assert (0 <= a * (a - 1)) by (apply Rmult_le_pos; lra).
    assert (0 <= a * b) by (apply Rmult_le_pos; lra). lra. }
  lra.
Qed.


End NumBinsIntegers.

(** ** Cluster-count selection: what is returned *)

Section UniqueLabels.

Local Open Scope Z_scope.

Lemma insert_unique_in (v x : Z) (l : list Z) :
  In x (insert_unique v l) <-> x = v \/ In x l.
Proof.
  induction l as [| u t IH]; cbn [insert_unique In]; [intuition |].
  destruct (Z.ltb_spec v u); [cbn [In]; intuition |].
  destruct (Z.eqb_spec v u) as [-> | Hne]; cbn [In]; [intuition |].
  rewrite IH. intuition.
Qed.

Lemma np_unique_in (x : Z) (l : list Z) : In x (np_unique l) <-> In x l.
Proof.
  induction l as [| v l IH]; cbn [np_unique fold_right In]; [reflexivity |].
  fold (np_unique l). rewrite insert_unique_in, IH. intuition.
Qed.

Lemma insert_unique_sorted (v : Z) (l : list Z) :
  StronglySorted Z.lt l -> StronglySorted Z.lt (insert_unique v l).
Proof.
  induction 1 as [| u t Hs IH Hall]; cbn [insert_unique].
  - constructor; constructor.
  - destruct (Z.ltb_spec v u) as [Hlt | Hge].
    + constructor; [now constructor |].
      constructor; [exact Hlt |].
      eapply Forall_impl; [| exact Hall]. cbn. intros; lia.
    + destruct (Z.eqb_spec v u) as [-> | Hne]; [now constructor |].
      constructor; [exact IH |].
      apply Forall_forall. intros x Hx. apply insert_unique_in in Hx.
      rewrite Forall_forall in Hall. destruct Hx as [-> | Hx]; [lia | auto].
Qed.

Lemma np_unique_sorted (l : list Z) : StronglySorted Z.lt (np_unique l).
Proof.
  induction l as [| v l IH]; cbn [np_unique fold_right]; [constructor |].
  now apply insert_unique_sorted.
Qed.

Lemma sorted_nodup (l : list Z) : StronglySorted Z.lt l -> NoDup l.
Proof.
  induction 1 as [| u t Hs IH Hall]; constructor; [| exact IH].
  intros Hin. rewrite Forall_forall in Hall. specialize (Hall u Hin). lia.
Qed.

Lemma index_of_lt (v : Z) (u : list Z) :
  In v u -> (index_of v u < length u)%nat /\ nth (index_of v u) u 0 = v.
Proof.
  induction u as [| a t IH]; [intros [] |]. intros Hin. cbn [index_of].
  destruct (Z.eqb_spec v a) as [-> | Hne]; cbn [length nth]; [split; [lia | easy] |].
  destruct Hin as [-> | Hin]; [contradiction |].
  destruct (IH Hin). split; [lia | assumption].
Qed.

Lemma index_of_nth (u : list Z) (i : nat) :
  NoDup u -> (i < length u)%nat -> index_of (nth i u 0) u = i.
Proof.
  intros Hnd. revert i. induction Hnd as [| a t Hnot Hnd IH]; intros i Hi;
    [cbn in Hi; lia |].
  destruct i as [| i]; cbn [nth index_of]; [now rewrite Z.eqb_refl |].
  cbn [length] in Hi.
  destruct (Z.eqb_spec (nth i t 0) a) as [Heq | _].
  - elim Hnot. rewrite <- Heq. apply nth_In. lia.
  - f_equal. apply IH. lia.
Qed.

(** The labels [np.unique(l, return_inverse=True)] returns are the numbers
    from 0 to one less than the number of distinct values, everyone of them
    used. *)
Lemma unique_inverse_labels (l : list Z) :
  nunique (unique_inverse l) = nunique l
  /\ (forall x : Z, In x (unique_inverse l) -> 0 <= x < nunique l)
  /\ length (unique_inverse l) = length l.
Proof.
  set (u := np_unique l).
  assert (Hin : forall x : Z,
            In x (unique_inverse l)
            <-> In x (map Z.of_nat (seq 0 (length u)))).
  { intros x. unfold unique_inverse. fold u. rewrite !in_map_iff. split.
    - intros (v & <- & Hv). exists (index_of v u). split; [reflexivity |].
      apply in_seq. apply np_unique_in in Hv. fold u in Hv.
      destruct (index_of_lt _ _ Hv). lia.
    - intros (i & <- & Hi). apply in_seq in Hi. exists (nth i u 0).
      split.
      + rewrite index_of_nth; [reflexivity | | lia].
        apply sorted_nodup, np_unique_sorted.
      + apply np_unique_in. fold u. apply nth_In. lia. }
  repeat split.
  - unfold nunique. fold u. f_equal.
    transitivity (length (map Z.of_nat (seq 0 (length u))));
      [| now rewrite length_map, length_seq].
    apply Permutation_length, NoDup_Permutation.
    + apply sorted_nodup, np_unique_sorted.
    + apply Finite.Injective_map_NoDup; [| apply seq_NoDup].
      intros a b. apply Nat2Z.inj.
    + intros x. rewrite np_unique_in. apply Hin.
  - apply Hin in H. apply in_map_iff in H as (i & <- & Hi). lia.
  - apply Hin in H. apply in_map_iff in H as (i & <- & Hi).
    apply in_seq in Hi. unfold nunique. fold u. lia.
  - unfold unique_inverse. apply length_map.
Qed.

End UniqueLabels.

Section SelectorResults.

Context {C : ClusterKernels}.

Local Open Scope Z_scope.

Lemma rederive_loop_realised (clustering : Mat.matrix Np.float64) (fuel : nat) :
  forall (k j : Z) (inds : list Z) (k' : Z) (inds' : list Z),
    j = nunique inds \/ k = nunique inds ->
    (exists t : Z, inds = fcluster clustering t) ->
    rederive_loop fuel clustering k j inds = Some (k', inds') ->
    k' = nunique inds' /\ exists t : Z, inds' = fcluster clustering t.
Proof.
  induction fuel as [| fuel IH]; intros k j inds k' inds' Hinv Ht;
    cbn [rederive_loop]; destruct (Z.eqb_spec k j) as [Hkj | Hkj];
    try discriminate.
  - intros H. injection H as <- <-. split; [lia | exact Ht].
  - intros H. injection H as <- <-. split; [lia | exact Ht].
  - apply IH; [now right | now eexists].
Qed.

Lemma rederive_labels (clustering : Mat.matrix Np.float64) (fuel : nat)
    (k k' : Z) (labels : list Z) :
  rederive fuel clustering k = Some (k', labels) ->
  exists t : Z,
    labels = unique_inverse (fcluster clustering t)
    /\ k' = nunique (fcluster clustering t).
Proof.
  unfold rederive.
  destruct (rederive_loop _ _ _ _ _) as [[k0 inds] |] eqn:Hloop;
    [| discriminate].
  intros H. injection H as <- <-.
  destruct (@rederive_loop_realised clustering fuel _ _ _ _ _
              (or_introl eq_refl) (ex_intro _ k eq_refl) Hloop)
    as (Hk & t & ->).
  now exists t.
Qed.

Lemma choose_level_count (fuel : nat) (clustering : Mat.matrix Np.float64)
    (flag : bool) (levels : frame) (stat : list Np.float64) (k : Z)
    (labels : list Z) :
  choose_level fuel clustering flag levels stat = Some (Ok (k, labels)) ->
  nunique labels = k
  /\ (flag = false ->
      (forall x : Z, In x labels -> 0 <= x < k)
      /\ exists t : Z,
           labels = unique_inverse (fcluster clustering t)
           /\ k = nunique (fcluster clustering t)).
Proof.
  unfold choose_level.
  destruct (idxmax stat) as [k_index | e]; [| discriminate].
  destruct (nth_error levels k_index) as [[node_k column] |]; [| discriminate].
  destruct flag.
  - intros H. injection H as <- <-. split; [reflexivity | discriminate].
  - destruct (rederive fuel clustering (nunique column)) as [[k0 inds] |]
      eqn:Hre; [| discriminate].
    cbn [option_map]. intros H. injection H as <- <-.
    destruct (rederive_labels _ _ _ Hre) as (t & -> & Hk).
    destruct (unique_inverse_labels (fcluster clustering t)) as (Hn & Hr & _).
    rewrite Hk. split; [exact Hn |]. intros _. split; [exact Hr |].
    now exists t.
Qed.

Lemma cluster_levels_flag (dist clustering : Mat.matrix Np.float64)
    (flag : bool) (levels : frame) :
  cluster_levels dist clustering = Ok (flag, levels) ->
  is_monotonic clustering = Ok flag.
Proof.
  unfold cluster_levels.
  destruct (is_monotonic clustering) as [b | e]; [| discriminate].
  cbn [bind]. destruct (cut_tree clustering) as [tree | e]; [| discriminate].
  cbn [bind]. destruct (negb _); [discriminate |].
  intros H. now injection H as <- _.
Qed.


Lemma choose_level_flagged (fuel fuel' : nat)
    (clustering : Mat.matrix Np.float64) (levels : frame)
    (stat : list Np.float64) :
  choose_level fuel clustering true levels stat
  = choose_level fuel' clustering true levels stat
  /\ choose_level fuel clustering true levels stat <> None.
Proof.
  unfold choose_level.
  destruct (idxmax stat) as [k_index | e]; [| split; [reflexivity | discriminate]].
  destruct (nth_error levels k_index) as [[node_k column] |];
    split; (reflexivity || discriminate).
Qed.

(** X21: on a linkage that [hr.is_monotonic] accepts as monotonic, or
    rejects, both functions return (flat clusters or an exception) without
    entering the re-derivation loop: with no iteration allowed at all they
    already give their result. *)
Theorem selectors_return_on_monotonic
    (dist clustering : Mat.matrix Np.float64) (max_k : Z) :
  is_monotonic clustering <> Ok false ->
  exists r1 r2 : result (Z * list Z),
    forall fuel : nat,
      two_diff_gap_stat fuel dist clustering max_k = Some r1
      /\ std_silhouette_score fuel dist clustering max_k = Some r2.
Proof.
  intros Hm.
  assert (Hgap : forall fuel : nat,
            two_diff_gap_stat fuel dist clustering max_k
            = two_diff_gap_stat 0 dist clustering max_k
            /\ two_diff_gap_stat 0 dist clustering max_k <> None).
  { intros fuel. unfold two_diff_gap_stat.
    destruct (cluster_levels dist clustering) as [[flag levels] | e] eqn:Hlv;
      [| split; [reflexivity | discriminate]].
    apply cluster_levels_flag in Hlv.
    destruct flag; [| contradiction].
    destruct (statistics _ _ _ _) as [stat | e];
      [| split; [reflexivity | discriminate]].
    apply (@choose_level_flagged fuel 0%nat). }
  assert (Hsil : forall fuel : nat,
            std_silhouette_score fuel dist clustering max_k
            = std_silhouette_score 0 dist clustering max_k
            /\ std_silhouette_score 0 dist clustering max_k <> None).
  { intros fuel. unfold std_silhouette_score.
    destruct (cluster_levels dist clustering) as [[flag levels] | e] eqn:Hlv;
      [| split; [reflexivity | discriminate]].
    apply cluster_levels_flag in Hlv.
    destruct flag; [| contradiction].
    destruct (statistics _ _ _ _) as [stat | e];
      [| split; [reflexivity | discriminate]].
    apply (@choose_level_flagged fuel 0%nat). }
  destruct (two_diff_gap_stat 0 dist clustering max_k) as [r1 |] eqn:H1;
    [| now destruct (Hgap 0%nat)].
  destruct (std_silhouette_score 0 dist clustering max_k) as [r2 |] eqn:H2;
    [| now destruct (Hsil 0%nat)].
  exists r1, r2. intros fuel. split; [apply Hgap | apply Hsil].
Qed.

End SelectorResults.

(** ** [cov2corr]: the range of the entries *)

Section Cov2CorrRange.

Local Open Scope R_scope.

Lemma clip_range (a : Np.float64) :
  Np.clip a (Np.Fin (-1)) (Np.Fin 1) = Np.NaN
  \/ exists y : R,
       Np.clip a (Np.Fin (-1)) (Np.Fin 1) = Np.Fin y /\ -1 <= y <= 1.
Proof.
  destruct a as [x | | |]; [right | right | right | left; reflexivity];
    apply clip_bounds; (discriminate || lra).
Qed.

Lemma all_mapij {A B : Type} (f : nat -> nat -> A -> B) (Q : B -> Prop)
    (M : Mat.matrix A) :
  (forall (i j : nat) (a : A), Q (f i j a)) -> Mat.all Q (mapij f M).
Proof.
  intros Hf. unfold Mat.all, mapij. apply Forall_forall. intros row Hrow.
  apply in_map_iff in Hrow as (ir & <- & _).
  apply Forall_forall. intros b Hb.
  apply in_map_iff in Hb as (jc & <- & _). apply Hf.
Qed.

Lemma cov2corr_no_columns : cov2corr [[]] = Ok [].
Proof. reflexivity. Qed.

Lemma one_row_no_diag (cov : Mat.matrix Np.float64) :
  length cov = 1%nat ->
  length (map Np.sqrt (Mat.diag Np.NaN cov)) = 0%nat -> cov = [[]].
Proof.
  intros Hrows Hdiag. rewrite length_map in Hdiag.
  unfold Mat.diag, Mat.shape0, Mat.shape1 in Hdiag.
  rewrite length_map, length_seq in Hdiag.
  destruct cov as [| row [| row' rest]]; try discriminate.
  cbn [hd length] in Hdiag. destruct row; [reflexivity | discriminate].
Qed.

(** X22: whatever array [cov2corr] is given, every entry of what it returns
    is NaN or a number between -1 and 1; the result has as many rows as the
    argument, except that one row without columns gives the empty array; for
    a covariance matrix (square, symmetric, finite, with a positive
    diagonal) the result is square and symmetric and no entry is NaN. *)
Theorem cov2corr_range (cov M : Mat.matrix Np.float64) :
  cov2corr cov = Ok M ->
  (cov = [[]] -> M = [])
  /\ (cov <> [[]] -> length M = length cov)
  /\ Mat.all (fun e => e = Np.NaN \/ exists y : R, e = Np.Fin y /\ -1 <= y <= 1)
       M
  /\ (covariance_matrix cov -> dependence_matrix M).
Proof.
  intros Hrun. split; [| split; [| split]].
  - intros ->. rewrite cov2corr_no_columns in Hrun. now injection Hrun as <-.
  - intros Hne. unfold cov2corr in Hrun.
    destruct (is_square cov); [injection Hrun as <-; apply mapij_length |].
    destruct (length (map Np.sqrt (Mat.diag Np.NaN cov)) =? 1)%nat;
      [injection Hrun as <-; apply length_mat_map |].
    destruct (Nat.eqb_spec (length cov) 1) as [Hrows |]; [| discriminate].
    destruct (Nat.eqb_spec (length (map Np.sqrt (Mat.diag Np.NaN cov))) 0)
      as [Hdiag |]; [| discriminate].
    exfalso. apply Hne. now apply one_row_no_diag.
  - unfold cov2corr in Hrun.
    destruct (is_square cov);
      [injection Hrun as <-; apply all_mapij; intros; apply clip_range |].
    destruct (length (map Np.sqrt (Mat.diag Np.NaN cov)) =? 1)%nat;
      [injection Hrun as <-; apply all_map; intros; apply clip_range |].
    destruct (_ && _); [| discriminate].
    injection Hrun as <-. constructor.
  - intros Hcov. destruct (cov2corr_spec Hcov) as (M' & HM' & _ & Hcorr).
    replace M with M' by congruence. exact (proj1 Hcorr).
Qed.

End Cov2CorrRange.

(** ** [two_diff_gap_stat]: the levels it can choose *)

Section GapChoice.

Context {C : ClusterKernels}.

Local Open Scope nat_scope.

Lemma idxmax_from_spec (s : list Np.float64) :
  forall (i : nat) (best : option (nat * Np.float64)) (r : nat)
         (x : Np.float64),
    idxmax_from s i best = Some (r, x) ->
    best = Some (r, x)
    \/ (i <= r < i + length s /\ nth (r - i) s Np.NaN = x /\ x <> Np.NaN).
Proof.
  induction s as [| a s IH]; intros i best r x; cbn [idxmax_from].
  - intros ->. now left.
  - intros H. apply IH in H. cbn [length].
    destruct H as [H | (Hr & Hn & Hx)].
    + destruct a as [y | | |]; destruct best as [[b0 bx] |];
        try (now left);
        try (injection H as <- <-; right; rewrite Nat.sub_diag;
             repeat split; (lia || discriminate));
        (destruct (Np.ltb bx _); [| now left]);
        injection H as <- <-; right; rewrite Nat.sub_diag;
        repeat split; (lia || discriminate).
    + right. split; [lia |]. split; [| exact Hx].
      replace (r - i) with (S (r - S i)) by lia. exact Hn.
Qed.

Lemma idxmax_not_nan (s : list Np.float64) (r : nat) :
  idxmax s = Ok r -> r < length s /\ nth r s Np.NaN <> Np.NaN.
Proof.
  unfold idxmax. destruct (idxmax_from s 0 None) as [[i x] |] eqn:H;
    [| discriminate].
  intros E. injection E as ->.
  apply idxmax_from_spec in H as [H | (Hr & Hn & Hx)]; [discriminate |].
  rewrite Nat.sub_0_r in Hn. split; [lia | congruence].
Qed.

Lemma second_difference_nan (W : list Np.float64) (i : nat) :
  length W <= i + 2 -> nth i (second_differences W) Np.NaN = Np.NaN.
Proof.
  intros Hi. unfold second_differences.
  destruct (Nat.lt_ge_cases i (length W)) as [Hlt | Hge].
  - rewrite nth_map_seq by exact Hlt. unfold shifted.
    rewrite (nth_overflow W (n := i + 2)) by lia. reflexivity.
  - apply nth_overflow. rewrite length_map, length_seq. exact Hge.
Qed.

Lemma length_statistics (score : list Z -> result Np.float64)
    (levels : frame) (bound : R) (cluster_k : list Z) (stat : list Np.float64) :
  statistics score levels bound cluster_k = Ok stat ->
  length stat <= length cluster_k.
Proof.
  revert stat. induction cluster_k as [| k rest IH]; intros stat;
    cbn [statistics].
  - intros H. injection H as <-. cbn. lia.
  - destruct (k =? 1)%Z.
    + destruct (statistics score levels bound rest) as [tail |];
        [| discriminate].
      cbn [bind]. intros H. injection H as <-.
      specialize (IH tail eq_refl). cbn [length]. lia.
    + destruct (Rlt_dec bound (IZR k)).
      * intros H. injection H as <-. cbn. lia.
      * destruct (score _) as [s |]; [| discriminate]. cbn [bind].
        destruct (statistics score levels bound rest) as [tail |];
          [| discriminate].
        cbn [bind]. intros H. injection H as <-.
        specialize (IH tail eq_refl). cbn [length]. lia.
Qed.


End GapChoice.

(** ** [shrinkCorr] *)

Section Shrinkage.

Local Open Scope nat_scope.

Lemma dot_square_rows (c : nat) (A B : Mat.matrix Np.float64) :
  length (dot c A B) = length A
  /\ Forall (fun row => length row = c) (dot c A B).
Proof.
  unfold dot. split; [apply length_map |].
  apply Forall_forall. intros row Hin. apply in_map_iff in Hin.
  destruct Hin as (r & <- & _). now rewrite length_map, length_seq.
Qed.

Lemma reconstruct_square (k : nat) (eVal eVec : Mat.matrix Np.float64) :
  square_of (length eVec) (reconstruct k eVal eVec).
Proof.
  unfold reconstruct.
  destruct (dot_square_rows (length eVec) (dot k eVec eVal)
              (Mat.transpose Np.NaN k eVec)) as [Hlen Hrows].
  destruct (dot_square_rows k eVec eVal) as [Hlen' _].
  split; [congruence | exact Hrows].
Qed.

Lemma zip_with_square (op : Np.float64 -> Np.float64 -> Np.float64) (n : nat)
    (A B : Mat.matrix Np.float64) :
  square_of n A -> square_of n B -> square_of n (zip_with op A B).
Proof.
  intros [HA HrA] [HB HrB]. unfold zip_with. split.
  - rewrite length_map, length_combine. lia.
  - apply Forall_forall. intros row Hin. apply in_map_iff in Hin.
    destruct Hin as ([ra rb] & <- & Hin).
    rewrite length_map, length_combine. cbn [fst snd].
    rewrite Forall_forall in HrA, HrB.
    rewrite (HrA ra (in_combine_l _ _ _ _ Hin)).
    rewrite (HrB rb (in_combine_r _ _ _ _ Hin)). lia.
Qed.

Lemma nth_map_lt {A B : Type} (f : A -> B) (l : list A) (i : nat) (d : A)
    (d' : B) :
  i < length l -> nth i (map f l) d' = f (nth i l d).
Proof.
  intros Hi. rewrite (nth_indep _ d' (f d)) by now rewrite length_map.
  apply map_nth.
Qed.

Lemma get_zip_with (op : Np.float64 -> Np.float64 -> Np.float64) (n : nat)
    (A B : Mat.matrix Np.float64) (i j : nat) :
  square_of n A -> square_of n B -> i < n -> j < n ->
  Mat.get Np.NaN (zip_with op A B) i j
  = op (Mat.get Np.NaN A i j) (Mat.get Np.NaN B i j).
Proof.
  intros [HA HrA] [HB HrB] Hi Hj. unfold Mat.get, zip_with.
  rewrite Forall_forall in HrA, HrB.
  assert (HlA : length (nth i A []) = n) by (apply HrA, nth_In; lia).
  assert (HlB : length (nth i B []) = n) by (apply HrB, nth_In; lia).
  rewrite (@nth_map_lt _ _ _ _ i ([], []) [])
    by (rewrite length_combine; lia).
  rewrite combine_nth by lia. cbn [fst snd].
  rewrite (@nth_map_lt _ _ _ _ j (Np.NaN, Np.NaN) Np.NaN)
    by (rewrite length_combine; lia).
  rewrite combine_nth by lia. reflexivity.
Qed.

Lemma diagflat_square {A : Type} (z : A) (v : list A) :
  square_of (length v) (Mat.diagflat z v).
Proof.
  split; [apply diagflat_length |].
  apply Forall_forall. intros row Hin. unfold Mat.diagflat in Hin.
  apply in_map_iff in Hin. destruct Hin as (i & <- & _).
  now rewrite set_nth_length, repeat_length.
Qed.

Lemma get_diagflat (v : list Np.float64) (i j : nat) :
  i < length v -> j < length v ->
  Mat.get Np.NaN (Mat.diagflat (Np.Fin 0) v) i j
  = if (i =? j) then nth i v (Np.Fin 0) else Np.Fin 0.
Proof.
  intros Hi Hj. unfold Mat.get, Mat.diagflat.
  rewrite (nth_map_seq _ _ Hi). rewrite nth_set_nth, repeat_length.
  rewrite nth_repeat_cases.
  destruct (Nat.ltb_spec i (length v)); [| lia].
  destruct (Nat.ltb_spec j (length v)); [| lia].
  now rewrite Bool.andb_true_r.
Qed.

Lemma length_diag_square {A : Type} (d : A) (n : nat) (M : Mat.matrix A) :
  square_of n M -> length (Mat.diag d M) = n.
Proof.
  intros [Hlen Hrows]. unfold Mat.diag, Mat.shape0, Mat.shape1.
  rewrite length_map, length_seq.
  destruct M as [| r M']; cbn [length hd] in *; [lia |].
  inversion Hrows; subst. lia.
Qed.


End Shrinkage.

(** ** Runs on concrete inputs *)

Lemma block_vec_pq_entries_witness :
  let M := [[Np.Fin 1; Np.Fin 2]; [Np.Fin 3; Np.Fin 4]] in
  exists B : Mat.matrix Np.float64,
    block_vec_pq (Ndarray M) (Z.of_nat 2) (Z.of_nat 1) = Ok B
    /\ length B = (2 * 1)%nat
    /\ Forall (fun row => length row = (2 * 1)%nat) B
    /\ forall i j r c : nat,
         (i < 1)%nat -> (j < 2)%nat -> (r < 2)%nat -> (c < 1)%nat ->
         Mat.get Np.NaN B (j * 1 + i) (c * 2 + r)
         = Mat.get Np.NaN M (i * 2 + r) (j * 1 + c).
Proof.
  intros M.
  apply (@block_vec_pq_entries (Ndarray M) M 2 1 1 2).
  - right. reflexivity.
  - lia.
  - lia.
  - reflexivity.
  - reflexivity.
Defined.

Lemma block_vec_pq_divisibility_witness :
  let M := [[Np.Fin 1; Np.Fin 2]; [Np.Fin 3; Np.Fin 4]] in
  is_ok (block_vec_pq (Ndarray M) 2 1) = true
  /\ block_vec_pq (Ndarray M) 3 1 = Raise ValueError
  /\ block_vec_pq (Ndarray M) 3 0 = Raise ValueError
  /\ block_vec_pq (Ndarray M) 2 0 = Raise ZeroDivisionError.
Proof.
  intros M.
  destruct (block_vec_pq_divisibility M 2 1) as (_ & _ & _ & _ & H21).
  destruct (block_vec_pq_divisibility M 3 1) as (_ & _ & _ & _ & H31).
  destruct (block_vec_pq_divisibility M 3 0) as (_ & _ & H30 & _).
  destruct (block_vec_pq_divisibility M 2 0) as (_ & _ & _ & H20 & _).
  cbv zeta in *.
  split; [apply H21; [lia | lia | split; reflexivity] |].
  split; [apply H31; [lia | lia | left; discriminate] |].
  split; [apply H30; [lia | discriminate] |].
  apply H20; [lia | reflexivity].
Defined.


Lemma color_list_enough_witness :
  exists colors : list nat,
    color_list (fun c : nat => c) (seq 0 10) (seq 0 20) (seq 20 20) (seq 40 20)
      75
    = Ok colors
    /\ (75 <= Z.of_nat (length colors))%Z
    /\ length colors
       = if (75 <=? 10)%Z then 10%nat
         else if (75 <=? 20)%Z then 20%nat
         else if (75 <=? 40)%Z then 40%nat
         else if (75 <=? 60)%Z then 60%nat
         else (60 * Z.to_nat ((75 + 59) / 60))%nat.
Proof.
  apply (@color_list_enough nat nat (fun c => c) (seq 0 10) (seq 0 20)
           (seq 20 20) (seq 40 20) 75); cbn; lia.
Defined.

Lemma cov2_bounded :
  forall (i j : nat) (x vi vj : R),
    Mat.get Np.NaN [[Np.Fin 4; Np.Fin 2]; [Np.Fin 2; Np.Fin 9]] i j = Np.Fin x ->
    Mat.get Np.NaN [[Np.Fin 4; Np.Fin 2]; [Np.Fin 2; Np.Fin 9]] i i = Np.Fin vi ->
    Mat.get Np.NaN [[Np.Fin 4; Np.Fin 2]; [Np.Fin 2; Np.Fin 9]] j j = Np.Fin vj ->
    x * x <= vi * vj.
Proof.
  intros i j x vi vj.
  destruct i as [| [| i]]; destruct j as [| [| j]]; cbn;
    try (destruct i; cbn; discriminate);
    try (destruct j; cbn; discriminate);
    intros Hx Hi Hj; injection Hx as <-; injection Hi as <-;
    injection Hj as <-; lra.
Qed.



Lemma identity2_covariance :
  covariance_matrix [[Np.Fin 1; Np.Fin 0]; [Np.Fin 0; Np.Fin 1]].
Proof.
  repeat split.
  - repeat constructor.
  - intros i j.
    destruct i as [| [| i]]; destruct j as [| [| j]]; cbn; try reflexivity;
      try (destruct i; reflexivity); try (destruct j; reflexivity);
      destruct i, j; reflexivity.
  - repeat constructor.
  - intros i Hi. cbn in Hi.
    destruct i as [| [| i]]; [exists 1 | exists 1 | lia]; cbn;
      split; try reflexivity; lra.
Qed.

Lemma identity2_bounded :
  forall (i j : nat) (x vi vj : R),
    Mat.get Np.NaN [[Np.Fin 1; Np.Fin 0]; [Np.Fin 0; Np.Fin 1]] i j = Np.Fin x ->
    Mat.get Np.NaN [[Np.Fin 1; Np.Fin 0]; [Np.Fin 0; Np.Fin 1]] i i = Np.Fin vi ->
    Mat.get Np.NaN [[Np.Fin 1; Np.Fin 0]; [Np.Fin 0; Np.Fin 1]] j j = Np.Fin vj ->
    x * x <= vi * vj.
Proof.
  intros i j x vi vj.
  destruct i as [| [| i]]; destruct j as [| [| j]]; cbn;
    try (destruct i; cbn; discriminate);
    try (destruct j; cbn; discriminate);
    intros Hx Hi Hj; injection Hx as <-; injection Hi as <-;
    injection Hj as <-; lra.
Qed.


Lemma cov2corr_range_witness :
  let cov := [[Np.Fin 1; Np.Fin 0]; [Np.Fin 0; Np.Fin 1]] in
  (cov = [[]] -> cov = [])
  /\ (cov <> [[]] -> length cov = length cov)
  /\ Mat.all (fun e => e = Np.NaN \/ exists y : R, e = Np.Fin y /\ -1 <= y <= 1)
       cov
  /\ (covariance_matrix cov -> dependence_matrix cov).
Proof.
  intros cov. apply (@cov2corr_range cov cov). exact cov2corr_identity2.
Defined.

Lemma getPCA_order_witness :
  let M := [[Np.Fin 1; Np.Fin 0]; [Np.Fin 0; Np.Fin 2]] in
  let w := [Np.Fin 1; Np.Fin 2] in
  let V := Mat.diagflat (Np.Fin 0) (repeat (Np.Fin 1) 2) in
  exists (indices : list nat) (eVal eVec : Mat.matrix Np.float64),
    getPCA M = Ok (eVal, eVec)
    /\ Permutation indices (seq 0 (length w))
    /\ eVal = Mat.diagflat (Np.Fin 0) (map (fun i => nth i w Np.NaN) indices)
    /\ eVec = map (fun row => map (fun i => nth i row Np.NaN) indices) V
    /\ forall a b : nat, (a <= b < length w)%nat ->
         sort_le (nth b (Mat.diag Np.NaN eVal) Np.NaN)
                 (nth a (Mat.diag Np.NaN eVal) Np.NaN).
Proof.
  intros M w V.
  apply (@getPCA_order diagonal_kernels M w V). reflexivity.
Defined.



Lemma ltdi_matrix_alpha_above_one_witness :
  ltdi_matrix (P := x86_64) [[Np.Fin 1]] (Np.Fin 2) = Raise IndexError.
Proof.
  apply (@ltdi_matrix_alpha_above_one x86_64 [[Np.Fin 1]] 2).
  - cbn. lia.
  - cbn. lia.
  - lra.
  - cbn. unfold Np.int32_max. lra.
Defined.



Lemma codep_dist_unit_interval_witness :
  let X := [[Np.Fin 1; Np.Fin 2]; [Np.Fin 3; Np.Fin 4]] in
  let cov := [[Np.Fin 4; Np.Fin 2]; [Np.Fin 2; Np.Fin 9]] in
  exists codep dist : Mat.matrix Np.float64,
    codep_dist (P := x86_64) (K := Ref.kernels) (C := reference_codep_kernels)
      X (Some cov) "custom_cov"%string (BinsStr "KN"%string)
      (Np.Fin (5 / 100)) (1 / 2) = Ok (codep, dist)
    /\ dist = Mat.map (root_distance "custom_cov"%string) codep
    /\ Mat.all (fun e => e = Np.NaN \/ exists d : R, e = Np.Fin d /\ 0 <= d <= 1)
         dist
    /\ (forall c : Np.float64,
          root_distance "custom_cov"%string c = Np.NaN <-> c = Np.NaN)
    /\ (forall x y : R, x <= y ->
          Np.le (root_distance "custom_cov"%string (Np.Fin y))
                (root_distance "custom_cov"%string (Np.Fin x))).
Proof.
  intros X cov.
  destruct (@cov2corr_spec cov cov2_covariance) as (M & HM & _ & _).
  assert (Hrun : codep_dist (P := x86_64) (K := Ref.kernels)
                   (C := reference_codep_kernels) X (Some cov)
                   "custom_cov"%string (BinsStr "KN"%string)
                   (Np.Fin (5 / 100)) (1 / 2)
                 = Ok (M, Mat.map dist_half M)).
  { unfold codep_dist, codep_dist_branches.
    change (str_in "custom_cov"%string ["pearson"; "spearman"; "kendall"]%string) with false.
    change (String.eqb "custom_cov"%string "gerber1"%string) with false.
    change (String.eqb "custom_cov"%string "gerber2"%string) with false.
    change (str_in "custom_cov"%string ["abs_pearson"; "abs_spearman"; "abs_kendall"]%string)
      with false.
    change (str_in "custom_cov"%string ["distance"%string]) with false.
    change (str_in "custom_cov"%string ["mutual_info"%string]) with false.
    change (str_in "custom_cov"%string ["tail"%string]) with false.
    change (str_in "custom_cov"%string ["custom_cov"%string]) with true.
    cbv iota. rewrite HM. reflexivity. }
  exists M, (Mat.map dist_half M). split; [exact Hrun |].
  apply (@codep_dist_unit_interval x86_64 Ref.kernels reference_codep_kernels
           X (Some cov) "custom_cov"%string (BinsStr "KN"%string)
           (Np.Fin (5 / 100)) (1 / 2) M (Mat.map dist_half M)).
  - unfold root_kinds. cbn [In]. tauto.
  - exact Hrun.
Defined.

Lemma codep_dist_tail_run_zero (X : Mat.matrix Np.float64) :
  codep_dist (P := x86_64) (K := Ref.kernels) (C := reference_codep_kernels)
    X None "tail"%string (BinsStr "KN"%string) (Np.Fin 0) (1 / 2)
  = Ok (Mat.full (Mat.shape1 X) (Mat.shape1 X) (Np.Fin 1),
        Mat.map dist_log (Mat.full (Mat.shape1 X) (Mat.shape1 X) (Np.Fin 1))).
Proof.
  unfold codep_dist, codep_dist_branches.
  change (str_in "tail"%string ["pearson"; "spearman"; "kendall"]%string) with false.
  change (String.eqb "tail"%string "gerber1"%string) with false.
  change (String.eqb "tail"%string "gerber2"%string) with false.
  change (str_in "tail"%string ["abs_pearson"; "abs_spearman"; "abs_kendall"]%string)
    with false.
  change (str_in "tail"%string ["distance"%string]) with false.
  change (str_in "tail"%string ["mutual_info"%string]) with false.
  change (str_in "tail"%string ["tail"%string]) with true.
  cbv iota. rewrite ltdi_matrix_zero. reflexivity.
Qed.


Lemma info_matrix_shape_witness :
  let X := [[Np.Fin 1; Np.Fin 2]; [Np.Fin 3; Np.Fin 4]] in
  exists M : Mat.matrix Np.float64,
    mutual_info_matrix (P := x86_64) (K := Ref.kernels) X (BinsInt 1) false
    = Ok M
    /\ square_of (Mat.shape1 X) M /\ Mat.symmetric Np.NaN M.
Proof.
  intros X.
  destruct (X2_one_bin_raw false) as [Hraw _]. cbv zeta in Hraw.
  assert (Hrun : exists M : Mat.matrix Np.float64,
            mutual_info_matrix (P := x86_64) (K := Ref.kernels) X (BinsInt 1)
              false = Ok M).
  { unfold mutual_info_matrix. unfold X. rewrite Hraw. cbn [bind].
    eexists. reflexivity. }
  destruct Hrun as [M HM]. exists M. split; [exact HM |].
  apply (@info_matrix_shape x86_64 Ref.kernels X (BinsInt 1) false M).
  left. exact HM.
Defined.

Lemma info_matrix_unknown_bins_witness :
  ((0 < Mat.shape1 [[Np.Fin 1]])%nat ->
   mutual_info_matrix (P := x86_64) (K := Ref.kernels) [[Np.Fin 1]]
     BinsOther false = Raise UnboundLocalError
   /\ var_info_matrix (P := x86_64) (K := Ref.kernels) [[Np.Fin 1]]
        BinsOther false = Raise UnboundLocalError)
  /\ (Mat.shape1 [[Np.Fin 1]] = 0%nat ->
      mutual_info_matrix (P := x86_64) (K := Ref.kernels) [[Np.Fin 1]]
        BinsOther false = Ok []
      /\ var_info_matrix (P := x86_64) (K := Ref.kernels) [[Np.Fin 1]]
           BinsOther false = Ok []).
Proof.
  apply (@info_matrix_unknown_bins x86_64 Ref.kernels [[Np.Fin 1]] BinsOther
           false).
  left. reflexivity.
Defined.

Lemma leb_Fin_true (x y : R) : x <= y -> Np.leb (Np.Fin x) (Np.Fin y) = true.
Proof. intros H. now apply le_Fin. Qed.

Lemma rising_monotonic : is_monotonic rising_chain = Ok true.
Proof.
  unfold rising_chain.
  cbn [is_monotonic chain_kernels Mat.col map nth nondecreasing].
  rewrite (@leb_Fin_true 1 2) by lra. rewrite (@leb_Fin_true 2 3) by lra.
  reflexivity.
Qed.

Lemma rising_levels :
  cluster_levels zero_distances rising_chain = Ok (true, chain_frame).
Proof.
  unfold cluster_levels. rewrite rising_monotonic. reflexivity.
Qed.

Lemma rising_gap_run (fuel : nat) :
  two_diff_gap_stat fuel zero_distances rising_chain 10
  = Some (Ok (2%Z, [0; 0; 0; 1]%Z)).
Proof.
  unfold two_diff_gap_stat. rewrite rising_levels, chain_bound.
  change (map (fun lc : nat * list Z => nunique (snd lc)) chain_frame)
    with [1; 2; 3; 4]%Z.
  rewrite chain_gap_statistics. unfold choose_level.
  rewrite chain_gap_index. reflexivity.
Qed.


Lemma selectors_return_on_monotonic_witness :
  exists r1 r2 : result (Z * list Z),
    forall fuel : nat,
      two_diff_gap_stat fuel zero_distances rising_chain 10 = Some r1
      /\ std_silhouette_score fuel zero_distances rising_chain 10 = Some r2.
Proof.
  apply (@selectors_return_on_monotonic chain_kernels zero_distances
           rising_chain 10).
  rewrite rising_monotonic. discriminate.
Defined.



Lemma cov2corr_zero_variance : cov2corr [[Np.Fin 0]] = Ok [[Np.NaN]].
Proof.
  unfold cov2corr.
  change (is_square [[Np.Fin 0]]) with true. cbv iota.
  unfold mapij, Mat.diag, Mat.shape0, Mat.shape1, Mat.get.
  cbn [length hd Nat.min seq map combine fst snd nth].
  unfold Np.sqrt. destruct (Rlt_dec 0 0); [lra |].
  rewrite sqrt_0. cbn [Np.mul]. rewrite Rmult_0_l.
  unfold Np.div. destruct (Req_dec_T 0 0); [| lra].
  destruct (Rcompare_spec 0 0); [reflexivity | lra | lra].
Qed.

(** C7: a distance matrix of [codep_dist] can hold NaN, which is not
    greater than or equal to 0, and a diagonal that is not 0.  With
    ['mutual_info'] and a single bin every variation of information is
    [0 / 0]; with ['custom_cov'] and an asset of variance zero the
    correlation is [0 / 0], and so is the distance on the diagonal. *)
Lemma codep_dist_nan_counterexample :
  let X := [[Np.Fin 1; Np.Fin 2]; [Np.Fin 3; Np.Fin 4]] in
  let nans := [[Np.NaN; Np.NaN]; [Np.NaN; Np.NaN]] in
  In "mutual_info"%string codependence_kinds
  /\ codep_dist (P := x86_64) (K := Ref.kernels)
       (C := reference_codep_kernels) X None "mutual_info"%string
       (BinsInt 1) (Np.Fin (5 / 100)) (1 / 2) = Ok (nans, nans)
  /\ ~ Mat.all (fun e => Np.le (Np.Fin 0) e) nans
  /\ In "custom_cov"%string correlation_kinds
  /\ codep_dist (P := x86_64) (K := Ref.kernels)
       (C := reference_codep_kernels) X (Some [[Np.Fin 0]])
       "custom_cov"%string (BinsStr "KN"%string) (Np.Fin (5 / 100)) (1 / 2)
     = Ok ([[Np.NaN]], [[Np.NaN]])
  /\ Mat.get Np.NaN [[Np.NaN]] 0 0 <> Np.Fin 0.
Proof.
  intros X nans. destruct (X2_one_bin_raw true) as [Hm Hv].
  cbv zeta in Hm, Hv.
  split; [unfold codependence_kinds; cbn [In]; tauto |].
  split; [| split; [| split; [| split]]].
  - unfold codep_dist, codep_dist_branches.
    change (str_in "mutual_info"%string
              ["pearson"; "spearman"; "kendall"]%string) with false.
    change (String.eqb "mutual_info"%string "gerber1"%string) with false.
    change (String.eqb "mutual_info"%string "gerber2"%string) with false.
    change (str_in "mutual_info"%string
              ["abs_pearson"; "abs_spearman"; "abs_kendall"]%string)
      with false.
    change (str_in "mutual_info"%string ["distance"%string]) with false.
    change (str_in "mutual_info"%string ["mutual_info"%string]) with true.
    cbv iota. unfold mutual_info_matrix, var_info_matrix, X.
    rewrite Hm, Hv. reflexivity.
  - intros Hall. inversion Hall as [| row rows Hrow _]; subst.
    inversion Hrow as [| e es He _]; subst. discriminate He.
  - unfold correlation_kinds. cbn [In]. tauto.
  - unfold codep_dist, codep_dist_branches.
    change (str_in "custom_cov"%string
              ["pearson"; "spearman"; "kendall"]%string) with false.
    change (String.eqb "custom_cov"%string "gerber1"%string) with false.
    change (String.eqb "custom_cov"%string "gerber2"%string) with false.
    change (str_in "custom_cov"%string
              ["abs_pearson"; "abs_spearman"; "abs_kendall"]%string)
      with false.
    change (str_in "custom_cov"%string ["distance"%string]) with false.
    change (str_in "custom_cov"%string ["mutual_info"%string]) with false.
    change (str_in "custom_cov"%string ["tail"%string]) with false.
    change (str_in "custom_cov"%string ["custom_cov"%string]) with true.
    cbv iota. rewrite cov2corr_zero_variance. reflexivity.
  - discriminate.
Qed.

Lemma codep_dist_distance_entries_witness :
  let X := [[Np.Fin 1; Np.Fin 2]; [Np.Fin 3; Np.Fin 4]] in
  let cov := [[Np.Fin 4; Np.Fin 2]; [Np.Fin 2; Np.Fin 9]] in
  exists codep dist : Mat.matrix Np.float64,
    codep_dist (P := x86_64) (K := Ref.kernels)
      (C := reference_codep_kernels) X (Some cov) "custom_cov"%string
      (BinsStr "KN"%string) (Np.Fin (5 / 100)) (1 / 2) = Ok (codep, dist)
    /\ Mat.all (fun e => e = Np.NaN \/ Np.le (Np.Fin 0) e) dist
    /\ ("custom_cov"%string = "tail"%string ->
        Mat.all (fun e => Np.le (Np.Fin 0) e) dist)
    /\ ("custom_cov"%string = "tail"%string
        \/ "custom_cov"%string = "mutual_info"%string ->
        Mat.symmetric Np.NaN dist)
    /\ (In "custom_cov"%string root_kinds ->
        (forall i j : nat,
           Mat.get Np.NaN dist i j = Np.NaN
           <-> Mat.get Np.NaN codep i j = Np.NaN)
        /\ (Mat.symmetric Np.NaN codep -> Mat.symmetric Np.NaN dist))
    /\ (In "custom_cov"%string correlation_kinds ->
        forall i : nat,
          Mat.get Np.NaN codep i i = Np.Fin 1 ->
          Mat.get Np.NaN dist i i = Np.Fin 0).
Proof.
  intros X cov.
  destruct (@cov2corr_spec cov cov2_covariance) as (M & HM & _ & _).
  assert (Hrun : codep_dist (P := x86_64) (K := Ref.kernels)
                   (C := reference_codep_kernels) X (Some cov)
                   "custom_cov"%string (BinsStr "KN"%string)
                   (Np.Fin (5 / 100)) (1 / 2)
                 = Ok (M, Mat.map dist_half M)).
  { unfold codep_dist, codep_dist_branches.
    change (str_in "custom_cov"%string
              ["pearson"; "spearman"; "kendall"]%string) with false.
    change (String.eqb "custom_cov"%string "gerber1"%string) with false.
    change (String.eqb "custom_cov"%string "gerber2"%string) with false.
    change (str_in "custom_cov"%string
              ["abs_pearson"; "abs_spearman"; "abs_kendall"]%string)
      with false.
    change (str_in "custom_cov"%string ["distance"%string]) with false.
    change (str_in "custom_cov"%string ["mutual_info"%string]) with false.
    change (str_in "custom_cov"%string ["tail"%string]) with false.
    change (str_in "custom_cov"%string ["custom_cov"%string]) with true.
    cbv iota. rewrite HM. reflexivity. }
  exists M, (Mat.map dist_half M). split; [exact Hrun |].
  apply (@codep_dist_distance_entries x86_64 Ref.kernels
           reference_codep_kernels X (Some cov) "custom_cov"%string
           (BinsStr "KN"%string) (Np.Fin (5 / 100)) (1 / 2) M
           (Mat.map dist_half M)).
  - unfold codependence_kinds. cbn [In]. tauto.
  - exact Hrun.
Defined.
